(** * Paisley: the digest shaping and delivery pipeline of [classes/MailHandler.js]

    A shallow embedding of [MailHandler] (expression evaluator, digest
    shaper, delivery engine, batch runner) and the properties its
    specification states about it.

    Conventions of the embedding.
    - A JavaScript number is an IEEE 754 binary64 value: Rocq's primitive
      [float], whose operations are specified by [FloatAxioms].
    - A JavaScript string is a [string]; characters are read as ASCII.
    - Built-ins whose result depends on the host (parsing a string as a
      number, printing a number, regular expressions, [path.resolve],
      the text of a built-in function) are the fields of the class
      [Host]; every theorem holds for every host.
    - Objects that the code mutates live in an explicit store ([Heap]),
      addressed by location, so that aliasing is visible.
    - A [throw] is the [Throw] case of [result]. *)

From Stdlib Require Import ZArith Floats String Ascii List Lia Bool DecimalString.
From stdpp Require Import gmap strings list.

Set Warnings "-register-all".
Local Open Scope string_scope.
Local Open Scope list_scope.

(** ** JavaScript values *)

Inductive value : Type :=
| VUndefined
| VNull
| VBool (b : bool)
| VNumber (n : float)
| VString (s : string)
| VArray (elems : list value)
| VObject (fields : list (string * value)).

(** A thrown [Error] object, by its constructor and its [message]. *)
Inductive exn : Type :=
| Error (message : string)
| SyntaxError (message : string)
| TypeError (message : string).

Definition message (e : exn) : string :=
  match e with
  | Error m => m
  | SyntaxError m => m
  | TypeError m => m
  end.

Inductive result (A : Type) : Type :=
| Ok (a : A)
| Throw (e : exn).
Arguments Ok {A} a.
Arguments Throw {A} e.

Definition bindR {A B} (r : result A) (k : A -> result B) : result B :=
  match r with
  | Ok a => k a
  | Throw e => Throw e
  end.

Notation "'let!' x ':=' c 'in' k" := (bindR c (fun x => k))
  (at level 10, x name, c at level 100, k at level 200).

(** What the host supplies. [RegExpCreate p] is [new RegExp(p)]: [None]
    when the pattern is not a regular expression (a [SyntaxError], of
    whose message the model keeps the start and the pattern), otherwise
    the pattern's [test] on a string. [pathResolve] is [path.resolve] on
    its arguments. [FunctionToString name] is the text [String] gives
    for the built-in function [name]; the language leaves its layout to
    the implementation. *)
Class Host : Type := {
  StringToNumber : string -> float;
  NumberToString : float -> string;
  RegExpCreate : string -> option (string -> bool);
  pathResolve : list string -> string;
  FunctionToString : string -> string
}.

Definition joinWith (sep : string) (parts : list string) : string :=
  match parts with
  | [] => ""
  | p :: ps => fold_left (fun acc q => acc +:+ sep +:+ q) ps p
  end.

Section Coercions.
Context `{!Host}.

(** [String(v)] *)
Fixpoint ToString (v : value) : string :=
  match v with
  | VUndefined => "undefined"
  | VNull => "null"
  | VBool b => if b then "true" else "false"
  | VNumber n => NumberToString n
  | VString s => s
  | VArray l =>
      joinWith ","
        (map (fun e => match e with
                       | VUndefined | VNull => ""
                       | _ => ToString e
                       end) l)
  | VObject _ => "[object Object]"
  end.

(** [Number(v)] *)
Definition ToNumber (v : value) : float :=
  match v with
  | VUndefined => nan
  | VNull => 0%float
  | VBool b => if b then 1%float else 0%float
  | VNumber n => n
  | VString s => StringToNumber s
  | VArray _ | VObject _ => StringToNumber (ToString v)
  end.

End Coercions.

(** Truthiness: [!!v] *)
Definition ToBoolean (v : value) : bool :=
  match v with
  | VUndefined | VNull => false
  | VBool b => b
  | VNumber n => negb (is_zero n || is_nan n)
  | VString s => negb (String.eqb s "")
  | VArray _ | VObject _ => true
  end.

Definition typeof (v : value) : string :=
  match v with
  | VUndefined => "undefined"
  | VNull => "object"
  | VBool _ => "boolean"
  | VNumber _ => "number"
  | VString _ => "string"
  | VArray _ | VObject _ => "object"
  end.

(** [a === b] for primitives. An array or object literal of the model is
    a fresh object, never identical to another value. *)
Definition StrictEquals (a b : value) : bool :=
  match a, b with
  | VUndefined, VUndefined => true
  | VNull, VNull => true
  | VBool x, VBool y => Bool.eqb x y
  | VNumber x, VNumber y => (x =? y)%float
  | VString x, VString y => String.eqb x y
  | _, _ => false
  end.

(** The comparison of [Array.prototype.includes]: as [===], but [NaN]
    is found. *)
Definition SameValueZero (a b : value) : bool :=
  match a, b with
  | VNumber x, VNumber y => (x =? y)%float || (is_nan x && is_nan y)
  | _, _ => StrictEquals a b
  end.

Definition includes (l : list value) (x : value) : bool :=
  existsb (fun y => SameValueZero y x) l.

(** [x || 0] on numbers *)
Definition orZero (x : float) : float :=
  if ToBoolean (VNumber x) then x else 0%float.

(** ** Expression evaluator: [safeEvaluate] *)

Definition allowedOperators : list value :=
  [VString "+"; VString "-"; VString "*"; VString "/"].

Section Evaluator.
Context `{!Host}.

(** The error [safeEvaluate] throws for an operator it does not allow. *)
Definition InvalidOperator (operator : value) : exn :=
  Error ("Invalid operator: " +:+ ToString operator +:+
         ". Allowed operators: " +:+ joinWith ", " (map ToString allowedOperators)).

Definition safeEvaluate (operand1 operator operand2 : value) : result float :=
  if negb (includes allowedOperators operator) then Throw (InvalidOperator operator)
  else
    let num1 := orZero (ToNumber operand1) in
    let num2 := orZero (ToNumber operand2) in
    if StrictEquals operator (VString "+") then Ok (num1 + num2)%float
    else if StrictEquals operator (VString "-") then Ok (num1 - num2)%float
    else if StrictEquals operator (VString "*") then Ok (num1 * num2)%float
    else if StrictEquals operator (VString "/") then
      Ok (if negb (num2 =? 0)%float then (num1 / num2)%float else 0%float)
    else Ok 0%float.

(** ** Post records and [fetchProp] *)

(** A post record: its own properties, in enumeration order. *)
Definition PostRecord : Type := list (string * value).

(** [data[key]] on a record, by its own properties ([undefined] when
    there is no such property). A record also inherits the members of
    [Object.prototype], which are functions and, for [__proto__], the
    prototype itself: [Number] takes each of them to [NaN], so that
    [fetchProp] gives 0 for an inherited member as for an absent one.
    Where the text of the member matters, [memberText] reads it. *)
Fixpoint getProp (data : PostRecord) (key : string) : value :=
  match data with
  | [] => VUndefined
  | (k, v) :: rest => if String.eqb k key then v else getProp rest key
  end.

(** The own property [key] of a record, if it has one. *)
Fixpoint getOwnProperty (data : PostRecord) (key : string) : option value :=
  match data with
  | [] => None
  | (k, v) :: rest => if String.eqb k key then Some v else getOwnProperty rest key
  end.

(** The functions a record inherits from [Object.prototype]: the name of
    the property and the name of the function. *)
Definition ObjectPrototype : list (string * string) :=
  [("constructor", "Object");
   ("__defineGetter__", "__defineGetter__");
   ("__defineSetter__", "__defineSetter__");
   ("hasOwnProperty", "hasOwnProperty");
   ("__lookupGetter__", "__lookupGetter__");
   ("__lookupSetter__", "__lookupSetter__");
   ("isPrototypeOf", "isPrototypeOf");
   ("propertyIsEnumerable", "propertyIsEnumerable");
   ("toString", "toString");
   ("valueOf", "valueOf");
   ("toLocaleString", "toLocaleString")].

(** [String(data[key])], the member [key] being looked up in the record
    and then in its prototype. *)
Definition memberText (data : PostRecord) (key : string) : string :=
  match getOwnProperty data key with
  | Some v => ToString v
  | None =>
      if String.eqb key "__proto__" then "[object Object]"
      else
        match List.find (fun member => String.eqb (fst member) key) ObjectPrototype with
        | Some member => FunctionToString (snd member)
        | None => "undefined"
        end
  end.

Definition fetchProp (data : PostRecord) (prop : value) : float :=
  let result :=
    if String.eqb (typeof prop) "string" && ToBoolean (getProp data (ToString prop))
    then getProp data (ToString prop)
    else VNumber 0%float in
  if negb (ToBoolean (VNumber (ToNumber result))) then 0%float else ToNumber result.

End Evaluator.

(** ** Array built-ins used by the shaper *)

(** [ToIntegerOrInfinity] of a number: truncation towards zero. *)
Inductive integerOrInfinity : Type :=
| NegInfinity
| Finite (z : Z)
| PosInfinity.

Definition ToIntegerOrInfinity (n : float) : integerOrInfinity :=
  match Prim2SF n with
  | S754_nan | S754_zero _ => Finite 0
  | S754_infinity s => if s then NegInfinity else PosInfinity
  | S754_finite s m e => Finite (cond_Zopp s (Z.shiftl (Zpos m) e))
  end.

Section Arrays.
Context `{!Host} {A : Type}.

(** [l.slice(0, end)] *)
Definition arraySlice0 (l : list A) (stop : value) : list A :=
  let len := Z.of_nat (length l) in
  let final :=
    match stop with
    | VUndefined => len
    | _ =>
        match ToIntegerOrInfinity (ToNumber stop) with
        | NegInfinity => 0%Z
        | Finite z => if (z <? 0)%Z then Z.max (len + z) 0 else Z.min z len
        | PosInfinity => len
        end
    end in
  take (Z.to_nat final) l.

(** [Array.prototype.sort] with a comparator that may throw. The
    comparator's result [v] is read as the language's SortCompare reads
    it: [v > 0] puts the first argument after the second, anything else
    ([v < 0], a zero, [NaN]) leaves it before. For a consistent
    comparator a stable sort has one result, whatever the engine; this
    is the stable insertion sort. No comparison is made on fewer than
    two elements, and with a comparator that throws whenever it is
    called every engine throws on two or more. The comparator of
    [sortAndSlicePost] is consistent unless some key is [NaN]; with a
    [NaN] key the language leaves the order to the engine, and the
    theorems that speak of the order of the result ask for keys that
    are not [NaN]. *)
Fixpoint insertSorted (comparefn : A -> A -> result float) (x : A) (l : list A)
  : result (list A) :=
  match l with
  | [] => Ok [x]
  | y :: l' =>
      let! v := comparefn x y in
      if (0 <? v)%float
      then let! r := insertSorted comparefn x l' in Ok (y :: r)
      else Ok (x :: y :: l')
  end.

Fixpoint arraySort (comparefn : A -> A -> result float) (l : list A) : result (list A) :=
  match l with
  | [] => Ok []
  | x :: l' => let! s := arraySort comparefn l' in insertSorted comparefn x s
  end.

End Arrays.

(** ** Sort configuration *)

(** A collection's [config] object, by the options the shaper reads. An
    absent option is [VUndefined]. [config_structure] lists the structure
    mapping's entries in the order [for (key in structure)] visits them;
    [None] is an absent [structure]. *)
Inductive SortConfig : Type := mkSortConfig {
  config_name : value;
  config_sort : value;
  config_ascending : value;
  config_count : value;
  config_property : value;
  config_value : value;
  config_structure : option (list (string * SortConfig))
}.

Section SortKey.
Context `{!Host}.

(** The key the comparator of [sortAndSlicePost] computes for a record:
    [sort] is the comparator's captured [sort] variable. *)
Definition sortKey (sort : value) (a : PostRecord) : result float :=
  match sort with
  | VArray [fo; op; so] =>
      safeEvaluate (VNumber (fetchProp a fo)) op (VNumber (fetchProp a so))
  | _ => Ok (fetchProp a sort)
  end.

(** The callback passed to [sort]. *)
Definition comparator (sort ascending : value) (a z : PostRecord) : result float :=
  let! valA := sortKey sort a in
  let! valZ := sortKey sort z in
  Ok (if ToBoolean ascending then (valA - valZ)%float else (valZ - valA)%float).

(** [const sort = config.sort ? config.sort : 'points'] *)
Definition effectiveSort (config : SortConfig) : value :=
  if ToBoolean (config_sort config) then config_sort config else VString "points".

(** [const count = config.count ? config.count : 6] *)
Definition effectiveCount (config : SortConfig) : value :=
  if ToBoolean (config_count config) then config_count config else VNumber 6%float.

(** Whether the filter branch is taken: [config.property && config.value]. *)
Definition hasFilter (config : SortConfig) : bool :=
  ToBoolean (config_property config) && ToBoolean (config_value config).

End SortKey.

(** ** Effects: state and exceptions *)

(** A computation over a state [S] that returns or throws; the state
    reached is kept in both cases, as in the language. *)
Definition Eff (S A : Type) : Type := S -> result A * S.

Definition ret {S A} (a : A) : Eff S A := fun s => (Ok a, s).
Definition throw {S A} (e : exn) : Eff S A := fun s => (Throw e, s).
Definition bind {S A B} (c : Eff S A) (k : A -> Eff S B) : Eff S B :=
  fun s =>
    match c s with
    | (Ok a, s') => k a s'
    | (Throw e, s') => (Throw e, s')
    end.
Definition liftR {S A} (r : result A) : Eff S A := fun s => (r, s).

(** [try { c } catch (error) { handler error }] *)
Definition tryCatch {S A} (c : Eff S A) (handler : exn -> Eff S A) : Eff S A :=
  fun s =>
    match c s with
    | (Ok a, s') => (Ok a, s')
    | (Throw e, s') => handler e s'
    end.

Notation "'let*' x ':=' c 'in' k" := (bind c (fun x => k))
  (at level 10, x name, c at level 100, k at level 200).
Notation "c ';;' k" := (bind c (fun _ => k))
  (at level 100, k at level 200, right associativity).

(** One call of the callback after the other, left to right, as [map]
    and [for ... in] run them. *)
Fixpoint forEachM {S A B} (f : A -> Eff S B) (l : list A) : Eff S (list B) :=
  match l with
  | [] => ret []
  | x :: l' =>
      let* y := f x in
      let* ys := forEachM f l' in
      ret (y :: ys)
  end.

(** ** The object store of the shaper *)

Abbreviation loc := nat.

(** The objects [transformPosts] reads and writes. A post record is never
    written to, so an array of posts holds the records themselves. *)
Inductive object : Type :=
| OPosts (elems : list PostRecord)              (* an array of post records *)
| OCollection (posts : loc) (config : SortConfig) (* { posts, config } *)
| OSections (sections : loc)                    (* { sections } *)
| OArray (elems : list loc)                     (* an array of objects *)
| ODocument (mails : loc) (name : value).       (* { mails, name } *)

Abbreviation Heap := (list object).

(** A new object: its location is the first one not in use. *)
Definition alloc (o : object) : Eff Heap loc :=
  fun h => (Ok (length h), h ++ [o]).

Definition load (l : loc) : Eff Heap object :=
  fun h =>
    match h !! l with
    | Some o => (Ok o, h)
    | None => (Throw (TypeError "Cannot read properties of undefined"), h)
    end.

Definition store (l : loc) (o : object) : Eff Heap unit :=
  fun h => (Ok tt, <[l := o]> h).

(** Reading a property that the object at hand does not have, and then
    using the [undefined] that results, is a [TypeError]. *)
Definition notA (what : string) {A} : Eff Heap A :=
  throw (TypeError ("Cannot read properties of undefined (reading " +:+ what +:+ ")")).

Definition loadPosts (l : loc) : Eff Heap (list PostRecord) :=
  let* o := load l in
  match o with
  | OPosts elems => ret elems
  | _ => notA "filter"
  end.

Definition loadCollection (l : loc) : Eff Heap (loc * SortConfig) :=
  let* o := load l in
  match o with
  | OCollection posts config => ret (posts, config)
  | _ => notA "config"
  end.

Definition loadArray (l : loc) : Eff Heap (list loc) :=
  let* o := load l in
  match o with
  | OArray elems => ret elems
  | _ => notA "map"
  end.

(** ** Digest shaper: [sortAndSlicePost] and [transformPosts] *)

Section Shaper.
Context `{!Host}.

Definition sortAndSlicePost (posts : loc) : Eff Heap loc :=
  let* pc := loadCollection posts in
  let config := snd pc in
  let sort := effectiveSort config in
  let ascending := config_ascending config in
  (* filter the array if we need to *)
  (if hasFilter config then
     match RegExpCreate (ToString (config_value config)) with
     | None =>
         throw (SyntaxError ("Invalid regular expression: " +:+ ToString (config_value config)))
     | Some test =>
         let* elems := loadPosts (fst pc) in
         let keep post := test (memberText post (ToString (config_property config))) in
         let* kept := alloc (OPosts (List.filter keep elems)) in
         store posts (OCollection kept config)
     end
   else ret tt) ;;
  let count := effectiveCount config in
  let* pc' := loadCollection posts in
  let arr := fst pc' in
  let* elems := loadPosts arr in
  (* sort works in place on the array that posts.posts refers to *)
  let* sorted := liftR (arraySort (comparator sort ascending) elems) in
  store arr (OPosts sorted) ;;
  let* sliced := alloc (OPosts (arraySlice0 sorted count)) in
  store posts (OCollection sliced config) ;;
  ret posts.

(** The body of the [for (let key in structure)] loop. *)
Definition shapeSection (posts sectionArray : loc) (entry : string * SortConfig)
  : Eff Heap unit :=
  (* let tempPosts = Object.assign({}, posts) *)
  let* pc := loadCollection posts in
  let* tempPosts := alloc (OCollection (fst pc) (snd pc)) in
  (* tempPosts.config = structure[key] *)
  store tempPosts (OCollection (fst pc) (snd entry)) ;;
  let* tempPosts' := sortAndSlicePost tempPosts in
  (* sectionArray.push(tempPosts) *)
  let* elems := loadArray sectionArray in
  store sectionArray (OArray (elems ++ [tempPosts'])).

(** The callback of [data.mails.map]. *)
Definition shapeEntry (posts : loc) : Eff Heap loc :=
  let* pc := loadCollection posts in
  match config_structure (snd pc) with
  | Some ((_ :: _) as structure) =>
      let* sectionArray := alloc (OArray []) in
      forEachM (shapeSection posts sectionArray) structure ;;
      alloc (OSections sectionArray)
  | _ => sortAndSlicePost posts
  end.

Definition transformPosts (data : loc) : Eff Heap loc :=
  let tempData := data in
  let* d := load data in
  match d with
  | ODocument mails name =>
      let* entries := loadArray mails in
      let* shaped := forEachM shapeEntry entries in
      let* mails' := alloc (OArray shaped) in
      let* d' := load tempData in
      match d' with
      | ODocument _ name' => store tempData (ODocument mails' name') ;; ret tempData
      | _ => notA "mails"
      end
  | _ => notA "mails"
  end.

End Shaper.

(** ** Strings: the two regular expressions of [MailHandler] *)

Definition chars (s : string) : list ascii := list_ascii_of_string s.

(** [\s] on ASCII: tab, line feed, vertical tab, form feed, carriage
    return, space. *)
Definition isSpace (c : ascii) : bool :=
  let n := nat_of_ascii c in
  (Nat.leb 9 n && Nat.leb n 13) || Nat.eqb n 32.

(** A line terminator, which [.] does not match. *)
Definition isLineTerminator (c : ascii) : bool :=
  let n := nat_of_ascii c in Nat.eqb n 10 || Nat.eqb n 13.

Definition isDigit (c : ascii) : bool :=
  let n := nat_of_ascii c in Nat.leb 48 n && Nat.leb n 57.

Definition isChar (x : string) (c : ascii) : bool :=
  match x with
  | String d EmptyString => Ascii.eqb c d
  | _ => false
  end.

(** [[^\s@]] *)
Definition isAddressChar (c : ascii) : bool := negb (isSpace c || isChar "@" c).

Fixpoint dropWhile {A} (p : A -> bool) (l : list A) : list A :=
  match l with
  | [] => []
  | x :: l' => if p x then dropWhile p l' else l
  end.

Fixpoint takeWhile {A} (p : A -> bool) (l : list A) : list A :=
  match l with
  | [] => []
  | x :: l' => if p x then x :: takeWhile p l' else []
  end.

(** [s.trim()] *)
Definition trim (s : list ascii) : list ascii :=
  rev (dropWhile isSpace (rev (dropWhile isSpace s))).

(** [[^\s@]+\.[^\s@]+$] on a string of address characters: some dot has
    a character before it and a character after it. *)
Fixpoint hasInnerDot (d : list ascii) : bool :=
  match d with
  | _ :: ((c :: (_ :: _) as after) as rest) => isChar "." c || hasInnerDot rest
  | _ => false
  end.

(** [/^[^\s@]+@[^\s@]+\.[^\s@]+$/.test(s)] *)
Definition emailShape (s : list ascii) : bool :=
  match takeWhile isAddressChar s, dropWhile isAddressChar s with
  | _ :: _, at_ :: domain =>
      isChar "@" at_ && forallb isAddressChar domain && hasInnerDot domain
  | _, _ => false
  end.

Definition isValidEmail (email : value) : bool :=
  if negb (ToBoolean email) || negb (String.eqb (typeof email) "string") then false
  else
    match email with
    | VString s => emailShape (trim (chars s))
    | _ => false
    end.

Fixpoint stripPrefix (p l : list ascii) : option (list ascii) :=
  match p, l with
  | [], _ => Some l
  | c :: p', d :: l' => if Ascii.eqb c d then stripPrefix p' l' else None
  | _ :: _, [] => None
  end.

(** [this.emailRegex.test(file)] for [/(.+)-mail-[0-9]+\.yaml$/]: read
    from the end, the name is [.yaml], one or more digits, [-mail-], and
    before that at least one character that [.] matches. *)
Definition emailRegexTest (file : string) : bool :=
  match stripPrefix (rev (chars ".yaml")) (rev (chars file)) with
  | None => false
  | Some r1 =>
      match takeWhile isDigit r1 with
      | [] => false
      | _ :: _ =>
          match stripPrefix (rev (chars "-mail-")) (dropWhile isDigit r1) with
          | Some (c :: _) => negb (isLineTerminator c)
          | _ => false
          end
      end
  end.

(** [s.includes('..')] *)
Fixpoint includesDotDot (s : list ascii) : bool :=
  match s with
  | c :: ((d :: _) as rest) => (isChar "." c && isChar "." d) || includesDotDot rest
  | _ => false
  end.

(** ** Delivery engine *)

(** The handler object built by the constructor. *)
Record MailHandler : Type := mkMailHandler {
  port : value;
  username : value;
  password : value;
  host : value;
  fromEmail : value;
  dataDir : value;
  viewsDir : value
}.

(** [new MailHandler({ username, password, host, port, fromEmail, dataDir, viewsDir })] *)
Definition newMailHandler (username password host port fromEmail dataDir viewsDir : value)
  : result MailHandler :=
  if negb (ToBoolean username) then Throw (Error "username not provided")
  else if negb (ToBoolean password) then Throw (Error "password not provided")
  else if negb (ToBoolean host) then Throw (Error "host not provided")
  else if negb (ToBoolean port) then Throw (Error "port not provided")
  else if negb (ToBoolean fromEmail) then Throw (Error "fromEmail not provided")
  else if negb (ToBoolean dataDir) then Throw (Error "dataDir not provided")
  else if negb (ToBoolean viewsDir) then Throw (Error "viewsDir not provided")
  else Ok (mkMailHandler port username password host fromEmail dataDir viewsDir).

(** [process.env]: every value of it is a string. *)
Abbreviation Env := (gmap string string).

(** [process.env.NAME]: a string, or [undefined] when it is not set. *)
Definition getenv (env : Env) (name : string) : value :=
  match env !! name with
  | Some s => VString s
  | None => VUndefined
  end.

(** [process.env.NAME = process.env.NAME || fallback] *)
Definition orDefault (name fallback : string) (env : Env) : Env :=
  if ToBoolean (getenv env name) then env else <[name := fallback]> env.

(** [DataHandler.loadConfig()]: [fileVars] are the variables of the
    environment file [dotenv] reads (it never replaces a variable that is
    set), [assets] the normalized path of the templates directory. *)
Definition loadConfig (fileVars : Env) (assets : string) (env : Env) : Env :=
  let env := env ∪ fileVars in
  let env := orDefault "SCRAPPER_SCHEMA_FILE" "scrapper-schema.yaml" env in
  let env := orDefault "VIEWS_DIR" "./email-templates" env in
  let env := orDefault "MAIL_DATA_DIR" "./mail-data" env in
  <["ASSETS_URL" := assets]> env.

(** [MailHandler.init()] *)
Definition init (fileVars : Env) (assets : string) (env : Env) : result MailHandler :=
  let env := loadConfig fileVars assets env in
  let host := getenv env "HOST" in
  let port := getenv env "PORT" in
  let username := getenv env "LOGIN" in
  let password := getenv env "PASSWORD" in
  let fromEmail := getenv env "FROM_EMAIL" in
  let dataDir := getenv env "MAIL_DATA_DIR" in
  let viewsDir := getenv env "VIEWS_DIR" in
  newMailHandler username password host port fromEmail dataDir viewsDir.

(** The two arguments of [mailer.createTransport] and the message handed
    to [transporter.sendMail]. *)
Record TransportOptions : Type := mkTransportOptions {
  transport_host : value;
  transport_port : value;
  transport_secure : bool;
  transport_user : value;
  transport_pass : value;
  connectionTimeout : float;
  greetingTimeout : float;
  socketTimeout : float;
  transport_from : value
}.

Record MailOptions : Type := mkMailOptions {
  mail_to : value;
  mail_html : value;
  mail_subject : value
}.

(** What the outside world sees of a run, oldest first. *)
Inductive event : Type :=
| Sent (transport : TransportOptions) (option : MailOptions)
| Waited (delay : float)
| MadeDirectory (dir : value).

(** The relay's answer to one [transporter.sendMail]: the callback's
    [data], or its [err] by [err.message]. *)
Inductive relayAnswer : Type :=
| Accepted (data : value)
| Refused (errMessage : string).

Record World : Type := mkWorld {
  relayCalls : nat;          (* calls of transporter.sendMail so far *)
  events : list event
}.

Definition emit (e : event) : Eff World unit :=
  fun w => (Ok tt, mkWorld (relayCalls w) (events w ++ [e])).

(** [Math.pow(2, n)] for a natural [n] *)
Fixpoint pow2 (n : nat) : float :=
  match n with
  | O => 1%float
  | S k => (2 * pow2 k)%float
  end.

(** The decimal numeral of a natural number: the text of a counter in a
    template literal. *)
Definition showNat (n : nat) : string := NilEmpty.string_of_uint (Nat.to_uint n).

Section Delivery.
Context `{!Host}.

(** The mail relay: its answer to the [k]-th call, counted from 0. *)
Variable relay : nat -> relayAnswer.

Variable this : MailHandler.

Definition sendMail (email mail name : value) : Eff World value :=
  if negb (isValidEmail email) then
    throw (Error ("Invalid recipient email: " +:+ ToString email))
  else if negb (isValidEmail (fromEmail this)) then
    throw (Error ("Invalid sender email: " +:+ ToString (fromEmail this)))
  else if negb (ToBoolean mail) || negb (String.eqb (typeof mail) "string") then
    throw (Error "Email content is required and must be a string")
  else if negb (ToBoolean name) || negb (String.eqb (typeof name) "string") then
    throw (Error "Email subject is required and must be a string")
  else
    let transporter :=
      mkTransportOptions (host this) (port this)
        (StrictEquals (port this) (VNumber 465%float))
        (username this) (password this)
        10000%float 10000%float 10000%float
        (fromEmail this) in
    let option := mkMailOptions email mail name in
    fun w =>
      let w' := mkWorld (S (relayCalls w)) (events w ++ [Sent transporter option]) in
      match relay (relayCalls w) with
      | Refused m => (Throw (Error ("SMTP error: " +:+ m)), w')
      | Accepted data => (Ok data, w')
      end.

(** The [for] loop of [sendMailWithRetry], entered with [attempt] and
    [lastError]; [remaining] counts the iterations left, that is
    [maxRetries - attempt + 1]. After the loop comes the final throw. *)
Fixpoint retryLoop (email mail name : value) (maxRetries : nat)
    (remaining attempt : nat) (lastError : option exn) : Eff World unit :=
  match remaining with
  | O =>
      match lastError with
      | Some e =>
          throw (Error ("Failed to send email after " +:+ showNat maxRetries +:+
                        " attempts: " +:+ message e))
      | None => throw (TypeError "Cannot read properties of undefined (reading 'message')")
      end
  | S remaining' =>
      let* caught :=
        tryCatch (sendMail email mail name ;; ret None)
                 (fun error => ret (Some error)) in
      match caught with
      | None => ret tt
      | Some error =>
          (if Nat.ltb attempt maxRetries
           then emit (Waited (pow2 attempt * 1000)%float)
           else ret tt) ;;
          retryLoop email mail name maxRetries remaining' (S attempt) (Some error)
      end
  end.

Definition sendMailWithRetry (email mail name : value) (maxRetries : nat) : Eff World unit :=
  retryLoop email mail name maxRetries maxRetries 1 None.

(** [isSafePath] *)
Definition isSafePath (filePath : string) : bool :=
  if negb (ToBoolean (VString filePath)) then false
  else if includesDotDot (chars filePath) then false
  else
    let resolved := pathResolve [ToString (dataDir this); filePath] in
    let dataDirResolved := pathResolve [ToString (dataDir this)] in
    String.prefix dataDirResolved resolved.

(** ** Batch runner: [start] *)

(** What [constructMailData] resolves to. *)
Record MailData : Type := mkMailData {
  data_mail : value;
  data_email : value;
  data_name : value
}.

Record BatchResult : Type := mkBatchResult {
  success : nat;
  failed : nat;
  errors : list string
}.

(** The composer and the file system are outside the batch runner:
    [constructMailData] reads, shapes, renders and inlines one document
    and may throw at any of these steps; [readdirSync] lists the data
    directory or throws; [mkdirSync] creates it or throws. *)
Variable constructMailData : string -> Eff World MailData.
Variable readdirSync : value -> result (list string).
Variable mkdirSync : value -> result unit.

(** The body of the [try] block for one candidate, from the counters
    before it to the counters after it. *)
Definition attemptFile (file : string) (acc : BatchResult) : Eff World BatchResult :=
  let filePath := ToString (dataDir this) +:+ "/" +:+ file in
  let* data := constructMailData filePath in
  if negb (isValidEmail (data_email data)) then
    ret (mkBatchResult (success acc) (S (failed acc))
           (errors acc ++ ["Invalid email address in file " +:+ file +:+ ": " +:+
                           ToString (data_email data)]))
  else
    sendMailWithRetry (data_email data) (data_mail data) (data_name data) 3 ;;
    ret (mkBatchResult (S (success acc)) (failed acc) (errors acc)).

(** What the [catch] block leaves in the counters. *)
Definition recordFailure (file : string) (acc : BatchResult) (error : exn) : BatchResult :=
  mkBatchResult (success acc) (S (failed acc))
    (errors acc ++ ["Failed to process " +:+ file +:+ ": " +:+ message error]).

(** One iteration of [for (const file of files)]. *)
Definition processFile (file : string) (acc : BatchResult) : Eff World BatchResult :=
  if negb (emailRegexTest file) then ret acc
  else if negb (isSafePath file) then
    ret (mkBatchResult (success acc) (failed acc)
           (errors acc ++ ["Skipping unsafe file path: " +:+ file]))
  else
    tryCatch (attemptFile file acc) (fun error => ret (recordFailure file acc error)).

Fixpoint processFiles (files : list string) (acc : BatchResult) : Eff World BatchResult :=
  match files with
  | [] => ret acc
  | file :: rest =>
      let* acc' := processFile file acc in
      processFiles rest acc'
  end.

Definition start : Eff World BatchResult :=
  let* files :=
    match readdirSync (dataDir this) with
    | Ok files => ret files
    | Throw _ =>
        liftR (mkdirSync (dataDir this)) ;;
        emit (MadeDirectory (dataDir this)) ;;
        ret []
    end in
  processFiles files (mkBatchResult 0 0 []).

End Delivery.

(** * Further code of the repository *)

(** ** File names: the capture of [emailRegex] *)

(** [name.match(this.emailRegex)], by its group 1, for
    [/(.+)-mail-[0-9]+\.yaml$/]. The pattern ends at the end of the
    name, so [.yaml], the digits and [-mail-] are found from the end as
    in [emailRegexTest]; the match starts as far left as [.] allows, so
    the group is what stands before [-mail-], back to the nearest line
    terminator. [None] is the [null] of a failed match. *)
Definition emailRegexCapture (name : string) : option string :=
  match stripPrefix (rev (chars ".yaml")) (rev (chars name)) with
  | None => None
  | Some r1 =>
      match takeWhile isDigit r1 with
      | [] => None
      | _ :: _ =>
          match stripPrefix (rev (chars "-mail-")) (dropWhile isDigit r1) with
          | Some ((c :: _) as before) =>
              if isLineTerminator c then None
              else
                Some (string_of_list_ascii
                        (rev (takeWhile (fun c => negb (isLineTerminator c)) before)))
          | _ => None
          end
      end
  end.

(** ** Composer: [formMailData] and [constructMailData] *)

Section Composer.
Context `{!Host}.

Variable this : MailHandler.

(** [path.basename] *)
Variable basename : string -> string.

(** The document of a file as [formMailData] builds it once the file
    name is accepted: read by [DataHandler.read], converted, shaped and
    dated. It is a parameter here, as are the rendering and inlining of
    [constructMailData] and the [name] of a document: the composer does
    not look into any of them. *)
Variable Data : Type.
Variable buildData : string -> Eff World Data.
Variable renderMail : Data -> Eff World value.
Variable nameOf : Data -> value.

Definition formMailData (file : value) : Eff World (Data * string) :=
  if negb (ToBoolean file) || negb (String.eqb (typeof file) "string") then
    throw (Error "File path is required and must be a string")
  else
    match emailRegexCapture (basename (ToString file)) with
    | None =>
        throw (Error ("Invalid email file format: " +:+ ToString file +:+
                      ". Expected format: email-mail-N.yaml"))
    | Some email =>
        if negb (isValidEmail (VString email)) then
          throw (Error ("Invalid email address extracted from filename: " +:+ email))
        else
          let* data := buildData (ToString file) in
          ret (data, email)
    end.

Definition constructMailData (file : string) : Eff World MailData :=
  let* de := formMailData (VString file) in
  let* mail := renderMail (fst de) in
  ret (mkMailData mail (VString (snd de)) (nameOf (fst de))).

End Composer.

(** ** [convertMailDataToArray] *)

Section Convert.
Context {A : Type}.

(** [l.slice(0, final)] for an integer [final] *)
Definition sliceTo (l : list A) (final : Z) : list A :=
  let len := Z.of_nat (length l) in
  take (Z.to_nat (if (final <? 0)%Z then Z.max (len + final) 0 else Z.min final len)) l.

(** [mail[key]] on an object given by its properties *)
Fixpoint property (mail : list (string * A)) (key : string) : option A :=
  match mail with
  | [] => None
  | (k, v) :: rest => if String.eqb k key then Some v else property rest key
  end.

(** [mail] is given by its properties in the order [for (key in mail)]
    visits them; whatever the values are, the function only moves them.
    The result is [{ mails, name }], [None] being an absent [name]. *)
Definition convertMailDataToArray (mail : list (string * A)) : list A * option A :=
  let tempMail := map snd mail in
  let name := property mail "name" in
  (sliceTo tempMail (Z.of_nat (length tempMail) - 2), name).

End Convert.

(** ** Logger: [createLogger] *)

(** What [createLogger] passes to [pino]: the level, whether the pretty
    transport is asked for, and [base.env]. *)
Record LoggerOptions : Type := mkLoggerOptions {
  logger_level : value;
  logger_pretty : bool;
  logger_env : value
}.

(** [createLogger({ quiet, level })]: an absent option is [VUndefined]
    and takes its default. *)
Definition createLogger (quiet level : value) (env : Env) : LoggerOptions :=
  let quiet := match quiet with VUndefined => VBool false | _ => quiet end in
  let level := match level with VUndefined => VString "info" | _ => level end in
  let logLevel := level in
  let logLevel :=
    if ToBoolean quiet then VString "warn"
    else if ToBoolean (getenv env "LOG_LEVEL") then getenv env "LOG_LEVEL"
    else if StrictEquals (getenv env "NODE_ENV") (VString "development") then VString "debug"
    else VString "info" in
  let development := StrictEquals (getenv env "NODE_ENV") (VString "development") in
  mkLoggerOptions logLevel
    (development && negb (ToBoolean (getenv env "NO_PRETTY_LOGS")))
    (if ToBoolean (getenv env "NODE_ENV") then getenv env "NODE_ENV"
     else VString "development").

(** * Vocabulary of the specifications

    The definitions below are not code of the program: they name what
    the theorems of this file say about it. *)

(** ** Numbers *)

Local Open Scope Z_scope.

Definition emin64 : Z := -1074.

(** A float that is greater than zero *)
Definition SFpositive (x : spec_float) : Prop :=
  match x with
  | S754_finite false _ _ | S754_infinity false => True
  | _ => False
  end.

(** The integer a finite float stands for, at the exponent [ez]. *)
Definition aligned (s : bool) (m : positive) (e ez : Z) : Z :=
  cond_Zopp s (Zpos (fst (shl_align m e ez))).

Local Close Scope Z_scope.

(** Equality of numbers as the language's programs see it: the same
    number, [+0] and [-0] being one number ([NaN] is the same as [NaN]). *)
Definition sameNumber (a b : float) : Prop :=
  a = b \/ (is_zero a = true /\ is_zero b = true).

Definition SFsame (u v : spec_float) : Prop :=
  u = v \/ exists s s', u = S754_zero s /\ v = S754_zero s'.

(** The integer a number is, when it is one. *)
Definition integerValue (f : float) : option Z :=
  match Prim2SF f with
  | S754_zero _ => Some 0%Z
  | S754_finite s m e =>
      if (0 <=? e)%Z then Some (cond_Zopp s (Zpos m * 2 ^ e))
      else if (Zpos m mod 2 ^ (- e) =? 0)%Z then Some (cond_Zopp s (Zpos m / 2 ^ (- e)))
      else None
  | _ => None
  end.

(** ** Sorting by insertion *)

Section SortVocabulary.
Context {A : Type}.

(** The sort for a comparator that does not throw: [after x y] is
    "the comparator's result on [x], [y] is greater than zero". *)
Fixpoint insertBy (after : A -> A -> bool) (x : A) (l : list A) : list A :=
  match l with
  | [] => [x]
  | y :: l' => if after x y then y :: insertBy after x l' else x :: y :: l'
  end.

Fixpoint sortBy (after : A -> A -> bool) (l : list A) : list A :=
  match l with
  | [] => []
  | x :: l' => insertBy after x (sortBy after l')
  end.

(** Adjacent elements are in order: the second is not to be put before
    the first. *)
Inductive ordered (after : A -> A -> bool) : list A -> Prop :=
| ordered_nil : ordered after []
| ordered_one x : ordered after [x]
| ordered_cons x y l :
    after x y = false -> ordered after (y :: l) -> ordered after (x :: y :: l).

End SortVocabulary.

(** ** The evaluator, the shaper, the delivery and the store *)

Section Vocabulary.
Context `{!Host}.

(** The evaluator as the specification words it: a non-numeric operand
    counts as 0, the operator is applied, and a division by zero is 0. *)
Definition coerceOperand (v : value) : float :=
  if is_nan (ToNumber v) then 0%float else ToNumber v.

Definition standardArithmetic (operator : string) (x y : float) : float :=
  if String.eqb operator "+" then (x + y)%float
  else if String.eqb operator "-" then (x - y)%float
  else if String.eqb operator "*" then (x * y)%float
  else (x / y)%float.

Definition evaluateSpec (operand1 : value) (operator : string) (operand2 : value) : float :=
  let x := coerceOperand operand1 in
  let y := coerceOperand operand2 in
  if String.eqb operator "/" && is_zero y then 0%float
  else standardArithmetic operator x y.

(** A [sort] option whose operator, when it has one, is allowed. *)
Definition sortIsValid (sort : value) : bool :=
  match sort with
  | VArray [_; op; _] => includes allowedOperators op
  | _ => true
  end.

(** The key of a record under a valid [sort]. *)
Definition keyOf (sort : value) (a : PostRecord) : float :=
  match sortKey sort a with
  | Ok k => k
  | Throw _ => 0%float
  end.

(** The order the comparator asks for: [comesAfter a z] when [a] is to
    be put after [z]. *)
Definition comesAfter (sort ascending : value) (a z : PostRecord) : bool :=
  if ToBoolean ascending
  then (keyOf sort z <? keyOf sort a)%float
  else (keyOf sort a <? keyOf sort z)%float.

(** The filter step on a list of posts. *)
Definition filteredPosts (config : SortConfig) (elems : list PostRecord)
  : result (list PostRecord) :=
  if hasFilter config then
    match RegExpCreate (ToString (config_value config)) with
    | None =>
        Throw (SyntaxError ("Invalid regular expression: " +:+ ToString (config_value config)))
    | Some test =>
        let keep post := test (memberText post (ToString (config_property config))) in
        Ok (List.filter keep elems)
    end
  else Ok elems.

(** Filter, sort, slice: what [sortAndSlicePost] leaves in [posts.posts]
    for a collection that held [elems]. *)
Definition shapedPosts (config : SortConfig) (elems : list PostRecord)
  : result (list PostRecord) :=
  let! filtered := filteredPosts config elems in
  let! sorted :=
    arraySort (comparator (effectiveSort config) (config_ascending config)) filtered in
  Ok (arraySlice0 sorted (effectiveCount config)).

(** The post list of the collection at [c]. *)
Definition postsOf (h : Heap) (c : loc) : option (list PostRecord) :=
  match h !! c with
  | Some (OCollection a _) =>
      match h !! a with
      | Some (OPosts l) => Some l
      | _ => None
      end
  | _ => None
  end.

(** The store after [sortAndSlicePost] on the collection at [posts],
    which held the array at [arr]. *)
Definition heapAfterFilter (h : Heap) (posts : loc) (config : SortConfig)
    (filtered : list PostRecord) : Heap :=
  if hasFilter config
  then <[posts := OCollection (length h) config]> (h ++ [OPosts filtered])
  else h.

Definition arrayAfterFilter (h : Heap) (arr : loc) (config : SortConfig) : loc :=
  if hasFilter config then length h else arr.

Definition heapAfterSort (h : Heap) (posts arr : loc) (config : SortConfig)
    (filtered sorted : list PostRecord) : Heap :=
  let h1 := heapAfterFilter h posts config filtered in
  <[posts := OCollection (length h1) config]>
    ((<[arrayAfterFilter h arr config := OPosts sorted]> h1)
       ++ [OPosts (arraySlice0 sorted (effectiveCount config))]).

(** [config.count] is the positive integer [n], or is absent and [n] is 6. *)
Definition countIs (config : SortConfig) (n : nat) : Prop :=
  (exists f, config_count config = VNumber f
             /\ integerValue f = Some (Z.of_nat n) /\ 0 < n)
  \/ (config_count config = VUndefined /\ n = 6).


(** A payload and a configuration that pass the checks of [sendMail]. *)
Definition validPayload (this : MailHandler) (email mail name : value) : Prop :=
  isValidEmail email = true
  /\ isValidEmail (fromEmail this) = true
  /\ ToBoolean mail = true /\ typeof mail = "string"
  /\ ToBoolean name = true /\ typeof name = "string".

(** The transport [sendMail] creates. *)
Definition transporterOf (this : MailHandler) : TransportOptions :=
  mkTransportOptions (host this) (port this)
    (StrictEquals (port this) (VNumber 465%float))
    (username this) (password this)
    10000%float 10000%float 10000%float
    (fromEmail this).

(** The world after one more message went to the relay. *)
Definition afterSend (this : MailHandler) (email mail name : value) (w : World) : World :=
  mkWorld (S (relayCalls w))
    (events w ++ [Sent (transporterOf this) (mkMailOptions email mail name)]).

Definition afterWait (delay : float) (w : World) : World :=
  mkWorld (relayCalls w) (events w ++ [Waited delay]).

(** A file that the loop attempts. *)
Definition candidate (this : MailHandler) (file : string) : Prop :=
  emailRegexTest file = true /\ isSafePath this file = true.

(** A collection that [shapeEntry] splits into sections. *)
Definition sectioned (config : SortConfig) : Prop :=
  match config_structure config with
  | Some (_ :: _) => True
  | _ => False
  end.

(** What one run of [sortAndSlicePost] on the collection at [p] does to
    the store, as far as the rest of the shaper can tell. *)
Record shapeStep (h h' : Heap) (p : loc) : Prop := {
  ss_before :
    exists a config E s out E1,
      h !! p = Some (OCollection a config)
      /\ h !! a = Some (OPosts E)
      /\ length h <= s /\ s < length h'
      /\ h' !! p = Some (OCollection s config)
      /\ h' !! s = Some (OPosts out)
      /\ shapedPosts config E = Ok out
      /\ h' !! a = Some (OPosts E1) /\ Permutation E1 E
      /\ (forall l, l < length h -> l <> p -> l <> a -> h' !! l = h !! l);
  ss_new : forall l o, length h <= l -> h' !! l = Some o -> exists e, o = OPosts e;
  ss_grow : length h <= length h'
}.

(** The section shaped for one structure entry: the collection at [ts.1]
    carries the entry's config, and its posts, in the array at [ts.2],
    are the collection's posts filtered, sorted and sliced under that
    config, up to the order in which equal keys were met. *)
Definition sectionDone (h h' : Heap) (E : list PostRecord)
    (ts : loc * loc) (entry : string * SortConfig) : Prop :=
  exists out Ei,
    h' !! ts.1 = Some (OCollection ts.2 (snd entry))
    /\ h' !! ts.2 = Some (OPosts out)
    /\ Permutation Ei E
    /\ shapedPosts (snd entry) Ei = Ok out
    /\ length h <= ts.1 /\ ts.1 < length h'
    /\ length h <= ts.2 /\ ts.2 < length h'.

(** A section config that [sortAndSlicePost] can carry out: its filter
    pattern, when it filters, is a regular expression, and its sort
    operator, when it has one, is allowed. *)
Definition sectionIsValid (config : SortConfig) : Prop :=
  (hasFilter config = true -> is_Some (RegExpCreate (ToString (config_value config))))
  /\ sortIsValid (effectiveSort config) = true.











End Vocabulary.

(** ** Example inputs *)

Definition plainConfig (sort ascending count : value) : SortConfig :=
  mkSortConfig VUndefined sort ascending count VUndefined VUndefined None.

Definition pointsPost (n : float) : PostRecord :=
  [("title", VString "some fancy title"); ("points", VNumber n)].

Definition chartPost (lastWeek rank : float) : PostRecord :=
  [("last-week", VNumber lastWeek); ("rank", VNumber rank)].

(** One collection of six posts, shaped to the three with most points. *)
Definition topThreeConfig : SortConfig :=
  plainConfig (VString "points") (VBool false) (VNumber 3%float).

Definition topThreeHeap : Heap :=
  [OCollection 1 topThreeConfig;
   OPosts (List.map pointsPost [10; 20; 30; 40; 50; 60]%float)].

(** Two records sorted by [last-week - rank], ascending. *)
Definition gainsSort : value := VArray [VString "last-week"; VString "-"; VString "rank"].

Definition gainsConfig : SortConfig := plainConfig gainsSort (VBool true) (VNumber 2%float).

Definition gainsHeap : Heap :=
  [OCollection 1 gainsConfig; OPosts [chartPost 5 2; chartPost 1 4]].



(** A record whose key is [Infinity - Infinity]. *)
Definition unboundedHeap : Heap :=
  [OCollection 1 gainsConfig; OPosts [chartPost infinity infinity; chartPost 1 0]].

(** A collection split into two sections. *)
Definition chartStructure : list (string * SortConfig) :=
  [("top", plainConfig (VString "rank") (VBool true) (VNumber 6%float));
   ("most-gains", plainConfig gainsSort (VBool false) (VNumber 6%float))].

Definition chartConfig : SortConfig :=
  mkSortConfig VUndefined VUndefined VUndefined VUndefined VUndefined VUndefined
    (Some chartStructure).



(** Two posts with the same [rank]; one section sorts by [last-week],
    the next by [rank]. *)
Definition tiedPosts : list PostRecord := [chartPost 1 7; chartPost 2 7].

Definition tiedHeap : Heap :=
  [OCollection 1
     (mkSortConfig VUndefined VUndefined VUndefined VUndefined VUndefined VUndefined
        (Some [("recent", plainConfig (VString "last-week") (VBool false) VUndefined);
               ("ranked", plainConfig (VString "rank") (VBool false) VUndefined)]));
   OPosts tiedPosts].

(** A document with a plain collection and a split one. *)
Definition digestHeap : Heap :=
  [ODocument 1 (VString "Daily Digest");
   OArray [2; 4];
   OCollection 3 topThreeConfig;
   OPosts (List.map pointsPost [10; 20; 30; 40; 50; 60]%float);
   OCollection 5 chartConfig;
   OPosts [chartPost 5 2; chartPost 1 4]].

(** A handler, a payload, two relays. *)
Definition janeHandler : MailHandler :=
  mkMailHandler (VString "2525") (VString "jane") (VString "james") (VString "somehost")
    (VString "janedoe@mail.com") (VString "./mail-data") (VString "./email-templates").

Definition relayDown : nat -> relayAnswer := fun _ => Refused "connection refused".

Definition relayUpAtThird : nat -> relayAnswer :=
  fun k => if Nat.ltb k 2 then Refused "connection refused" else Accepted (VString "Ok").

Definition freshWorld : World := mkWorld 0 [].

(** The environment of a deployment on the secure port. *)
Definition securePortEnv : Env :=
  <["HOST" := "smtp.example.org"]>
    (<["PORT" := "465"]>
       (<["LOGIN" := "jane"]>
          (<["PASSWORD" := "james"]>
             (<["FROM_EMAIL" := "janedoe@mail.com"]> ∅)))).

(** A host of which only [path.resolve] matters to the batch runner: it
    joins its arguments onto the working directory. *)
Definition exampleHost : Host :=
  Build_Host (fun _ => nan) (fun _ => "NaN") (fun _ => None)
    (fun parts => joinWith "/" ("/srv/paisley" :: parts))
    (fun name => "function " +:+ name +:+ "() { [native code] }").

(** A composer that fails on one document, a relay that accepts, a data
    directory with two documents and a file that is not one. *)
Definition exampleComposer : string -> Eff World MailData :=
  fun filePath =>
    if String.eqb filePath "./mail-data/broken-mail-1.yaml"
    then throw (SyntaxError "bad indentation of a mapping entry")
    else ret (mkMailData (VString "<p>Hello</p>") (VString "jonedoe@mail.com")
                (VString "Daily Digest")).

Definition relayUp : nat -> relayAnswer := fun _ => Accepted (VString "Ok").

Definition exampleFiles : list string :=
  ["broken-mail-1.yaml"; "notes.txt"; "jane-mail-2.yaml"].

Definition exampleReaddir : value -> result (list string) := fun _ => Ok exampleFiles.

Definition exampleMkdir : value -> result unit := fun _ => Ok tt.

(** ** Vocabulary of the further theorems *)

(** A string of address characters: no white space, no [@]. *)
Definition addressChars (l : list ascii) : Prop :=
  Forall (fun c => isAddressChar c = true) l.

(** The strings [/^[^\s@]+@[^\s@]+\.[^\s@]+$/] matches. *)
Definition emailLanguage (s : list ascii) : Prop :=
  exists loc d1 d2,
    s = loc ++ "@"%char :: d1 ++ "."%char :: d2
    /\ loc <> [] /\ d1 <> [] /\ d2 <> []
    /\ addressChars loc /\ addressChars d1 /\ addressChars d2.

(** White space only. *)
Definition blank (l : list ascii) : Prop := Forall (fun c => isSpace c = true) l.

(** The names [/(.+)-mail-[0-9]+\.yaml$/] matches: [c] is the character
    that [.] must match. *)
Definition mailFileName (name : list ascii) : Prop :=
  exists before c digits,
    name = before ++ c :: chars "-mail-" ++ digits ++ chars ".yaml"
    /\ isLineTerminator c = false
    /\ digits <> [] /\ Forall (fun d => isDigit d = true) digits.

(** The address part of a file name: [email] is what the group of the
    name pattern captures in [name], [skipped] what stands before the
    match. *)
Definition capturedFrom (name email : string) : Prop :=
  exists skipped digits,
    chars name = skipped ++ chars email ++ chars "-mail-" ++ digits ++ chars ".yaml"
    /\ email <> ""
    /\ Forall (fun c => isLineTerminator c = false) (chars email)
    /\ (skipped = [] \/ exists front c, skipped = front ++ [c] /\ isLineTerminator c = true)
    /\ digits <> [] /\ Forall (fun d => isDigit d = true) digits.

(** The messages handed to the relay, and the waits, among some events. *)
Definition sends (l : list event) : nat :=
  length (List.filter (fun e => match e with Sent _ _ => true | _ => false end) l).

Definition waits (l : list event) : nat :=
  length (List.filter (fun e => match e with Waited _ => true | _ => false end) l).

(** The events of [k] failed attempts, numbered from [first], each
    followed by its wait. *)
Definition backoff (sent : list event) (first k : nat) : list event :=
  flat_map (fun attempt => sent ++ [Waited (pow2 attempt * 1000)%float]) (seq first k).

(** The setting [name] as [loadConfig] finds it: the variable of the
    process environment if there is one, else the variable of the
    environment file, else [undefined]. *)
Definition setting (fileVars env : Env) (name : string) : value :=
  match env !! name with
  | Some s => VString s
  | None => getenv fileVars name
  end.

(** A setting, or a fallback when it is absent or empty. *)
Definition settingOr (fileVars env : Env) (name fallback : string) : value :=
  if ToBoolean (setting fileVars env name) then setting fileVars env name
  else VString fallback.

(** The settings the constructor insists on, by the name of the option
    and the name of the variable, in the order of the checks. *)
Definition required : list (string * string) :=
  [("username", "LOGIN"); ("password", "PASSWORD"); ("host", "HOST");
   ("port", "PORT"); ("fromEmail", "FROM_EMAIL")].

Definition firstMissing (fileVars env : Env) : option string :=
  option_map fst
    (find (fun option => negb (ToBoolean (setting fileVars env (snd option)))) required).

(** A number that is neither [NaN] nor infinite. *)
Definition SFfinite (x : spec_float) : Prop :=
  match x with
  | S754_zero _ | S754_finite _ _ _ => True
  | _ => False
  end.

Section FurtherVocabulary.
Context `{!Host}.

(** The files of a listing that the loop attempts, and those it skips as
    unsafe. *)
Definition candidates (this : MailHandler) (files : list string) : list string :=
  List.filter (fun file => emailRegexTest file && isSafePath this file) files.

Definition unsafeFiles (this : MailHandler) (files : list string) : list string :=
  List.filter (fun file => emailRegexTest file && negb (isSafePath this file)) files.

(** A message of the two kinds the loop writes for [file] when the
    composer hands back valid addresses only. *)
Definition skippedOrFailed (file msg : string) : Prop :=
  msg = "Skipping unsafe file path: " +:+ file
  \/ exists e : exn, msg = "Failed to process " +:+ file +:+ ": " +:+ message e.

(** The test of the filter of [config] on a post. *)
Definition passes (config : SortConfig) (test : string -> bool) (post : PostRecord) : bool :=
  test (memberText post (ToString (config_property config))).

(** What a step of the shaper keeps of every object of the store: an
    array of posts keeps its posts, in some order; a document and an
    array of objects are not touched; a collection keeps its config, and
    its posts array is the one it had or one made since. *)
Record kept (h h' : Heap) : Prop := {
  kept_grow : length h <= length h';
  kept_posts : forall a E, h !! a = Some (OPosts E) ->
      exists E', h' !! a = Some (OPosts E') /\ Permutation E' E;
  kept_document : forall l m nm,
      h !! l = Some (ODocument m nm) -> h' !! l = Some (ODocument m nm);
  kept_array : forall l es, h !! l = Some (OArray es) -> h' !! l = Some (OArray es);
  kept_collection : forall l a cfg, h !! l = Some (OCollection a cfg) ->
      exists a', h' !! l = Some (OCollection a' cfg)
                 /\ (a' = a \/ (length h <= a' /\ exists E, h' !! a' = Some (OPosts E)))
}.

(** A config that [shapeEntry] can carry out: each section's config if
    the collection is split, the collection's own otherwise. *)
Definition shapeable (config : SortConfig) : Prop :=
  match config_structure config with
  | Some ((_ :: _) as structure) => Forall (fun entry => sectionIsValid (snd entry)) structure
  | _ => sectionIsValid config
  end.

(** A collection of the store that can be shaped. *)
Definition collectionAt (h : Heap) (c : loc) : Prop :=
  exists a config E,
    h !! c = Some (OCollection a config) /\ h !! a = Some (OPosts E) /\ shapeable config.

End FurtherVocabulary.

(** ** Further example inputs *)

(** A data directory that cannot be listed. *)
Definition exampleNoDirectory : value -> result (list string) :=
  fun _ => Throw (Error "ENOENT: no such file or directory, scandir './mail-data'").

(** The last segment of a path written with [/]. *)
Definition exampleBasename (path : string) : string :=
  string_of_list_ascii
    (rev (takeWhile (fun c => negb (Ascii.eqb c "/"%char)) (rev (chars path)))).

(** A document builder and a renderer that always succeed. *)
Definition exampleBuild : string -> Eff World value :=
  fun _ => ret (VString "Daily Digest").

Definition exampleRender : value -> Eff World value :=
  fun _ => ret (VString "<p>Hello</p>").

(** A listing with a document for an address and one whose name carries
    none. *)
Definition mailFiles : list string := ["jane@mail.com-mail-1.yaml"; "notes-mail-2.yaml"].

Definition mailReaddir : value -> result (list string) := fun _ => Ok mailFiles.

(** Two posts of the same rank, sorted by rank. *)
Definition tiedRankHeap : Heap :=
  [OCollection 1 (plainConfig (VString "rank") (VBool false) VUndefined); OPosts tiedPosts].




(** A host that knows the patterns made of letters and digits: such a
    pattern matches the strings in which it occurs. *)
Definition isWordChar (c : ascii) : bool :=
  let n := nat_of_ascii c in
  isDigit c || (Nat.leb 65 n && Nat.leb n 90) || (Nat.leb 97 n && Nat.leb n 122).

Fixpoint occursIn (p s : list ascii) : bool :=
  match stripPrefix p s with
  | Some _ => true
  | None =>
      match s with
      | [] => false
      | _ :: s' => occursIn p s'
      end
  end.

Definition wordHost : Host :=
  Build_Host (fun _ => nan) (fun _ => "NaN")
    (fun p => if forallb isWordChar (chars p)
              then Some (fun s => occursIn (chars p) (chars s))
              else None)
    (fun parts => joinWith "/" ("/srv/paisley" :: parts))
    (fun name => "function " +:+ name +:+ "() { [native code] }").

(** Three posts, of which those of a domain with [github] are kept. *)
Definition domainPost (domain : string) (points : float) : PostRecord :=
  [("domain", VString domain); ("points", VNumber points)].

Definition domainConfig : SortConfig :=
  mkSortConfig VUndefined (VString "points") (VBool false) (VNumber 6%float)
    (VString "domain") (VString "github") None.

Definition domainHeap : Heap :=
  [OCollection 1 domainConfig;
   OPosts [domainPost "github.com" 10; domainPost "example.org" 30;
           domainPost "gist.github.com" 20]].

(** The same posts, filtered by a member that they inherit. *)
Definition inheritedConfig : SortConfig :=
  mkSortConfig VUndefined (VString "points") (VBool false) (VNumber 6%float)
    (VString "constructor") (VString "undef") None.

Definition inheritedHeap : Heap :=
  [OCollection 1 inheritedConfig;
   OPosts [domainPost "github.com" 10; domainPost "example.org" 30]].

(** * Theorems *)

(** * Binary64 facts *)

Lemma SFcompare_refl (x : spec_float) :
  x <> S754_nan -> SFcompare x x = Some Eq.
Proof.
  destruct x as [[]|[]| |[] m e]; simpl; try congruence; intros _.
  - rewrite Z.compare_refl, Pos.compare_cont_refl. reflexivity.
  - rewrite Z.compare_refl, Pos.compare_cont_refl. reflexivity.
Qed.

Lemma is_nan_spec (x : float) : is_nan x = true <-> Prim2SF x = S754_nan.
Proof.
  unfold is_nan. rewrite FloatAxioms.eqb_spec. unfold SFeqb.
  destruct (Prim2SF x) eqn:E.
  1,2,4: rewrite SFcompare_refl by discriminate; simpl; split; discriminate.
  simpl. split; reflexivity.
Qed.

Lemma Prim2SF_zero : Prim2SF 0%float = S754_zero false.
Proof. reflexivity. Qed.

Lemma is_zero_spec (x : float) :
  is_zero x = true <-> exists s, Prim2SF x = S754_zero s.
Proof.
  unfold is_zero. rewrite FloatAxioms.eqb_spec. unfold SFeqb.
  change (Prim2SF PrimFloat.zero) with (S754_zero false).
  destruct (Prim2SF x) as [s|s| |s m e]; simpl.
  - split; eauto.
  - destruct s; split; try discriminate; intros [? ?]; discriminate.
  - split; try discriminate; intros [? ?]; discriminate.
  - destruct s; split; try discriminate; intros [? ?]; discriminate.
Qed.

Lemma is_nan_false (x : float) : is_nan x = false <-> Prim2SF x <> S754_nan.
Proof.
  rewrite <- is_nan_spec. destruct (is_nan x); split; congruence.
Qed.

(** ** Rounding a nonzero integer keeps its sign *)

Local Open Scope Z_scope.

Lemma digits2_pos_bounds (m : positive) :
  2 ^ (Zpos (digits2_pos m) - 1) <= Zpos m < 2 ^ Zpos (digits2_pos m).
Proof.
  induction m as [m IH|m IH|]; simpl digits2_pos.
  - rewrite Pos2Z.inj_succ.
    replace (Z.succ (Zpos (digits2_pos m)) - 1) with (Z.succ (Zpos (digits2_pos m) - 1)) by lia.
    rewrite !Z.pow_succ_r by lia. lia.
  - rewrite Pos2Z.inj_succ.
    replace (Z.succ (Zpos (digits2_pos m)) - 1) with (Z.succ (Zpos (digits2_pos m) - 1)) by lia.
    rewrite !Z.pow_succ_r by lia. lia.
  - simpl. lia.
Qed.

Lemma iter_xO_mul (d m : positive) :
  Zpos (Pos.iter xO m d) = Zpos m * 2 ^ Zpos d.
Proof.
  induction d as [|d IH] using Pos.peano_ind.
  - simpl. lia.
  - rewrite Pos.iter_succ, Pos2Z.inj_xO, IH, Pos2Z.inj_succ, Z.pow_succ_r by lia. lia.
Qed.

Lemma shl_align_value (m : positive) (e e' : Z) :
  e' <= e ->
  Zpos (fst (shl_align m e e')) = Zpos m * 2 ^ (e - e') /\ snd (shl_align m e e') = e'.
Proof.
  intros Hle. unfold shl_align.
  destruct (e' - e) as [|p|p] eqn:E; simpl.
  - assert (e = e') by lia. subst. rewrite Z.sub_diag. simpl. lia.
  - lia.
  - rewrite iter_xO_mul. replace (e - e') with (Zpos p) by lia. auto.
Qed.

Lemma shl_align_ge (m : positive) (e e' : Z) :
  e <= e' -> shl_align m e e' = (m, e).
Proof.
  intros Hle. unfold shl_align. destruct (e' - e) eqn:E; auto. lia.
Qed.

Lemma iter_pos_nat {A} (f : A -> A) (p : positive) (x : A) :
  SpecFloat.iter_pos f p x = Nat.iter (Pos.to_nat p) f x.
Proof.
  revert x. induction p as [p IH|p IH|]; intros x; simpl SpecFloat.iter_pos.
  - rewrite !IH, Pos2Nat.inj_xI.
    replace (S (2 * Pos.to_nat p))%nat with (Pos.to_nat p + (Pos.to_nat p + 1))%nat by lia.
    rewrite !Nat.iter_add. simpl. reflexivity.
  - rewrite !IH, Pos2Nat.inj_xO.
    replace (2 * Pos.to_nat p)%nat with (Pos.to_nat p + Pos.to_nat p)%nat by lia.
    rewrite Nat.iter_add. reflexivity.
  - reflexivity.
Qed.

Lemma shr_1_m (mrs : shr_record) :
  0 <= shr_m mrs -> shr_m (shr_1 mrs) = shr_m mrs / 2.
Proof.
  destruct mrs as [m r s]. simpl. intros Hm.
  destruct m as [|[p|p|]|p]; cbn [shr_m]; try lia.
  - reflexivity.
  - apply Z.div_unique with 1; lia.
  - apply Z.div_unique with 0; lia.
  - reflexivity.
Qed.

Lemma shr_iter_m (k : nat) (mrs : shr_record) :
  0 <= shr_m mrs -> shr_m (Nat.iter k shr_1 mrs) = shr_m mrs / 2 ^ Z.of_nat k.
Proof.
  intros Hm. induction k as [|k IH].
  - simpl. rewrite Z.div_1_r. reflexivity.
  - rewrite Nat.iter_succ, shr_1_m, IH.
    + rewrite Nat2Z.inj_succ, Z.pow_succ_r, Z.div_div by lia. f_equal. lia.
    + rewrite IH. apply Z.div_pos; lia.
Qed.

Lemma fexp64 (e : Z) : fexp prec emax e = Z.max (e - 53) emin64.
Proof. reflexivity. Qed.

Lemma shr_fexp_pos (m : positive) (e : Z) (l : location) :
  emin64 <= e ->
  exists m', shr_m (fst (shr_fexp prec emax (Zpos m) e l)) = Zpos m'
             /\ emin64 <= snd (shr_fexp prec emax (Zpos m) e l).
Proof.
  intros He. unfold shr_fexp, shr. rewrite fexp64. simpl Zdigits2.
  pose proof (digits2_pos_bounds m) as [Hlo Hhi].
  set (d := Zpos (digits2_pos m)) in *.
  assert (Hrec : shr_m (shr_record_of_loc (Zpos m) l) = Zpos m).
  { destruct l as [|[]]; reflexivity. }
  destruct (Z.max (d + e - 53) emin64 - e) as [|p|p] eqn:E; simpl.
  - exists m. auto.
  - rewrite iter_pos_nat, shr_iter_m by (rewrite Hrec; lia).
    rewrite Hrec, positive_nat_Z.
    assert (Hp : Zpos p = d - 53) by lia.
    assert (Hq : 1 <= Zpos m / 2 ^ Zpos p).
    { apply Z.div_le_lower_bound; [lia|].
      rewrite Z.mul_1_r. etransitivity; [|exact Hlo].
      apply Z.pow_le_mono_r; lia. }
    destruct (Zpos m / 2 ^ Zpos p) as [|q|q] eqn:Eq; try lia.
    exists q. split; [reflexivity|lia].
  - exists m. auto.
Qed.

Lemma round_nearest_even_pos (m : positive) (l : location) :
  exists m', round_nearest_even (Zpos m) l = Zpos m'.
Proof.
  destruct l as [|[]]; destruct m; simpl; eauto.
Qed.

Lemma binary_round_aux_pos (m : positive) (e : Z) (l : location) :
  emin64 <= e -> SFpositive (binary_round_aux prec emax false (Zpos m) e l).
Proof.
  intros He. unfold binary_round_aux.
  destruct (shr_fexp_pos m e l He) as (m1 & Hm1 & He1).
  destruct (shr_fexp prec emax (Zpos m) e l) as [mrs' e'] eqn:E1. simpl in Hm1, He1.
  rewrite Hm1.
  destruct (round_nearest_even_pos m1 (loc_of_shr_record mrs')) as (m2 & Hm2).
  rewrite Hm2.
  destruct (shr_fexp_pos m2 e' loc_Exact He1) as (m3 & Hm3 & He3).
  destruct (shr_fexp prec emax (Zpos m2) e' loc_Exact) as [mrs'' e''] eqn:E2.
  simpl in Hm3. rewrite Hm3.
  destruct (e'' <=? emax - prec); exact I.
Qed.

Lemma binary_normalize_pos (m : positive) (e : Z) :
  emin64 <= e -> SFpositive (binary_normalize prec emax (Zpos m) e false).
Proof.
  intros He. unfold binary_normalize, binary_round.
  destruct (shl_align m e (fexp prec emax (Zpos (digits2_pos m) + e))) as [mz ez] eqn:E.
  apply binary_round_aux_pos.
  destruct (Z_le_gt_dec e (fexp prec emax (Zpos (digits2_pos m) + e))) as [Hle|Hgt].
  - rewrite shl_align_ge in E by exact Hle. congruence.
  - pose proof (shl_align_value m e (fexp prec emax (Zpos (digits2_pos m) + e)) ltac:(lia))
      as [_ Hs].
    rewrite E in Hs. simpl in Hs. subst ez. rewrite fexp64. lia.
Qed.

Lemma SFpositive_ltb (x : spec_float) :
  SFpositive x -> SFltb (S754_zero false) x = true.
Proof. destruct x as [|[]| |[] ? ?]; simpl; intros []; reflexivity. Qed.

Lemma binary_round_aux_neg_ltb (m : Z) (e : Z) (l : location) :
  SFltb (S754_zero false) (binary_round_aux prec emax true m e l) = false.
Proof.
  unfold binary_round_aux.
  destruct (shr_fexp prec emax m e l) as [mrs' e'].
  destruct (shr_fexp prec emax _ e' loc_Exact) as [mrs'' e''].
  destruct (shr_m mrs''); try reflexivity.
  destruct (e'' <=? emax - prec); reflexivity.
Qed.

Lemma binary_normalize_neg_ltb (m : positive) (e : Z) :
  SFltb (S754_zero false) (binary_normalize prec emax (Zneg m) e false) = false.
Proof.
  unfold binary_normalize, binary_round.
  destruct (shl_align m e _) as [mz ez]. apply binary_round_aux_neg_ltb.
Qed.

(** ** Comparison and subtraction of valid floats *)

Lemma bounded_canonical (m : positive) (e : Z) :
  bounded prec emax m e = true ->
  Z.max (Zpos (digits2_pos m) + e - 53) emin64 = e.
Proof.
  unfold bounded, canonical_mantissa. rewrite andb_true_iff, fexp64.
  intros [H _]. apply Z.eqb_eq in H. exact H.
Qed.

Lemma aligned_value (s : bool) (m : positive) (e ez : Z) :
  ez <= e -> aligned s m e ez = cond_Zopp s (Zpos m * 2 ^ (e - ez)).
Proof.
  intros H. unfold aligned. destruct (shl_align_value m e ez H) as [-> _]. reflexivity.
Qed.

Lemma mantissa_lt_shifted (mx my : positive) (ex ey : Z) :
  bounded prec emax mx ex = true -> bounded prec emax my ey = true ->
  ex < ey -> Zpos mx < Zpos my * 2 ^ (ey - ex).
Proof.
  intros Hx Hy Hlt.
  apply bounded_canonical in Hx, Hy.
  pose proof (digits2_pos_bounds mx) as [_ Hxhi].
  pose proof (digits2_pos_bounds my) as [Hylo _].
  assert (Hdy : Zpos (digits2_pos my) = 53) by (unfold emin64 in *; lia).
  assert (Hdx : Zpos (digits2_pos mx) <= 53) by (unfold emin64 in *; lia).
  rewrite Hdy in Hylo.
  assert (Zpos mx < 2 ^ 53).
  { eapply Z.lt_le_trans; [exact Hxhi|]. apply Z.pow_le_mono_r; lia. }
  assert (2 ^ 1 <= 2 ^ (ey - ex)) by (apply Z.pow_le_mono_r; lia).
  change (2 ^ 1) with 2 in *. change (2 ^ (53 - 1)) with 4503599627370496 in Hylo.
  change (2 ^ 53) with 9007199254740992 in *.
  nia.
Qed.

Lemma SFcompare_aligned (sx sy : bool) (mx my : positive) (ex ey : Z) :
  bounded prec emax mx ex = true -> bounded prec emax my ey = true ->
  SFcompare (S754_finite sx mx ex) (S754_finite sy my ey)
  = Some (aligned sx mx ex (Z.min ex ey) ?= aligned sy my ey (Z.min ex ey)).
Proof.
  intros Hx Hy.
  rewrite !aligned_value by lia.
  unfold SFcompare. f_equal.
  destruct (Z.compare_spec ex ey) as [Heq|Hlt|Hgt].
  - subst ey. rewrite Z.min_id, Z.sub_diag, !Z.mul_1_r.
    destruct sx, sy; reflexivity.
  - pose proof (mantissa_lt_shifted mx my ex ey Hx Hy Hlt) as Hm.
    rewrite Z.min_l, Z.sub_diag, Z.mul_1_r by lia.
    destruct sx, sy; simpl cond_Zopp; symmetry.
    + apply Z.compare_gt_iff. lia.
    + apply Z.compare_lt_iff. lia.
    + apply Z.compare_gt_iff. lia.
    + apply Z.compare_lt_iff. lia.
  - pose proof (mantissa_lt_shifted my mx ey ex Hy Hx ltac:(lia)) as Hm.
    rewrite Z.min_r, Z.sub_diag, Z.mul_1_r by lia.
    destruct sx, sy; simpl cond_Zopp; symmetry.
    + apply Z.compare_lt_iff. lia.
    + apply Z.compare_lt_iff. lia.
    + apply Z.compare_gt_iff. lia.
    + apply Z.compare_gt_iff. lia.
Qed.

Lemma bounded_emin (m : positive) (e : Z) :
  bounded prec emax m e = true -> emin64 <= e.
Proof. intros H. apply bounded_canonical in H. lia. Qed.

(** The sign of a difference is the order of its operands. *)
Lemma SFsub_positive_iff (x y : spec_float) :
  valid_binary x = true -> valid_binary y = true ->
  SFltb (S754_zero false) (SF64sub x y) = SFltb y x.
Proof.
  intros Hx Hy.
  destruct x as [sx|sx| |sx mx ex], y as [sy|sy| |sy my ey];
    try (repeat match goal with b : bool |- _ => destruct b end; reflexivity).
  simpl in Hx, Hy.
  unfold SFltb at 2. rewrite (SFcompare_aligned sy sx my mx ey ex Hy Hx).
  unfold SF64sub, SFsub. fold (aligned sx mx ex (Z.min ex ey)).
  fold (aligned sy my ey (Z.min ex ey)). rewrite (Z.min_comm ey ex).
  set (X := aligned sx mx ex (Z.min ex ey)). set (Y := aligned sy my ey (Z.min ex ey)).
  pose proof (bounded_emin _ _ Hx). pose proof (bounded_emin _ _ Hy).
  destruct (X - Y) as [|p|p] eqn:E.
  - assert ((Y ?= X) = Eq) as -> by (apply Z.compare_eq_iff; lia). reflexivity.
  - assert ((Y ?= X) = Lt) as -> by (apply Z.compare_lt_iff; lia).
    apply SFpositive_ltb, binary_normalize_pos. lia.
  - assert ((Y ?= X) = Gt) as -> by (apply Z.compare_gt_iff; lia).
    apply binary_normalize_neg_ltb.
Qed.

Local Close Scope Z_scope.

(** [a - z > 0] exactly when [a > z], for all numbers, [NaN] and the
    infinities included. *)
Lemma sub_positive_iff (a z : float) : (0 <? a - z)%float = (z <? a)%float.
Proof.
  rewrite !ltb_spec, sub_spec. change (Prim2SF 0) with (S754_zero false).
  apply SFsub_positive_iff; apply Prim2SF_valid.
Qed.

(** ** Numbers up to the sign of zero *)

Lemma sameNumber_SFsame (a b : float) :
  sameNumber a b <-> SFsame (Prim2SF a) (Prim2SF b).
Proof.
  unfold sameNumber, SFsame. rewrite !is_zero_spec. split.
  - intros [->|[[s Hs] [s' Hs']]]; [left; reflexivity|right; eauto].
  - intros [H|(s & s' & Hs & Hs')]; [left; apply Prim2SF_inj, H|right; eauto].
Qed.

Lemma SFadd_same (u u' v v' : spec_float) :
  SFsame u u' -> SFsame v v' -> SFsame (SF64add u v) (SF64add u' v').
Proof.
  intros Hu Hv.
  destruct Hu as [->|(s & s' & -> & ->)], Hv as [->|(t & t' & -> & ->)].
  - left; reflexivity.
  - destruct u' as [[]|[]| |[] ? ?], t, t'; simpl; unfold SFsame; eauto.
  - destruct v' as [[]|[]| |[] ? ?], s, s'; simpl; unfold SFsame; eauto.
  - destruct s, s', t, t'; simpl; unfold SFsame; eauto.
Qed.

Lemma SFsub_same (u u' v v' : spec_float) :
  SFsame u u' -> SFsame v v' -> SFsame (SF64sub u v) (SF64sub u' v').
Proof.
  intros Hu Hv.
  destruct Hu as [->|(s & s' & -> & ->)], Hv as [->|(t & t' & -> & ->)].
  - left; reflexivity.
  - destruct u' as [[]|[]| |[] ? ?], t, t'; simpl; unfold SFsame; eauto.
  - destruct v' as [[]|[]| |[] ? ?], s, s'; simpl; unfold SFsame; eauto.
  - destruct s, s', t, t'; simpl; unfold SFsame; eauto.
Qed.

Lemma SFmul_same (u u' v v' : spec_float) :
  SFsame u u' -> SFsame v v' -> SFsame (SF64mul u v) (SF64mul u' v').
Proof.
  intros Hu Hv.
  destruct Hu as [->|(s & s' & -> & ->)], Hv as [->|(t & t' & -> & ->)].
  - left; reflexivity.
  - destruct u' as [[]|[]| |[] ? ?], t, t'; simpl; unfold SFsame; eauto.
  - destruct v' as [[]|[]| |[] ? ?], s, s'; simpl; unfold SFsame; eauto.
  - destruct s, s', t, t'; simpl; unfold SFsame; eauto.
Qed.

Lemma SFdiv_same (u u' v : spec_float) :
  SFsame u u' -> SFsame (SF64div u v) (SF64div u' v).
Proof.
  intros [->|(s & s' & -> & ->)].
  - left; reflexivity.
  - destruct v as [[]|[]| |[] ? ?], s, s'; simpl; unfold SFsame; eauto.
Qed.

Lemma add_same (x x' y y' : float) :
  sameNumber x x' -> sameNumber y y' -> sameNumber (x + y) (x' + y').
Proof. rewrite !sameNumber_SFsame, !add_spec. apply SFadd_same. Qed.

Lemma sub_same (x x' y y' : float) :
  sameNumber x x' -> sameNumber y y' -> sameNumber (x - y) (x' - y').
Proof. rewrite !sameNumber_SFsame, !sub_spec. apply SFsub_same. Qed.

Lemma mul_same (x x' y y' : float) :
  sameNumber x x' -> sameNumber y y' -> sameNumber (x * y) (x' * y').
Proof. rewrite !sameNumber_SFsame, !mul_spec. apply SFmul_same. Qed.

Lemma div_same (x x' y : float) :
  sameNumber x x' -> sameNumber (x / y) (x' / y).
Proof. rewrite !sameNumber_SFsame, !div_spec. apply SFdiv_same. Qed.

Lemma sameNumber_refl (x : float) : sameNumber x x.
Proof. left; reflexivity. Qed.

Lemma sameNumber_is_zero (x y : float) :
  sameNumber x y -> is_zero x = is_zero y.
Proof. intros [->|[-> ->]]; reflexivity. Qed.

(** * The expression evaluator *)

Section EvaluatorSpec.
Context `{!Host}.

Lemma SameValueZero_string (s : string) (x : value) :
  SameValueZero (VString s) x = true <-> VString s = x.
Proof.
  destruct x; cbn [SameValueZero StrictEquals]; try (split; discriminate).
  rewrite String.eqb_eq. split; congruence.
Qed.

Lemma includes_allowed (operator : value) :
  includes allowedOperators operator = true <-> In operator allowedOperators.
Proof.
  unfold includes. rewrite existsb_exists. split.
  - intros (y & Hy & Hs).
    assert (exists s, y = VString s) as [s ->].
    { destruct Hy as [E|[E|[E|[E|[]]]]]; subst; eauto. }
    apply SameValueZero_string in Hs. subst. exact Hy.
  - intros Hi. exists operator. split; [exact Hi|].
    destruct Hi as [E|[E|[E|[E|[]]]]]; subst; reflexivity.
Qed.

Lemma orZero_same (n : float) :
  sameNumber (orZero n) (if is_nan n then 0%float else n).
Proof.
  unfold orZero. simpl.
  destruct (is_zero n) eqn:Ez, (is_nan n) eqn:En; simpl; try apply sameNumber_refl.
  right. split; [reflexivity|exact Ez].
Qed.

Lemma orZero_coerce (v : value) : sameNumber (orZero (ToNumber v)) (coerceOperand v).
Proof. apply orZero_same. Qed.

Lemma safeEvaluate_allowed (operand1 operand2 : value) (op : string) :
  In (VString op) allowedOperators ->
  exists r, safeEvaluate operand1 (VString op) operand2 = Ok r
            /\ sameNumber r (evaluateSpec operand1 op operand2)
            /\ (op = "/" -> is_zero (coerceOperand operand2) = true -> r = 0%float).
Proof.
  intros Hin.
  pose proof (orZero_coerce operand1) as H1.
  pose proof (orZero_coerce operand2) as H2.
  unfold safeEvaluate. rewrite (proj2 (includes_allowed _) Hin). simpl negb. cbv iota.
  unfold evaluateSpec, standardArithmetic.
  destruct Hin as [E|[E|[E|[E|[]]]]]; inversion E; subst op; simpl.
  - eexists; split; [reflexivity|]. split; [|discriminate].
    apply add_same; assumption.
  - eexists; split; [reflexivity|]. split; [|discriminate].
    apply sub_same; assumption.
  - eexists; split; [reflexivity|]. split; [|discriminate].
    apply mul_same; assumption.
  - eexists; split; [reflexivity|].
    change (orZero (ToNumber operand2) =? 0)%float
      with (is_zero (orZero (ToNumber operand2))).
    rewrite (sameNumber_is_zero _ _ H2).
    destruct (is_zero (coerceOperand operand2)) eqn:Ez; simpl.
    + split; [apply sameNumber_refl|reflexivity].
    + split; [|discriminate].
      destruct H2 as [H2|[_ H2]]; [|congruence].
      rewrite H2. apply div_same, H1.
Qed.

Lemma safeEvaluate_outside (operand1 operator operand2 : value) :
  ~ In operator allowedOperators ->
  safeEvaluate operand1 operator operand2 = Throw (InvalidOperator operator).
Proof.
  intros Hn. unfold safeEvaluate.
  destruct (includes allowedOperators operator) eqn:E; [|reflexivity].
  apply includes_allowed in E. contradiction.
Qed.

Lemma safeEvaluate_inside (operand1 operator operand2 : value) :
  In operator allowedOperators ->
  exists r, safeEvaluate operand1 operator operand2 = Ok r.
Proof.
  intros Hi.
  assert (exists op, operator = VString op) as [op ->].
  { destruct Hi as [E|[E|[E|[E|[]]]]]; subst; eauto. }
  destruct (safeEvaluate_allowed operand1 operand2 op Hi) as (r & Hr & _). eauto.
Qed.

(** C1. [safeEvaluate] throws the invalid-operator error exactly when the
    operator is not one of [+], [-], [*], [/]; for one of these it
    returns, never throws, and its result is the operator applied to the
    operands with every non-numeric operand taken as 0, except that a
    division by a zero second operand is 0. Results are compared as
    numbers, [+0] and [-0] being the same number. *)
Theorem safeEvaluate_whitelist (operand1 operator operand2 : value) :
  (safeEvaluate operand1 operator operand2 = Throw (InvalidOperator operator)
   <-> ~ In operator allowedOperators)
  /\ ((exists e, safeEvaluate operand1 operator operand2 = Throw e)
      <-> ~ In operator allowedOperators)
  /\ (forall op, operator = VString op -> In operator allowedOperators ->
      exists r, safeEvaluate operand1 operator operand2 = Ok r
                /\ sameNumber r (evaluateSpec operand1 op operand2)
                /\ (op = "/" -> is_zero (coerceOperand operand2) = true -> r = 0%float)).
Proof.
  pose proof (safeEvaluate_outside operand1 operator operand2) as Hout.
  pose proof (safeEvaluate_inside operand1 operator operand2) as Hin.
  split; [|split].
  - split; [|exact Hout]. intros Ht Hi. destruct (Hin Hi) as [r Hr]. congruence.
  - split; [|eauto]. intros [e Ht] Hi. destruct (Hin Hi) as [r Hr]. congruence.
  - intros op -> Hi. apply safeEvaluate_allowed, Hi.
Qed.

End EvaluatorSpec.

(** * [fetchProp] and the sort key *)

Section FetchPropSpec.
Context `{!Host}.

Lemma typeof_string (v : value) : typeof v = "string" <-> exists s, v = VString s.
Proof.
  destruct v; simpl; split; try discriminate; eauto; intros [? ?]; discriminate.
Qed.

Lemma fetchProp_not_string (data : PostRecord) (prop : value) :
  typeof prop <> "string" -> fetchProp data prop = 0%float.
Proof.
  intros Hn. unfold fetchProp.
  destruct (String.eqb (typeof prop) "string") eqn:E.
  - apply String.eqb_eq in E. contradiction.
  - reflexivity.
Qed.

(** C6 (amended). [fetchProp] returns 0 when the property name is not a
    string, when the record has no truthy value at that key, and when
    the value coerces to [NaN] or to a zero; in every other case, an
    infinite value included, it returns the value coerced to a number. *)
Theorem fetchProp_cases (data : PostRecord) (prop : value) :
  (typeof prop <> "string" -> fetchProp data prop = 0%float)
  /\ (forall key, prop = VString key ->
      (ToBoolean (getProp data key) = false -> fetchProp data prop = 0%float)
      /\ (is_nan (ToNumber (getProp data key)) = true -> fetchProp data prop = 0%float)
      /\ (is_zero (ToNumber (getProp data key)) = true -> fetchProp data prop = 0%float)
      /\ (ToBoolean (getProp data key) = true ->
          is_nan (ToNumber (getProp data key)) = false ->
          is_zero (ToNumber (getProp data key)) = false ->
          fetchProp data prop = ToNumber (getProp data key))).
Proof.
  split.
  - apply fetchProp_not_string.
  - intros key ->. unfold fetchProp. simpl typeof. simpl ToString.
    rewrite String.eqb_refl. simpl andb.
    destruct (ToBoolean (getProp data key)) eqn:Et.
    + cbn [ToBoolean].
      destruct (is_zero (ToNumber (getProp data key))) eqn:Ez,
               (is_nan (ToNumber (getProp data key))) eqn:En; simpl;
        repeat split; intros; congruence.
    + repeat split; intros; try reflexivity; discriminate.
Qed.

(** [fetchProp] never returns [NaN]. *)
Lemma fetchProp_not_nan (data : PostRecord) (prop : value) :
  is_nan (fetchProp data prop) = false.
Proof.
  unfold fetchProp.
  match goal with |- context [ToNumber ?r] => generalize (ToNumber r) end.
  intros n. cbn [ToBoolean].
  destruct (is_zero n) eqn:Ez, (is_nan n) eqn:En; simpl; try reflexivity; exact En.
Qed.

(** C7 (amended). When [config.sort] is truthy and is neither a string
    nor an array of three elements, the key of every record is 0; when
    [config.sort] is absent or otherwise falsy the sort falls back to
    the property [points], and the key is [fetchProp] of it. *)
Theorem sortKey_degenerate (config : SortConfig) (a : PostRecord) :
  (ToBoolean (config_sort config) = true ->
   typeof (config_sort config) <> "string" ->
   (forall fo op so, config_sort config <> VArray [fo; op; so]) ->
   sortKey (effectiveSort config) a = Ok 0%float)
  /\ (ToBoolean (config_sort config) = false ->
      sortKey (effectiveSort config) a = Ok (fetchProp a (VString "points"))).
Proof.
  unfold effectiveSort. split.
  - intros Ht Hs H3. rewrite Ht.
    assert (Hk : sortKey (config_sort config) a = Ok (fetchProp a (config_sort config))).
    { destruct (config_sort config) as [| | | | |l|]; try reflexivity.
      destruct l as [|fo [|op [|so [|]]]]; try reflexivity.
      destruct (H3 fo op so). reflexivity. }
    rewrite Hk. f_equal. apply fetchProp_not_string, Hs.
  - intros Hf. rewrite Hf. reflexivity.
Qed.

End FetchPropSpec.

(** * Sorting with a comparator *)

Section InsertionSort.
Context {A : Type}.

Lemma insertBy_perm (after : A -> A -> bool) (x : A) (l : list A) :
  Permutation (insertBy after x l) (x :: l).
Proof.
  induction l as [|y l IH]; simpl; [reflexivity|].
  destruct (after x y); [|reflexivity].
  rewrite IH. apply perm_swap.
Qed.

Lemma sortBy_perm (after : A -> A -> bool) (l : list A) :
  Permutation (sortBy after l) l.
Proof.
  induction l as [|x l IH]; simpl; [reflexivity|].
  rewrite insertBy_perm, IH. reflexivity.
Qed.

Lemma sortBy_length (after : A -> A -> bool) (l : list A) :
  length (sortBy after l) = length l.
Proof. apply Permutation_length, sortBy_perm. Qed.

Lemma insertBy_ordered (after : A -> A -> bool) (x : A) (l : list A) :
  (forall a b, after a b = true -> after b a = false) ->
  ordered after l -> ordered after (insertBy after x l).
Proof.
  intros Hasym Hl. induction Hl as [|y|y z l Hyz Hl IH]; simpl.
  - constructor.
  - destruct (after x y) eqn:E.
    + constructor; [apply Hasym, E|constructor].
    + constructor; [exact E|constructor].
  - destruct (after x y) eqn:E.
    + simpl in IH. destruct (after x z) eqn:E2.
      * constructor; assumption.
      * constructor; [apply Hasym, E|exact IH].
    + constructor; [exact E|]. constructor; assumption.
Qed.

Lemma sortBy_ordered (after : A -> A -> bool) (l : list A) :
  (forall a b, after a b = true -> after b a = false) ->
  ordered after (sortBy after l).
Proof.
  intros Hasym. induction l as [|x l IH]; simpl; [constructor|].
  apply insertBy_ordered; assumption.
Qed.

Lemma ordered_take (after : A -> A -> bool) (n : nat) (l : list A) :
  ordered after l -> ordered after (take n l).
Proof.
  intros Hl. revert n. induction Hl as [|x|x y l Hxy Hl IH]; intros n.
  - destruct n; constructor.
  - destruct n as [|[|n]]; constructor.
  - destruct n as [|[|n]]; try constructor; [exact Hxy|].
    apply (IH (S n)).
Qed.

Lemma ordered_lookup (after : A -> A -> bool) (l : list A) (i : nat) (x y : A) :
  ordered after l -> l !! i = Some x -> l !! S i = Some y -> after x y = false.
Proof.
  intros Hl. revert i. induction Hl as [|z|z w l Hzw Hl IH]; intros i Hx Hy.
  - discriminate.
  - destruct i; discriminate.
  - destruct i as [|i]; simpl in *.
    + congruence.
    + eapply IH; eassumption.
Qed.

(** [arraySort] with a comparator that returns on the elements at hand *)
Lemma insertSorted_total (comparefn : A -> A -> result float) (after : A -> A -> bool)
    (x : A) (l : list A) :
  (forall y, In y l -> exists v, comparefn x y = Ok v /\ (0 <? v)%float = after x y) ->
  insertSorted comparefn x l = Ok (insertBy after x l).
Proof.
  induction l as [|y l IH]; intros Hc; simpl; [reflexivity|].
  destruct (Hc y (or_introl eq_refl)) as (v & -> & Hv). simpl. rewrite Hv.
  destruct (after x y); [|reflexivity].
  rewrite IH; [reflexivity|]. intros z Hz. apply Hc. right. exact Hz.
Qed.

Lemma arraySort_total (comparefn : A -> A -> result float) (after : A -> A -> bool)
    (l : list A) :
  (forall x y, In x l -> In y l ->
               exists v, comparefn x y = Ok v /\ (0 <? v)%float = after x y) ->
  arraySort comparefn l = Ok (sortBy after l).
Proof.
  induction l as [|x l IH]; intros Hc; simpl; [reflexivity|].
  rewrite IH by (intros; apply Hc; right; assumption). simpl.
  apply insertSorted_total. intros y Hy. apply Hc; [left; reflexivity|].
  right. apply (Permutation_in _ (sortBy_perm after l)), Hy.
Qed.

(** [arraySort] with a comparator that always throws: the sort throws
    as soon as there are two elements to compare. *)
Lemma arraySort_throws (comparefn : A -> A -> result float) (e : exn) (l : list A) :
  (forall x y, comparefn x y = Throw e) ->
  arraySort comparefn l = match l with
                          | [] | [_] => Ok l
                          | _ => Throw e
                          end.
Proof.
  intros Hc. induction l as [|x [|y l] IH]; try reflexivity.
  change (arraySort comparefn (x :: y :: l))
    with (let! s := arraySort comparefn (y :: l) in insertSorted comparefn x s).
  rewrite IH. destruct l as [|z l]; simpl; [|reflexivity].
  rewrite Hc. reflexivity.
Qed.

(** Whatever the comparator, a sort that returns has permuted its input. *)
Lemma insertSorted_perm (comparefn : A -> A -> result float) (x : A) (l r : list A) :
  insertSorted comparefn x l = Ok r -> Permutation r (x :: l).
Proof.
  revert r. induction l as [|y l IH]; intros r; simpl.
  - intros [= <-]. reflexivity.
  - destruct (comparefn x y) as [v|]; simpl; [|discriminate].
    destruct (0 <? v)%float.
    + destruct (insertSorted comparefn x l) as [r'|]; simpl; [|discriminate].
      intros [= <-]. rewrite (IH r' eq_refl). apply perm_swap.
    + intros [= <-]. reflexivity.
Qed.

Lemma arraySort_perm (comparefn : A -> A -> result float) (l r : list A) :
  arraySort comparefn l = Ok r -> Permutation r l.
Proof.
  revert r. induction l as [|x l IH]; intros r; simpl.
  - intros [= <-]. reflexivity.
  - destruct (arraySort comparefn l) as [s|]; simpl; [|discriminate].
    intros Hi. rewrite (insertSorted_perm _ _ _ _ Hi), (IH s eq_refl). reflexivity.
Qed.

End InsertionSort.

(** * The order of numbers *)

Lemma SFcompare_antisym (x y : spec_float) :
  valid_binary x = true -> valid_binary y = true ->
  SFcompare y x = option_map CompOpp (SFcompare x y).
Proof.
  intros Hx Hy.
  destruct x as [sx|sx| |sx mx ex], y as [sy|sy| |sy my ey];
    try (repeat match goal with b : bool |- _ => destruct b end; reflexivity).
  simpl in Hx, Hy.
  rewrite (SFcompare_aligned sy sx my mx ey ex Hy Hx),
          (SFcompare_aligned sx sy mx my ex ey Hx Hy).
  simpl. rewrite (Z.min_comm ey ex), <- Z.compare_antisym. reflexivity.
Qed.

Lemma ltb_asym (a b : float) : (a <? b)%float = true -> (b <? a)%float = false.
Proof.
  rewrite !ltb_spec. unfold SFltb.
  rewrite (SFcompare_antisym (Prim2SF a) (Prim2SF b)) by apply Prim2SF_valid.
  destruct (SFcompare (Prim2SF a) (Prim2SF b)) as [[]|]; simpl; congruence.
Qed.

Lemma SFcompare_None (x y : spec_float) :
  SFcompare x y = None -> x = S754_nan \/ y = S754_nan.
Proof.
  destruct x as [sx|sx| |sx mx ex], y as [sy|sy| |sy my ey]; simpl; try discriminate; auto.
Qed.

(** For numbers that are not [NaN], "not greater" is "less or equal". *)
Lemma not_ltb_leb (a b : float) :
  is_nan a = false -> is_nan b = false ->
  (b <? a)%float = false -> (a <=? b)%float = true.
Proof.
  rewrite !is_nan_false, ltb_spec, leb_spec. unfold SFltb, SFleb.
  intros Ha Hb.
  rewrite (SFcompare_antisym (Prim2SF a) (Prim2SF b)) by apply Prim2SF_valid.
  destruct (SFcompare (Prim2SF a) (Prim2SF b)) as [[]|] eqn:E; simpl; try congruence.
  apply SFcompare_None in E. tauto.
Qed.

(** A comparison with [NaN] is false. *)
Lemma leb_nan_l (a b : float) : is_nan a = true -> (a <=? b)%float = false.
Proof.
  rewrite is_nan_spec, leb_spec. intros ->. reflexivity.
Qed.

Lemma leb_nan_r (a b : float) : is_nan b = true -> (a <=? b)%float = false.
Proof.
  rewrite is_nan_spec, leb_spec. intros ->. unfold SFleb.
  destruct (Prim2SF a); reflexivity.
Qed.

(** * The shaper on one collection *)

Section ShaperSpec.
Context `{!Host}.

Lemma sortKey_valid (sort : value) (a : PostRecord) :
  sortIsValid sort = true -> sortKey sort a = Ok (keyOf sort a).
Proof.
  intros Hv. unfold keyOf.
  destruct (sortKey sort a) as [k|e] eqn:E; [reflexivity|exfalso].
  destruct sort as [| | | | |l|]; try discriminate.
  destruct l as [|fo [|op [|so [|]]]]; try discriminate.
  cbn [sortIsValid sortKey] in Hv, E. apply includes_allowed in Hv.
  destruct (safeEvaluate_inside (VNumber (fetchProp a fo)) op (VNumber (fetchProp a so)) Hv)
    as [r Hr].
  congruence.
Qed.

Lemma sortKey_invalid (sort : value) (a : PostRecord) :
  sortIsValid sort = false ->
  exists fo op so, sort = VArray [fo; op; so] /\ sortKey sort a = Throw (InvalidOperator op).
Proof.
  intros Hv.
  destruct sort as [| | | | |l|]; try discriminate.
  destruct l as [|fo [|op [|so [|]]]]; try discriminate.
  exists fo, op, so. split; [reflexivity|]. cbn [sortIsValid sortKey] in *.
  apply safeEvaluate_outside. intros Hi. apply includes_allowed in Hi. congruence.
Qed.

Lemma comparator_valid (sort ascending : value) (a z : PostRecord) :
  sortIsValid sort = true ->
  exists v, comparator sort ascending a z = Ok v
            /\ (0 <? v)%float = comesAfter sort ascending a z.
Proof.
  intros Hv. unfold comparator, comesAfter. rewrite !sortKey_valid by exact Hv. simpl.
  eexists; split; [reflexivity|].
  destruct (ToBoolean ascending); apply sub_positive_iff.
Qed.

Lemma comparator_invalid (sort ascending : value) :
  sortIsValid sort = false ->
  exists fo op so, sort = VArray [fo; op; so]
    /\ forall a z, comparator sort ascending a z = Throw (InvalidOperator op).
Proof.
  intros Hv.
  destruct sort as [| | | | |l|]; try discriminate.
  destruct l as [|fo [|op [|so [|]]]]; try discriminate.
  exists fo, op, so. split; [reflexivity|]. intros a z. unfold comparator.
  destruct (sortKey_invalid _ a Hv) as (fo' & op' & so' & [= <- <- <-] & ->). reflexivity.
Qed.

Lemma comesAfter_asym (sort ascending : value) (a b : PostRecord) :
  comesAfter sort ascending a b = true -> comesAfter sort ascending b a = false.
Proof. unfold comesAfter. destruct (ToBoolean ascending); apply ltb_asym. Qed.

Lemma arraySort_valid (sort ascending : value) (l : list PostRecord) :
  sortIsValid sort = true ->
  arraySort (comparator sort ascending) l = Ok (sortBy (comesAfter sort ascending) l).
Proof.
  intros Hv. apply arraySort_total. intros x y _ _. apply comparator_valid, Hv.
Qed.

End ShaperSpec.

Section ShaperRun.
Context `{!Host}.

Lemma sortAndSlicePost_run (h : Heap) (posts arr : loc) (config : SortConfig)
    (elems : list PostRecord) :
  h !! posts = Some (OCollection arr config) ->
  h !! arr = Some (OPosts elems) ->
  sortAndSlicePost posts h =
    match filteredPosts config elems with
    | Throw e => (Throw e, h)
    | Ok filtered =>
        match arraySort (comparator (effectiveSort config) (config_ascending config)) filtered with
        | Throw e => (Throw e, heapAfterFilter h posts config filtered)
        | Ok sorted => (Ok posts, heapAfterSort h posts arr config filtered sorted)
        end
    end.
Proof.
  intros Hp Ha.
  assert (Hlt : posts < length h) by (eapply lookup_lt_Some; eassumption).
  unfold filteredPosts, heapAfterSort, heapAfterFilter, arrayAfterFilter.
  cbv beta iota zeta delta [sortAndSlicePost bind loadCollection loadPosts load alloc store
                            ret liftR throw fst snd].
  rewrite Hp. cbv beta iota.
  destruct (hasFilter config) eqn:Ef.
  - destruct (RegExpCreate (ToString (config_value config))) as [test|] eqn:Er;
      [|reflexivity].
    rewrite Ha. cbv beta iota.
    set (filtered := List.filter _ elems).
    assert (H1 : <[posts := OCollection (length h) config]> (h ++ [OPosts filtered]) !! posts
                 = Some (OCollection (length h) config)).
    { apply list_lookup_insert_eq. rewrite length_app. simpl. lia. }
    rewrite H1. cbv beta iota.
    assert (H2 : <[posts := OCollection (length h) config]> (h ++ [OPosts filtered]) !! length h
                 = Some (OPosts filtered)).
    { rewrite list_lookup_insert_ne by lia.
      rewrite lookup_app_r by lia. rewrite Nat.sub_diag. reflexivity. }
    rewrite H2. cbv beta iota.
    destruct (arraySort _ filtered) as [sorted|e]; [|reflexivity].
    rewrite !length_insert. reflexivity.
  - rewrite Hp. cbv beta iota. rewrite Ha. cbv beta iota.
    destruct (arraySort _ elems) as [sorted|e]; [|reflexivity].
    rewrite !length_insert. reflexivity.
Qed.

Lemma heapAfterFilter_length (h : Heap) (posts : loc) (config : SortConfig)
    (filtered : list PostRecord) :
  length (heapAfterFilter h posts config filtered)
  = if hasFilter config then S (length h) else length h.
Proof.
  unfold heapAfterFilter. destruct (hasFilter config); [|reflexivity].
  rewrite length_insert, length_app. simpl. lia.
Qed.

(** What the store holds after a run of [sortAndSlicePost] that returns:
    the collection refers to a new array with the shaped posts; the
    array it referred to is sorted in place when nothing was filtered
    out of it, and untouched otherwise; no other object changes. *)
Lemma heapAfterSort_facts (h : Heap) (posts arr : loc) (config : SortConfig)
    (elems filtered sorted : list PostRecord) :
  h !! posts = Some (OCollection arr config) ->
  h !! arr = Some (OPosts elems) ->
  let h' := heapAfterSort h posts arr config filtered sorted in
  exists s,
    length h <= s /\ s < length h' /\ length h < length h'
    /\ h' !! posts = Some (OCollection s config)
    /\ h' !! s = Some (OPosts (arraySlice0 sorted (effectiveCount config)))
    /\ h' !! arr = Some (OPosts (if hasFilter config then elems else sorted))
    /\ (forall l, l < length h -> l <> posts -> l <> arr -> h' !! l = h !! l).
Proof.
  intros Hp Ha h'.
  assert (Hlp : posts < length h) by (eapply lookup_lt_Some; eassumption).
  assert (Hla : arr < length h) by (eapply lookup_lt_Some; eassumption).
  assert (Hne : posts <> arr) by (intros ->; congruence).
  subst h'. unfold heapAfterSort.
  pose proof (heapAfterFilter_length h posts config filtered) as Hl1.
  set (h1 := heapAfterFilter h posts config filtered) in *.
  exists (length h1).
  assert (Hlen : length h <= length h1) by (rewrite Hl1; destruct (hasFilter config); lia).
  rewrite !length_insert, length_app, length_insert. simpl.
  repeat split; try lia.
  - apply list_lookup_insert_eq. rewrite length_app, length_insert. lia.
  - rewrite list_lookup_insert_ne by lia.
    rewrite lookup_app_r by (rewrite length_insert; lia).
    rewrite length_insert, Nat.sub_diag. reflexivity.
  - rewrite list_lookup_insert_ne by lia.
    rewrite lookup_app_l by (rewrite length_insert; lia).
    unfold arrayAfterFilter. subst h1. unfold heapAfterFilter.
    destruct (hasFilter config).
    + rewrite list_lookup_insert_ne by lia.
      rewrite list_lookup_insert_ne by lia.
      rewrite lookup_app_l by lia. exact Ha.
    + apply list_lookup_insert_eq. lia.
  - intros l Hl Hnp Hna.
    rewrite list_lookup_insert_ne by lia.
    rewrite lookup_app_l by (rewrite length_insert; lia).
    unfold arrayAfterFilter. subst h1. unfold heapAfterFilter.
    destruct (hasFilter config).
    + rewrite list_lookup_insert_ne by lia.
      rewrite list_lookup_insert_ne by lia.
      apply lookup_app_l. lia.
    + apply list_lookup_insert_ne. lia.
Qed.

(** A run of [sortAndSlicePost] that returns went through every step. *)
Lemma sortAndSlicePost_returns (h h' : Heap) (posts r : loc) :
  sortAndSlicePost posts h = (Ok r, h') ->
  exists arr config elems filtered sorted,
    h !! posts = Some (OCollection arr config)
    /\ h !! arr = Some (OPosts elems)
    /\ filteredPosts config elems = Ok filtered
    /\ arraySort (comparator (effectiveSort config) (config_ascending config)) filtered
       = Ok sorted
    /\ r = posts
    /\ h' = heapAfterSort h posts arr config filtered sorted.
Proof.
  intros Hrun.
  destruct (h !! posts) as [[| arr config | | |]|] eqn:Hp;
    try (cbv beta iota zeta delta [sortAndSlicePost bind loadCollection load notA throw] in Hrun;
         rewrite Hp in Hrun; discriminate).
  destruct (h !! arr) as [[elems| | | |]|] eqn:Ha.
  2-6: exfalso; revert Hrun;
    cbv beta iota zeta delta [sortAndSlicePost bind loadCollection loadPosts load alloc store
                              ret liftR throw notA fst snd];
    rewrite Hp; cbv beta iota;
    (destruct (hasFilter config);
     [ destruct (RegExpCreate _); [|discriminate]; rewrite Ha; discriminate
     | rewrite Hp; cbv beta iota; rewrite Ha; discriminate ]).
  rewrite (sortAndSlicePost_run h posts arr config elems Hp Ha) in Hrun.
  destruct (filteredPosts config elems) as [filtered|] eqn:Ef; [|discriminate].
  destruct (arraySort _ filtered) as [sorted|] eqn:Es; [|discriminate].
  injection Hrun as <- <-. exists arr, config, elems, filtered, sorted. auto 10.
Qed.

End ShaperRun.

(** * Length and order of the shaped posts *)

Lemma integerValue_ToInteger (f : float) (z : Z) :
  integerValue f = Some z -> ToIntegerOrInfinity f = Finite z.
Proof.
  unfold integerValue, ToIntegerOrInfinity.
  destruct (Prim2SF f) as [s|s| |s m e]; try discriminate.
  - intros [= <-]. reflexivity.
  - destruct (Z.leb_spec 0 e) as [He|He].
    + intros [= <-]. rewrite Z.shiftl_mul_pow2 by lia. reflexivity.
    + destruct (Zpos m mod 2 ^ (- e) =? 0)%Z; [|discriminate].
      intros [= <-]. rewrite <- (Z.opp_involutive e) at 1.
      rewrite Z.shiftl_opp_r, Z.shiftr_div_pow2 by lia. reflexivity.
Qed.

Lemma integerValue_positive_truthy (f : float) (n : nat) :
  integerValue f = Some (Z.of_nat n) -> 0 < n -> ToBoolean (VNumber f) = true.
Proof.
  intros Hi Hn. cbn [ToBoolean].
  destruct (is_zero f) eqn:Ez.
  - apply is_zero_spec in Ez as [s Hs]. unfold integerValue in Hi. rewrite Hs in Hi.
    injection Hi as Hi. lia.
  - destruct (is_nan f) eqn:En; [|reflexivity].
    apply is_nan_spec in En. unfold integerValue in Hi. rewrite En in Hi. discriminate.
Qed.

Section ShapedLength.
Context `{!Host}.

Lemma arraySlice0_take {A} (l : list A) (stop : value) (n : nat) :
  stop <> VUndefined ->
  ToIntegerOrInfinity (ToNumber stop) = Finite (Z.of_nat n) ->
  arraySlice0 l stop = take n l.
Proof.
  intros Hs Hi. unfold arraySlice0. rewrite Hi.
  assert ((Z.of_nat n <? 0)%Z = false) as -> by (apply Z.ltb_ge; lia).
  destruct stop; try contradiction.
  all: destruct (Z.min_spec (Z.of_nat n) (Z.of_nat (length l))) as [[Hlt ->]|[Hge ->]];
    rewrite Nat2Z.id; [reflexivity|];
    rewrite firstn_all; symmetry; apply firstn_all2; lia.
Qed.

Lemma countIs_slice {A} (config : SortConfig) (n : nat) (l : list A) :
  countIs config n -> arraySlice0 l (effectiveCount config) = take n l.
Proof.
  unfold effectiveCount. intros [(f & Hc & Hi & Hn)|[Hc ->]]; rewrite Hc.
  - rewrite (integerValue_positive_truthy f n Hi Hn).
    apply arraySlice0_take; [discriminate|]. apply integerValue_ToInteger, Hi.
  - cbn [ToBoolean]. apply arraySlice0_take; [discriminate|]. reflexivity.
Qed.

Lemma postsOf_heapAfterSort (h : Heap) (posts arr : loc) (config : SortConfig)
    (elems filtered sorted : list PostRecord) :
  h !! posts = Some (OCollection arr config) ->
  h !! arr = Some (OPosts elems) ->
  postsOf (heapAfterSort h posts arr config filtered sorted) posts
  = Some (arraySlice0 sorted (effectiveCount config)).
Proof.
  intros Hp Ha.
  destruct (heapAfterSort_facts h posts arr config elems filtered sorted Hp Ha)
    as (s & _ & _ & _ & Hps & Hs & _).
  unfold postsOf. rewrite Hps, Hs. reflexivity.
Qed.










(** C5 (amended). For a collection in which no post that passes the
    filter has the key [NaN], in the post list that [sortAndSlicePost]
    returned every adjacent pair is in order: the key of the first is
    at most the key of the second when [config.ascending] is truthy,
    and at least that key otherwise. *)
Theorem sortAndSlicePost_ordered (h h' : Heap) (posts r arr : loc) (config : SortConfig)
    (elems filtered l : list PostRecord) :
  h !! posts = Some (OCollection arr config) ->
  h !! arr = Some (OPosts elems) ->
  filteredPosts config elems = Ok filtered ->
  (forall p k, In p filtered -> sortKey (effectiveSort config) p = Ok k -> is_nan k = false) ->
  sortAndSlicePost posts h = (Ok r, h') ->
  postsOf h' r = Some l ->
  forall i p q, l !! i = Some p -> l !! S i = Some q ->
    exists kp kq,
      sortKey (effectiveSort config) p = Ok kp
      /\ sortKey (effectiveSort config) q = Ok kq
      /\ (if ToBoolean (config_ascending config)
          then (kp <=? kq)%float else (kq <=? kp)%float) = true.
Proof.
  intros Hp Ha Hf Hnan Hrun Hl i p q Hi Hj.
  destruct (sortAndSlicePost_returns h h' posts r Hrun)
    as (arr' & config' & elems' & filtered' & sorted & Hp' & Ha' & Hf' & Hs & -> & ->).
  rewrite Hp in Hp'. injection Hp' as <- <-.
  rewrite Ha in Ha'. injection Ha' as <-.
  rewrite Hf in Hf'. injection Hf' as <-.
  rewrite (postsOf_heapAfterSort h posts arr config elems filtered sorted Hp Ha) in Hl.
  injection Hl as <-.
  set (sort := effectiveSort config) in *.
  set (l := arraySlice0 sorted (effectiveCount config)) in *.
  assert (Hvalid : sortIsValid sort = true).
  { destruct (sortIsValid sort) eqn:Hv; [reflexivity|exfalso].
    destruct (comparator_invalid sort (config_ascending config) Hv) as (fo & op & so & _ & Hc).
    rewrite (arraySort_throws _ _ filtered Hc) in Hs.
    assert (Hlen : 2 <= length sorted).
    { assert (Hll : S i < length l) by (eapply lookup_lt_Some; exact Hj).
      subst l. unfold arraySlice0 in Hll. rewrite length_take in Hll. lia. }
    destruct filtered as [|x [|y f]]; try discriminate;
      injection Hs as <-; simpl in Hlen; lia. }
  rewrite (arraySort_valid sort _ filtered Hvalid) in Hs. injection Hs as <-.
  assert (Hord : ordered (comesAfter sort (config_ascending config)) l).
  { subst l. unfold arraySlice0. apply ordered_take, sortBy_ordered.
    intros a b. apply comesAfter_asym. }
  pose proof (ordered_lookup _ l i p q Hord Hi Hj) as Hpq.
  exists (keyOf sort p), (keyOf sort q).
  rewrite !sortKey_valid by exact Hvalid. repeat split.
  assert (Hin : forall j x, l !! j = Some x -> In x filtered).
  { intros j x Hx. subst l. unfold arraySlice0 in Hx.
    apply lookup_take_Some in Hx as [Hx _].
    apply (Permutation_in _ (sortBy_perm (comesAfter sort (config_ascending config)) filtered)).
    apply list_elem_of_In. eapply list_elem_of_lookup_2; exact Hx. }
  pose proof (Hnan p _ (Hin _ _ Hi) (sortKey_valid sort p Hvalid)) as Hnp.
  pose proof (Hnan q _ (Hin _ _ Hj) (sortKey_valid sort q Hvalid)) as Hnq.
  unfold comesAfter in Hpq.
  destruct (ToBoolean (config_ascending config)); apply not_ltb_leb; assumption.
Qed.

End ShapedLength.

(** * Delivery with retries *)

Section DeliverySpec.
Context `{!Host}.
Variable relay : nat -> relayAnswer.
Variable this : MailHandler.

Lemma sendMail_valid (email mail name : value) (w : World) :
  validPayload this email mail name ->
  sendMail relay this email mail name w =
    (match relay (relayCalls w) with
     | Refused m => Throw (Error ("SMTP error: " +:+ m))
     | Accepted data => Ok data
     end, afterSend this email mail name w).
Proof.
  intros (He & Hf & Hm & Hmt & Hn & Hnt). unfold sendMail.
  rewrite He, Hf, Hm, Hmt, Hn, Hnt. simpl.
  destruct (relay (relayCalls w)); reflexivity.
Qed.

(** One turn of the loop for a valid payload. *)
Lemma retryLoop_step (email mail name : value) (maxRetries remaining attempt : nat)
    (lastError : option exn) (w : World) :
  validPayload this email mail name ->
  retryLoop relay this email mail name maxRetries (S remaining) attempt lastError w =
    match relay (relayCalls w) with
    | Accepted _ => (Ok tt, afterSend this email mail name w)
    | Refused m =>
        retryLoop relay this email mail name maxRetries remaining (S attempt)
          (Some (Error ("SMTP error: " +:+ m)))
          (if Nat.ltb attempt maxRetries
           then afterWait (pow2 attempt * 1000)%float (afterSend this email mail name w)
           else afterSend this email mail name w)
    end.
Proof.
  intros Hv. cbn [retryLoop]. unfold bind at 1, tryCatch, bind at 1.
  rewrite (sendMail_valid email mail name w Hv).
  destruct (relay (relayCalls w)) as [data|m]; [reflexivity|].
  cbv beta iota. unfold ret at 1. cbv beta iota. unfold bind at 1.
  destruct (Nat.ltb attempt maxRetries); reflexivity.
Qed.

(** C2 (amended). For every payload and configuration that pass the
    checks of [sendMail], [sendMailWithRetry] with three attempts
    against a relay that refuses every message sends it three times,
    waits 2 s after the first refusal and 4 s after the second, and then
    throws an error whose message carries the message of the last
    refusal; against a relay that refuses twice and then accepts, it
    returns after the third send, having waited the same. *)
Theorem sendMailWithRetry_three_attempts (email mail name : value) (w : World) :
  validPayload this email mail name ->
  let sent := Sent (transporterOf this) (mkMailOptions email mail name) in
  let trace := events w ++ [sent; Waited 2000%float; sent; Waited 4000%float; sent] in
  (forall m0 m1 m2,
      relay (relayCalls w) = Refused m0 ->
      relay (S (relayCalls w)) = Refused m1 ->
      relay (S (S (relayCalls w))) = Refused m2 ->
      sendMailWithRetry relay this email mail name 3 w =
        (Throw (Error ("Failed to send email after 3 attempts: SMTP error: " +:+ m2)),
         mkWorld (3 + relayCalls w) trace))
  /\ (forall m0 m1 data,
      relay (relayCalls w) = Refused m0 ->
      relay (S (relayCalls w)) = Refused m1 ->
      relay (S (S (relayCalls w))) = Accepted data ->
      sendMailWithRetry relay this email mail name 3 w =
        (Ok tt, mkWorld (3 + relayCalls w) trace)).
Proof.
  intros Hv sent trace. subst sent trace. unfold sendMailWithRetry.
  split.
  - intros m0 m1 m2 H0 H1 H2.
    rewrite retryLoop_step by exact Hv. rewrite H0.
    rewrite retryLoop_step by exact Hv. cbn [relayCalls afterWait afterSend Nat.ltb Nat.leb].
    rewrite H1.
    rewrite retryLoop_step by exact Hv. cbn [relayCalls afterWait afterSend Nat.ltb Nat.leb].
    rewrite H2. cbn [retryLoop message].
    unfold throw, afterSend, afterWait. cbn [relayCalls events].
    rewrite <- !app_assoc. reflexivity.
  - intros m0 m1 data H0 H1 H2.
    rewrite retryLoop_step by exact Hv. rewrite H0.
    rewrite retryLoop_step by exact Hv. cbn [relayCalls afterWait afterSend Nat.ltb Nat.leb].
    rewrite H1.
    rewrite retryLoop_step by exact Hv. cbn [relayCalls afterWait afterSend Nat.ltb Nat.leb].
    rewrite H2.
    unfold afterSend, afterWait. cbn [relayCalls events].
    rewrite <- !app_assoc. reflexivity.
Qed.

End DeliverySpec.

(** * The batch runner *)

Section BatchSpec.
Context `{!Host}.
Variable relay : nat -> relayAnswer.
Variable this : MailHandler.
Variable constructMailData : string -> Eff World MailData.
Variable readdirSync : value -> result (list string).
Variable mkdirSync : value -> result unit.

Lemma processFile_returns (file : string) (acc : BatchResult) (w : World) :
  exists acc' w', processFile relay this constructMailData file acc w = (Ok acc', w').
Proof.
  unfold processFile.
  destruct (emailRegexTest file); simpl; [|unfold ret; eauto].
  destruct (isSafePath this file); simpl; [|unfold ret; eauto].
  unfold tryCatch.
  destruct (attemptFile relay this constructMailData file acc w) as [[acc'|e] w'];
    unfold ret; eauto.
Qed.





End BatchSpec.

(** * Transport security *)

Section SecureMode.
Context `{!Host}.

Lemma getenv_string_or_undefined (env : Env) (name : string) :
  getenv env name = VUndefined \/ exists s, getenv env name = VString s.
Proof. unfold getenv. destruct (env !! name); eauto. Qed.

(** The port of a handler built by [init] is a string. *)
Lemma init_port_is_string (fileVars : Env) (assets : string) (env : Env) (this : MailHandler) :
  init fileVars assets env = Ok this -> exists s, port this = VString s.
Proof.
  unfold init, newMailHandler.
  set (e := loadConfig fileVars assets env).
  repeat match goal with
         | |- context [if negb (ToBoolean ?v) then _ else _] =>
             destruct (ToBoolean v) eqn:?; simpl negb; cbv iota; [|discriminate]
         end.
  intros [= <-]. simpl.
  destruct (getenv_string_or_undefined e "PORT") as [Hu|[s Hs]]; [|eauto].
  rewrite Hu in *. discriminate.
Qed.

(** [sendMail] asks for a secure transport exactly when [this.port] is
    the number 465. *)
Lemma transporter_secure_iff (this : MailHandler) :
  transport_secure (transporterOf this) = true
  <-> exists n, port this = VNumber n /\ (n =? 465)%float = true.
Proof.
  unfold transporterOf. simpl. destruct (port this); simpl; split;
    try discriminate; try (intros (n & Hn & _); discriminate); eauto.
  intros (m & [= <-] & Hm). exact Hm.
Qed.

(** C9 (divergence). A handler built by [init] never asks for a secure
    transport, whatever the PORT setting, 465 included: the setting
    reaches [sendMail] as a string, and [sendMail] compares it with the
    number 465 strictly. *)
Theorem init_never_secure (fileVars : Env) (assets : string) (env : Env) (this : MailHandler) :
  init fileVars assets env = Ok this ->
  transport_secure (transporterOf this) = false.
Proof.
  intros Hi. destruct (init_port_is_string _ _ _ _ Hi) as [s Hs].
  unfold transporterOf. simpl. rewrite Hs. reflexivity.
Qed.

End SecureMode.

(** * The shaper on the store *)

Section ShaperHeap.
Context `{!Host}.

Lemma heapAfterSort_new (h : Heap) (posts arr : loc) (config : SortConfig)
    (filtered sorted : list PostRecord) (l : loc) (o : object) :
  posts < length h -> arr < length h ->
  length h <= l ->
  heapAfterSort h posts arr config filtered sorted !! l = Some o ->
  exists e, o = OPosts e.
Proof.
  intros Hp Ha Hl. unfold heapAfterSort, heapAfterFilter, arrayAfterFilter.
  destruct (hasFilter config).
  - rewrite list_lookup_insert_ne by lia.
    set (h1 := <[posts := OCollection (length h) config]> (h ++ [OPosts filtered])).
    assert (Hl1 : length h1 = S (length h)).
    { subst h1. rewrite length_insert, length_app. simpl. lia. }
    destruct (decide (l = length h)) as [->|Hne].
    + rewrite lookup_app_l by (rewrite length_insert; lia).
      rewrite list_lookup_insert_eq by lia.
      intros [= <-]. eauto.
    + rewrite lookup_app_r by (rewrite length_insert; lia).
      rewrite length_insert, Hl1.
      destruct (l - S (length h)) as [|k] eqn:E; simpl.
      * intros [= <-]. eauto.
      * rewrite lookup_nil. discriminate.
  - rewrite list_lookup_insert_ne by lia.
    rewrite lookup_app_r by (rewrite length_insert; lia).
    rewrite length_insert.
    destruct (l - length h) as [|k] eqn:E; simpl.
    + intros [= <-]. eauto.
    + rewrite lookup_nil. discriminate.
Qed.

Lemma sortAndSlicePost_step (h h' : Heap) (p r : loc) :
  sortAndSlicePost p h = (Ok r, h') -> r = p /\ shapeStep h h' p.
Proof.
  intros Hrun.
  destruct (sortAndSlicePost_returns h h' p r Hrun)
    as (a & config & E & filtered & sorted & Hp & Ha & Hf & Hs & -> & ->).
  split; [reflexivity|].
  assert (Hlp : p < length h) by (eapply lookup_lt_Some; eassumption).
  assert (Hla : a < length h) by (eapply lookup_lt_Some; eassumption).
  destruct (heapAfterSort_facts h p a config E filtered sorted Hp Ha)
    as (s & Hs1 & Hs2 & Hgrow & Hps & Hss & Has & Hframe).
  constructor.
  - exists a, config, E, s, (arraySlice0 sorted (effectiveCount config)),
      (if hasFilter config then E else sorted).
    repeat split; try assumption.
    + unfold shapedPosts. rewrite Hf. simpl. rewrite Hs. reflexivity.
    + destruct (hasFilter config) eqn:Ef; [reflexivity|].
      unfold filteredPosts in Hf. rewrite Ef in Hf. injection Hf as <-.
      eapply arraySort_perm, Hs.
  - intros l o Hl. apply heapAfterSort_new; assumption.
  - lia.
Qed.

(** ** One section *)

Lemma shapeSection_run (c secArr : loc) (entry : string * SortConfig) (h : Heap)
    (a : loc) (config : SortConfig) :
  h !! c = Some (OCollection a config) ->
  shapeSection c secArr entry h =
    match sortAndSlicePost (length h)
            (<[length h := OCollection a (snd entry)]> (h ++ [OCollection a config])) with
    | (Ok t, h3) =>
        match h3 !! secArr with
        | Some (OArray elems) => (Ok tt, <[secArr := OArray (elems ++ [t])]> h3)
        | Some _ => (Throw (TypeError "Cannot read properties of undefined (reading map)"), h3)
        | None => (Throw (TypeError "Cannot read properties of undefined"), h3)
        end
    | (Throw e, h3) => (Throw e, h3)
    end.
Proof.
  intros Hc.
  cbv beta iota zeta delta [shapeSection bind loadCollection loadArray load alloc store
                            ret throw notA fst snd].
  rewrite Hc. cbv beta iota.
  destruct (sortAndSlicePost _ _) as [[t|e] h3]; [|reflexivity].
  destruct (h3 !! secArr) as [[| | | elems |]|]; reflexivity.
Qed.

(** What a section that was shaped leaves in the store. *)
Lemma shapeSection_facts (c secArr : loc) (entry : string * SortConfig) (h h' : Heap)
    (u : unit) (a : loc) (config : SortConfig) (E : list PostRecord) (done : list loc) :
  shapeSection c secArr entry h = (Ok u, h') ->
  h !! c = Some (OCollection a config) ->
  h !! a = Some (OPosts E) ->
  h !! secArr = Some (OArray done) ->
  exists s out E1,
    h' !! length h = Some (OCollection s (snd entry))
    /\ length h < s /\ s < length h'
    /\ h' !! s = Some (OPosts out)
    /\ shapedPosts (snd entry) E = Ok out
    /\ h' !! a = Some (OPosts E1) /\ Permutation E1 E
    /\ h' !! secArr = Some (OArray (done ++ [length h]))
    /\ (forall l, l < length h -> l <> a -> l <> secArr -> h' !! l = h !! l)
    /\ (forall l o, length h < l -> h' !! l = Some o -> exists e, o = OPosts e).
Proof.
  intros Hrun Hc Ha Hs.
  assert (Hla : a < length h) by (eapply lookup_lt_Some; eassumption).
  assert (Hls : secArr < length h) by (eapply lookup_lt_Some; eassumption).
  assert (Hne : a <> secArr) by (intros ->; congruence).
  rewrite (shapeSection_run c secArr entry h a config Hc) in Hrun.
  set (h2 := <[length h := OCollection a (snd entry)]> (h ++ [OCollection a config])) in *.
  assert (Hl2 : length h2 = S (length h)).
  { subst h2. rewrite length_insert, length_app. simpl. lia. }
  assert (H2t : h2 !! length h = Some (OCollection a (snd entry))).
  { subst h2. apply list_lookup_insert_eq. rewrite length_app. simpl. lia. }
  assert (H2old : forall l, l < length h -> h2 !! l = h !! l).
  { intros l Hl. subst h2. rewrite list_lookup_insert_ne by lia. apply lookup_app_l, Hl. }
  destruct (sortAndSlicePost (length h) h2) as [[t|e] h3] eqn:Hsort; [|discriminate].
  destruct (sortAndSlicePost_step h2 h3 (length h) t Hsort) as [-> [Hb Hnew Hgrow]].
  destruct Hb as (a' & cfg' & E' & s & out & E1 & Hp & Ha' & Hs1 & Hs2 & Hps & Hss & Hsh
                  & Has & Hperm & Hframe).
  rewrite H2t in Hp. injection Hp as <- <-.
  rewrite (H2old a Hla), Ha in Ha'. injection Ha' as <-.
  destruct (h3 !! secArr) as [[| | | elems |]|] eqn:H3s; try discriminate.
  injection Hrun as _ <-.
  assert (elems = done) as ->.
  { rewrite Hframe, (H2old secArr Hls), Hs in H3s by lia. congruence. }
  assert (Hl3 : secArr < length h3) by (eapply lookup_lt_Some; eassumption).
  exists s, out, E1. rewrite length_insert.
  repeat split; try assumption; try lia.
  - rewrite list_lookup_insert_ne by lia. exact Hps.
  - rewrite list_lookup_insert_ne by lia. exact Hss.
  - rewrite list_lookup_insert_ne by lia. exact Has.
  - apply list_lookup_insert_eq, Hl3.
  - intros l Hl Hna Hns. rewrite list_lookup_insert_ne by lia.
    rewrite Hframe by lia. apply H2old, Hl.
  - intros l o Hl. rewrite list_lookup_insert_ne by lia.
    apply Hnew. lia.
Qed.

(** A section whose filter and sort return is shaped. *)
Lemma shapeSection_total (c secArr : loc) (entry : string * SortConfig) (h : Heap)
    (a : loc) (config : SortConfig) (E filtered sorted : list PostRecord) (done : list loc) :
  h !! c = Some (OCollection a config) ->
  h !! a = Some (OPosts E) ->
  h !! secArr = Some (OArray done) ->
  filteredPosts (snd entry) E = Ok filtered ->
  arraySort (comparator (effectiveSort (snd entry)) (config_ascending (snd entry))) filtered
  = Ok sorted ->
  exists h', shapeSection c secArr entry h = (Ok tt, h').
Proof.
  intros Hc Ha Hs Hf Hsort.
  assert (Hla : a < length h) by (eapply lookup_lt_Some; eassumption).
  assert (Hls : secArr < length h) by (eapply lookup_lt_Some; eassumption).
  assert (Hne : a <> secArr) by (intros ->; congruence).
  rewrite (shapeSection_run c secArr entry h a config Hc).
  set (h2 := <[length h := OCollection a (snd entry)]> (h ++ [OCollection a config])) in *.
  assert (Hl2 : length h2 = S (length h)).
  { subst h2. rewrite length_insert, length_app. simpl. lia. }
  assert (H2t : h2 !! length h = Some (OCollection a (snd entry))).
  { subst h2. apply list_lookup_insert_eq. rewrite length_app. simpl. lia. }
  assert (H2old : forall l, l < length h -> h2 !! l = h !! l).
  { intros l Hl. subst h2. rewrite list_lookup_insert_ne by lia. apply lookup_app_l, Hl. }
  assert (H2a : h2 !! a = Some (OPosts E)) by (rewrite H2old; assumption).
  rewrite (sortAndSlicePost_run h2 (length h) a (snd entry) E H2t H2a), Hf, Hsort.
  destruct (heapAfterSort_facts h2 (length h) a (snd entry) E filtered sorted H2t H2a)
    as (s & _ & _ & _ & _ & _ & _ & Hframe).
  rewrite Hframe, (H2old secArr Hls), Hs by lia. eauto.
Qed.

(** ** The loop over the structure's keys *)

Lemma forEachM_cons_returns {S A B} (f : A -> Eff S B) (x : A) (l : list A)
    (s s' : S) (ys : list B) :
  forEachM f (x :: l) s = (Ok ys, s') ->
  exists y ys' s1, f x s = (Ok y, s1) /\ forEachM f l s1 = (Ok ys', s') /\ ys = y :: ys'.
Proof.
  cbn [forEachM]. unfold bind, ret.
  destruct (f x s) as [[y|e] s1] eqn:E1; [|discriminate].
  destruct (forEachM f l s1) as [[ys'|e] s2] eqn:E2; [|discriminate].
  intros [= <- <-]. exists y, ys', s1. auto.
Qed.

Lemma forEachM_cons_total {S A B} (f : A -> Eff S B) (x : A) (l : list A)
    (s s1 s' : S) (y : B) (ys : list B) :
  f x s = (Ok y, s1) -> forEachM f l s1 = (Ok ys, s') ->
  forEachM f (x :: l) s = (Ok (y :: ys), s').
Proof. intros Hx Hl. cbn [forEachM]. unfold bind, ret. rewrite Hx, Hl. reflexivity. Qed.

Lemma sections_facts (c secArr a : loc) (config : SortConfig)
    (st : list (string * SortConfig)) :
  forall (h : Heap) (done : list loc) (E : list PostRecord) (u : list unit) (h' : Heap),
    forEachM (shapeSection c secArr) st h = (Ok u, h') ->
    h !! c = Some (OCollection a config) ->
    h !! a = Some (OPosts E) ->
    h !! secArr = Some (OArray done) ->
    exists tss E',
      h' !! secArr = Some (OArray (done ++ map fst tss))
      /\ h' !! a = Some (OPosts E') /\ Permutation E' E
      /\ Forall2 (sectionDone h h' E) tss st
      /\ NoDup (map snd tss)
      /\ (forall l, l < length h -> l <> a -> l <> secArr -> h' !! l = h !! l)
      /\ length h <= length h'.
Proof.
  induction st as [|entry st IH]; intros h done E u h' Hrun Hc Ha Hs.
  - cbn [forEachM] in Hrun. unfold ret in Hrun. injection Hrun as _ <-.
    exists [], E. simpl. rewrite app_nil_r. repeat split; auto. constructor.
  - destruct (forEachM_cons_returns _ _ _ _ _ _ Hrun) as (y & ys & h1 & Hx & Hrest & _).
    assert (Hlc : c < length h) by (eapply lookup_lt_Some; eassumption).
    assert (Hla : a < length h) by (eapply lookup_lt_Some; eassumption).
    assert (Hls : secArr < length h) by (eapply lookup_lt_Some; eassumption).
    assert (Hca : c <> a) by (intros ->; congruence).
    assert (Hcs : c <> secArr) by (intros ->; congruence).
    destruct (shapeSection_facts c secArr entry h h1 y a config E done Hx Hc Ha Hs)
      as (s & out & E1 & Ht & Hs1 & Hs2 & Hss & Hsh & Ha1 & HP1 & Hsec1 & Hframe1 & Hnew1).
    assert (Hc1 : h1 !! c = Some (OCollection a config)) by (rewrite Hframe1; assumption).
    destruct (IH h1 (done ++ [length h]) E1 ys h' Hrest Hc1 Ha1 Hsec1)
      as (tss & E' & Hsec' & Ha' & HP' & Hall & Hnd & Hframe & Hgrow).
    assert (Hlt : length h < length h1) by lia.
    exists ((length h, s) :: tss), E'. simpl.
    rewrite <- app_assoc in Hsec'. simpl in Hsec'.
    repeat split; try assumption.
    + etransitivity; eassumption.
    + constructor.
      * exists out, E. simpl.
        rewrite !Hframe by lia. repeat split; try assumption; try reflexivity; lia.
      * eapply Forall2_impl; [exact Hall|].
        intros ts e (out' & Ei & H1 & H2 & H3 & H4 & H5 & H6 & H7 & H8).
        exists out', Ei. repeat split; try assumption; try lia.
        etransitivity; eassumption.
    + constructor; [|exact Hnd].
      intros Hin. apply list_elem_of_In in Hin.
      apply in_map_iff in Hin as ([t' s'] & Heq & Hin). simpl in Heq. subst s'.
      apply list_elem_of_In in Hin.
      apply list_elem_of_lookup in Hin as [i Hi].
      destruct (Forall2_lookup_l _ _ _ _ _ Hall Hi) as (e & _ & Hd).
      destruct Hd as (_ & _ & _ & _ & _ & _ & _ & _ & Hge & _). simpl in Hge. lia.
    + intros l Hl Hna Hns. rewrite Hframe by lia. apply Hframe1; assumption.
    + lia.
Qed.

Lemma sectionIsValid_runs (config : SortConfig) (E : list PostRecord) :
  sectionIsValid config ->
  exists filtered sorted,
    filteredPosts config E = Ok filtered
    /\ arraySort (comparator (effectiveSort config) (config_ascending config)) filtered
       = Ok sorted.
Proof.
  intros [Hf Hs]. unfold filteredPosts.
  destruct (hasFilter config).
  - destruct (Hf eq_refl) as [test ->]. eexists _, _. split; [reflexivity|].
    apply arraySort_valid, Hs.
  - eexists _, _. split; [reflexivity|]. apply arraySort_valid, Hs.
Qed.

Lemma sections_total (c secArr a : loc) (config : SortConfig)
    (st : list (string * SortConfig)) :
  forall (h : Heap) (done : list loc) (E : list PostRecord),
    Forall (fun entry => sectionIsValid (snd entry)) st ->
    h !! c = Some (OCollection a config) ->
    h !! a = Some (OPosts E) ->
    h !! secArr = Some (OArray done) ->
    exists u h', forEachM (shapeSection c secArr) st h = (Ok u, h').
Proof.
  induction st as [|entry st IH]; intros h done E Hv Hc Ha Hs.
  - cbn [forEachM]. unfold ret. eauto.
  - inversion Hv as [|? ? Hv1 Hv2]; subst.
    destruct (sectionIsValid_runs (snd entry) E Hv1) as (filtered & sorted & Hf & Hsort).
    destruct (shapeSection_total c secArr entry h a config E filtered sorted done
                Hc Ha Hs Hf Hsort) as [h1 Hx].
    assert (Hlc : c < length h) by (eapply lookup_lt_Some; eassumption).
    assert (Hca : c <> a) by (intros ->; congruence).
    assert (Hcs : c <> secArr) by (intros ->; congruence).
    destruct (shapeSection_facts c secArr entry h h1 tt a config E done Hx Hc Ha Hs)
      as (s & out & E1 & _ & _ & _ & _ & _ & Ha1 & _ & Hsec1 & Hframe1 & _).
    assert (Hc1 : h1 !! c = Some (OCollection a config)) by (rewrite Hframe1; assumption).
    destruct (IH h1 _ E1 Hv2 Hc1 Ha1 Hsec1) as (u & h' & Hrest).
    exists (tt :: u), h'. eapply forEachM_cons_total; eassumption.
Qed.

(** ** One entry of [data.mails] *)

Lemma shapeEntry_flat (c a : loc) (config : SortConfig) (h : Heap) :
  h !! c = Some (OCollection a config) ->
  ~ sectioned config ->
  shapeEntry c h = sortAndSlicePost c h.
Proof.
  intros Hc Hn.
  cbv beta iota zeta delta [shapeEntry bind loadCollection load ret snd].
  rewrite Hc. cbv beta iota.
  unfold sectioned in Hn.
  destruct (config_structure config) as [[|e st]|]; try reflexivity. tauto.
Qed.

Lemma shapeEntry_sectioned (c a : loc) (config : SortConfig) (h : Heap)
    (st : list (string * SortConfig)) :
  h !! c = Some (OCollection a config) ->
  config_structure config = Some st -> st <> [] ->
  shapeEntry c h =
    match forEachM (shapeSection c (length h)) st (h ++ [OArray []]) with
    | (Ok _, h1) => (Ok (length h1), h1 ++ [OSections (length h)])
    | (Throw e, h1) => (Throw e, h1)
    end.
Proof.
  intros Hc Hst Hne.
  cbv beta iota zeta delta [shapeEntry bind loadCollection load alloc ret snd].
  rewrite Hc. cbv beta iota. rewrite Hst.
  destruct st as [|e st]; [contradiction|].
  destruct (forEachM _ _ _) as [[u|e0] h1]; reflexivity.
Qed.






End ShaperHeap.

(** * The shaper on a whole document *)

Section DocumentHeap.
Context `{!Host}.








(** ** A collection shaped in place *)



(** ** The sections loop and the invariant *)


(** ** One entry, then all of them *)

Lemma sectioned_dec (cfg : SortConfig) : {sectioned cfg} + {~ sectioned cfg}.
Proof.
  unfold sectioned. destruct (config_structure cfg) as [[|e st]|]; auto.
Qed.




(** ** Entries that share nothing *)









End DocumentHeap.

(** * The theorems on concrete inputs *)

(** The evaluator on numbers, for every host. *)
Lemma safeEvaluate_runs :
  forall H : Host,
    safeEvaluate (VNumber 6) (VString "/") (VNumber 3) = Ok 2%float
    /\ safeEvaluate (VNumber 6) (VString "/") (VNumber 0) = Ok 0%float
    /\ safeEvaluate (VNumber 6) (VString "/") (VNumber (-0)) = Ok 0%float
    /\ safeEvaluate VUndefined (VString "+") (VNumber 1) = Ok 1%float
    /\ safeEvaluate (VNumber 6) (VString "%") (VNumber 3)
       = Throw (Error "Invalid operator: %. Allowed operators: +, -, *, /")
    /\ safeEvaluate (VNumber 6) (VNumber 1) (VNumber 3)
       = Throw (InvalidOperator (VNumber 1)).
Proof. intros H. repeat split. Qed.



(** Two charted posts by [last-week - rank], ascending: keys -3 and 3. *)
Lemma sortAndSlicePost_ordered_witness :
  (forall H : Host,
      forall p k, In p [chartPost 5 2; chartPost 1 4] ->
        sortKey (effectiveSort gainsConfig) p = Ok k -> is_nan k = false)
  /\ (forall H : Host,
      postsOf (snd (sortAndSlicePost 0 gainsHeap)) 0 = Some [chartPost 1 4; chartPost 5 2])
  /\ (forall H : Host,
      exists kp kq,
        sortKey (effectiveSort gainsConfig) (chartPost 1 4) = Ok kp
        /\ sortKey (effectiveSort gainsConfig) (chartPost 5 2) = Ok kq
        /\ (if ToBoolean (config_ascending gainsConfig)
            then (kp <=? kq)%float else (kq <=? kp)%float) = true).
Proof.
  assert (Hk : forall H : Host,
             forall p k, In p [chartPost 5 2; chartPost 1 4] ->
               sortKey (effectiveSort gainsConfig) p = Ok k -> is_nan k = false).
  { intros H p k [<-|[<-|[]]] [= <-]; reflexivity. }
  split; [exact Hk|]. split; [intros H; reflexivity|]. intros H.
  apply (sortAndSlicePost_ordered gainsHeap (snd (sortAndSlicePost 0 gainsHeap)) 0 0 1
           gainsConfig [chartPost 5 2; chartPost 1 4] [chartPost 5 2; chartPost 1 4]
           [chartPost 1 4; chartPost 5 2] eq_refl eq_refl eq_refl (Hk H) eq_refl eq_refl 0);
    reflexivity.
Defined.

(** C5 as stated fails: the first record's key is [Infinity - Infinity],
    which is [NaN], and [NaN] is neither at most nor at least the other
    key, whichever way the two records are put. *)
Lemma sortAndSlicePost_nan_key :
  (forall H : Host,
      postsOf (snd (sortAndSlicePost 0 unboundedHeap)) 0
      = Some [chartPost infinity infinity; chartPost 1 0])
  /\ (forall H : Host,
      sortKey (effectiveSort gainsConfig) (chartPost infinity infinity) = Ok nan)
  /\ (forall H : Host, sortKey (effectiveSort gainsConfig) (chartPost 1 0) = Ok 1%float)
  /\ (nan <=? 1)%float = false
  /\ (1 <=? nan)%float = false.
Proof. repeat split. Qed.



(** The sections share the posts array of the collection, and an
    unfiltered section sorts that array where it is: the section
    [ranked] gets the two tied posts in the order the section [recent]
    left them, not in the order of the input. *)
Lemma shapeEntry_sections_share_posts :
  forall H : Host,
    exists h' r secArr recent ranked a b,
      shapeEntry 0 tiedHeap = (Ok r, h')
      /\ h' !! r = Some (OSections secArr)
      /\ h' !! secArr = Some (OArray [recent; ranked])
      /\ h' !! ranked
         = Some (OCollection a (plainConfig (VString "rank") (VBool false) VUndefined))
      /\ h' !! a = Some (OPosts [chartPost 2 7; chartPost 1 7])
      /\ shapedPosts (plainConfig (VString "rank") (VBool false) VUndefined) tiedPosts
         = Ok [chartPost 1 7; chartPost 2 7]
      /\ h' !! 1 = Some (OPosts b) /\ b <> tiedPosts.
Proof.
  intros H. do 7 eexists. repeat split; try reflexivity. discriminate.
Qed.

(** A valid payload against a relay that is down, and against one that
    accepts the third message. *)
Lemma sendMailWithRetry_three_attempts_witness :
  (forall H : Host,
      validPayload janeHandler (VString "jonedoe@mail.com") (VString "<p>Hello</p>")
        (VString "Daily Digest"))
  /\ (forall H : Host,
      let sent := Sent (transporterOf janeHandler)
                    (mkMailOptions (VString "jonedoe@mail.com") (VString "<p>Hello</p>")
                       (VString "Daily Digest")) in
      sendMailWithRetry relayDown janeHandler (VString "jonedoe@mail.com")
        (VString "<p>Hello</p>") (VString "Daily Digest") 3 freshWorld
      = (Throw (Error "Failed to send email after 3 attempts: SMTP error: connection refused"),
         mkWorld 3 [sent; Waited 2000%float; sent; Waited 4000%float; sent])
      /\ sendMailWithRetry relayUpAtThird janeHandler (VString "jonedoe@mail.com")
           (VString "<p>Hello</p>") (VString "Daily Digest") 3 freshWorld
         = (Ok tt, mkWorld 3 [sent; Waited 2000%float; sent; Waited 4000%float; sent])).
Proof.
  assert (Hv : forall H : Host,
             validPayload janeHandler (VString "jonedoe@mail.com") (VString "<p>Hello</p>")
               (VString "Daily Digest")).
  { intros H. repeat split. }
  split; [exact Hv|]. intros H sent. split.
  - apply (proj1 (sendMailWithRetry_three_attempts relayDown janeHandler _ _ _ freshWorld
                    (Hv H)) "connection refused" "connection refused" "connection refused");
      reflexivity.
  - apply (proj2 (sendMailWithRetry_three_attempts relayUpAtThird janeHandler _ _ _ freshWorld
                    (Hv H)) "connection refused" "connection refused" (VString "Ok"));
      reflexivity.
Defined.

(** C2 as stated fails: the recipient is not an address; the relay
    would refuse twice and then accept, but no message reaches it, and
    the call throws after the two waits. *)
Lemma sendMailWithRetry_invalid_recipient :
  relayUpAtThird 2 = Accepted (VString "Ok")
  /\ forall H : Host,
      sendMailWithRetry relayUpAtThird janeHandler (VString "nobody")
        (VString "<p>Hello</p>") (VString "Daily Digest") 3 freshWorld
      = (Throw (Error "Failed to send email after 3 attempts: Invalid recipient email: nobody"),
         mkWorld 0 [Waited 2000%float; Waited 4000%float]).
Proof. split; [reflexivity|]. intros H. reflexivity. Qed.

(** C6 as stated fails: a record whose [points] is [Infinity]; the
    value does not coerce to a finite number, and [fetchProp] returns
    it, not 0. *)
Lemma fetchProp_infinite_value :
  is_finite infinity = false
  /\ (infinity =? 0)%float = false
  /\ forall H : Host, fetchProp (pointsPost infinity) (VString "points") = infinity.
Proof. repeat split. Qed.

(** C7 as stated fails: [config.sort] is absent and the record has 10
    points; its key is 10, not 0. *)
Lemma sortKey_absent_sort :
  config_sort (plainConfig VUndefined VUndefined VUndefined) = VUndefined
  /\ (10 =? 0)%float = false
  /\ forall H : Host,
      sortKey (effectiveSort (plainConfig VUndefined VUndefined VUndefined)) (pointsPost 10)
      = Ok 10%float.
Proof. repeat split. Qed.

(** A deployment on port 465: [init] builds the handler with the port
    ["465"], and its transport is not secure. *)
Lemma init_never_secure_witness :
  (forall H : Host,
      init ∅ "assets" securePortEnv
      = Ok (mkMailHandler (VString "465") (VString "jane") (VString "james")
              (VString "smtp.example.org") (VString "janedoe@mail.com")
              (VString "./mail-data") (VString "./email-templates")))
  /\ (forall H : Host,
      transport_secure
        (transporterOf
           (mkMailHandler (VString "465") (VString "jane") (VString "james")
              (VString "smtp.example.org") (VString "janedoe@mail.com")
              (VString "./mail-data") (VString "./email-templates"))) = false).
Proof.
  assert (Hi : forall H : Host,
      init ∅ "assets" securePortEnv
      = Ok (mkMailHandler (VString "465") (VString "jane") (VString "james")
              (VString "smtp.example.org") (VString "janedoe@mail.com")
              (VString "./mail-data") (VString "./email-templates"))).
  { intros H. vm_compute. reflexivity. }
  split; [exact Hi|]. intros H.
  apply (init_never_secure ∅ "assets" securePortEnv _ (Hi H)).
Defined.



(** * Addresses, file names and paths *)

Lemma takeWhile_dropWhile {A} (p : A -> bool) (l : list A) :
  takeWhile p l ++ dropWhile p l = l.
Proof.
  induction l as [|x l IH]; [reflexivity|]. simpl.
  destruct (p x); [simpl; f_equal; exact IH|reflexivity].
Qed.

Lemma takeWhile_Forall {A} (p : A -> bool) (l : list A) :
  Forall (fun x => p x = true) (takeWhile p l).
Proof.
  induction l as [|x l IH]; simpl; [constructor|].
  destruct (p x) eqn:E; constructor; assumption.
Qed.

Lemma dropWhile_head {A} (p : A -> bool) (l r : list A) (x : A) :
  dropWhile p l = x :: r -> p x = false.
Proof.
  induction l as [|y l IH]; simpl; [discriminate|].
  destruct (p y) eqn:E; [exact IH|]. intros [= <- _]. exact E.
Qed.

Lemma takeWhile_stop {A} (p : A -> bool) (a r : list A) (x : A) :
  Forall (fun y => p y = true) a -> p x = false ->
  takeWhile p (a ++ x :: r) = a /\ dropWhile p (a ++ x :: r) = x :: r.
Proof.
  intros Ha Hx. induction Ha as [|y a Hy Ha IH]; simpl.
  - rewrite Hx. split; reflexivity.
  - rewrite Hy. destruct IH as [-> ->]. split; reflexivity.
Qed.

Lemma takeWhile_all {A} (p : A -> bool) (a : list A) :
  Forall (fun y => p y = true) a -> takeWhile p a = a /\ dropWhile p a = [].
Proof.
  intros Ha. induction Ha as [|y a Hy Ha IH]; simpl; [split; reflexivity|].
  rewrite Hy. destruct IH as [-> ->]. split; reflexivity.
Qed.

Lemma stripPrefix_spec (p l r : list ascii) :
  stripPrefix p l = Some r <-> l = p ++ r.
Proof.
  revert l. induction p as [|c p IH]; intros l; simpl.
  - split; [intros [= ->]; reflexivity|intros ->; reflexivity].
  - destruct l as [|d l]; [split; discriminate|].
    destruct (Ascii.eqb_spec c d) as [->|Hn].
    + rewrite IH. split; [intros ->; reflexivity|intros [= ->]; reflexivity].
    + split; [discriminate|intros [= -> _]; contradiction].
Qed.

Lemma isChar_spec (x : ascii) (c : ascii) :
  isChar (String x EmptyString) c = true <-> c = x.
Proof. simpl. apply Ascii.eqb_eq. Qed.

(** ** The address pattern *)

Lemma hasInnerDot_spec (d : list ascii) :
  hasInnerDot d = true <->
  exists d1 d2, d = d1 ++ "."%char :: d2 /\ d1 <> [] /\ d2 <> [].
Proof.
  induction d as [|x d IH]; [split; [discriminate|intros ([|? ?] & ? & ? & ? & ?); discriminate || congruence]|].
  destruct d as [|c after].
  - split; [discriminate|].
    intros ([|y [|z d1]] & d2 & E & H1 & H2); try congruence; discriminate.
  - destruct after as [|z after].
    + split; [discriminate|].
      intros ([|y [|z d1]] & d2 & E & H1 & H2); try congruence.
      * injection E as _ _ E. congruence.
      * destruct d1; discriminate.
    + cbn [hasInnerDot]. rewrite orb_true_iff, IH. clear IH. split.
      * intros [Hc|(d1 & d2 & E & H1 & H2)].
        -- apply (isChar_spec "."%char) in Hc. subst c.
           exists [x], (z :: after). repeat split; discriminate.
        -- exists (x :: d1), d2. rewrite E. repeat split; [discriminate|exact H2].
      * intros ([|y [|y' d1]] & d2 & E & H1 & H2); [congruence| |].
        -- injection E as _ -> _. left. reflexivity.
        -- injection E as _ Ec E. right. exists (y' :: d1), d2.
           repeat split; [simpl; congruence|discriminate|exact H2].
Qed.

Lemma at_not_address : isAddressChar "@"%char = false.
Proof. reflexivity. Qed.

Lemma emailShape_spec (s : list ascii) : emailShape s = true <-> emailLanguage s.
Proof.
  unfold emailShape, emailLanguage. split.
  - pose proof (takeWhile_dropWhile isAddressChar s) as Hs.
    pose proof (takeWhile_Forall isAddressChar s) as Hl.
    destruct (takeWhile isAddressChar s) as [|l0 loc] eqn:Et; [discriminate|].
    destruct (dropWhile isAddressChar s) as [|a domain] eqn:Ed; [discriminate|].
    rewrite !andb_true_iff. intros [[Ha Hd] Hdot].
    apply (isChar_spec "@"%char) in Ha. subst a.
    apply hasInnerDot_spec in Hdot as (d1 & d2 & -> & H1 & H2).
    pose proof (proj1 (forallb_forall _ _) Hd) as Hd'. clear Hd. rename Hd' into Hd.
    exists (l0 :: loc), d1, d2. rewrite <- Hs.
    repeat split; try assumption; try discriminate.
    + apply List.Forall_forall. intros c Hc. apply Hd. apply in_or_app. left. exact Hc.
    + apply List.Forall_forall. intros c Hc. apply Hd. apply in_or_app. right. right. exact Hc.
  - intros (loc & d1 & d2 & -> & Hl & H1 & H2 & Al & A1 & A2).
    destruct (takeWhile_stop isAddressChar loc (d1 ++ "."%char :: d2) "@"%char Al at_not_address)
      as [-> ->].
    destruct loc as [|l0 loc]; [congruence|].
    rewrite !andb_true_iff. repeat split.
    + apply forallb_forall. intros c Hc. apply in_app_or in Hc as [Hc|[<-|Hc]].
      * eapply List.Forall_forall in A1; [exact A1|exact Hc].
      * reflexivity.
      * eapply List.Forall_forall in A2; [exact A2|exact Hc].
    + apply hasInnerDot_spec. exists d1, d2. auto.
Qed.

Lemma isValidEmail_string (s : string) :
  isValidEmail (VString s) = emailShape (trim (chars s)).
Proof.
  unfold isValidEmail. simpl. destruct (String.eqb_spec s "") as [->|Hn]; reflexivity.
Qed.

(** X9. [isValidEmail] accepts exactly the strings that, once trimmed,
    are a non-empty run of characters other than white space and [@],
    an [@], and a run of such characters with a dot inside it. So an
    accepted address has exactly one [@] and no white space inside. *)
Theorem isValidEmail_language (email : value) :
  isValidEmail email = true
  <-> exists s, email = VString s /\ emailLanguage (trim (chars s)).
Proof.
  split.
  - destruct email as [| | | |s| |]; try discriminate.
    + unfold isValidEmail. simpl. destruct b; discriminate.
    + unfold isValidEmail. simpl. destruct (negb _); discriminate.
    + rewrite isValidEmail_string, emailShape_spec. eauto.
  - intros (s & -> & Hl). rewrite isValidEmail_string. apply emailShape_spec, Hl.
Qed.

Lemma dropWhile_blank (p s : list ascii) :
  blank p -> dropWhile isSpace (p ++ s) = dropWhile isSpace s.
Proof.
  intros Hp. induction Hp as [|c p Hc Hp IH]; [reflexivity|]. simpl. rewrite Hc. exact IH.
Qed.

Lemma dropWhile_app_keep {A} (p : A -> bool) (l r : list A) :
  dropWhile p l <> [] -> dropWhile p (l ++ r) = dropWhile p l ++ r.
Proof.
  induction l as [|x l IH]; simpl; [congruence|].
  destruct (p x); [exact IH|reflexivity].
Qed.

Lemma blank_rev (l : list ascii) : blank l -> blank (rev l).
Proof. unfold blank. rewrite !List.Forall_forall. intros H c Hc. apply H, in_rev, Hc. Qed.

Lemma trim_padding (before s after : list ascii) :
  blank before -> blank after -> trim (before ++ s ++ after) = trim s.
Proof.
  intros Hb Ha. unfold trim. rewrite (dropWhile_blank before _ Hb).
  destruct (dropWhile isSpace s) as [|x r] eqn:Es.
  - assert (Hs : blank s).
    { clear -Es. induction s as [|c s IH]; [constructor|]. simpl in Es.
      destruct (isSpace c) eqn:Ec; [|discriminate].
      constructor; [exact Ec|exact (IH Es)]. }
    assert (Hsa : dropWhile isSpace (s ++ after) = []).
    { apply (takeWhile_all isSpace). apply List.Forall_app. split; assumption. }
    rewrite Hsa. reflexivity.
  - rewrite dropWhile_app_keep by (rewrite Es; discriminate). rewrite Es.
    rewrite rev_app_distr. rewrite (dropWhile_blank (rev after) _ (blank_rev _ Ha)).
    reflexivity.
Qed.

Lemma chars_append (a b : string) : chars (a +:+ b) = chars a ++ chars b.
Proof.
  unfold chars. induction a as [|c a IH]; [reflexivity|].
  change ((String c a) +:+ b) with (String c (a +:+ b)). simpl. f_equal. exact IH.
Qed.

(** X10. White space around an address does not count: [isValidEmail]
    gives the same answer with and without it. *)
Theorem isValidEmail_padding (before s after : string) :
  blank (chars before) -> blank (chars after) ->
  isValidEmail (VString (before +:+ s +:+ after)) = isValidEmail (VString s).
Proof.
  intros Hb Ha. rewrite !isValidEmail_string, !chars_append, trim_padding by assumption.
  reflexivity.
Qed.

(** ** The file-name pattern *)

Lemma dash_not_digit : isDigit "-"%char = false.
Proof. reflexivity. Qed.

(** What the three steps of [emailRegexTest] and [emailRegexCapture]
    find in a name, read from its end. *)
Lemma mailFileName_reversed (name : string) :
  mailFileName (chars name) <->
  exists r1 c before,
    stripPrefix (rev (chars ".yaml")) (rev (chars name)) = Some r1
    /\ takeWhile isDigit r1 <> []
    /\ stripPrefix (rev (chars "-mail-")) (dropWhile isDigit r1) = Some (c :: before)
    /\ isLineTerminator c = false.
Proof.
  split.
  - intros (before & c & digits & E & Hc & Hd & Hds).
    exists (rev digits ++ rev (chars "-mail-") ++ c :: rev before), c, (rev before).
    assert (Hr : Forall (fun d => isDigit d = true) (rev digits)).
    { apply List.Forall_forall. intros d Hd'. apply in_rev in Hd'.
      eapply List.Forall_forall in Hds; [exact Hds|exact Hd']. }
    destruct (takeWhile_stop isDigit (rev digits) (chars "liam-" ++ c :: rev before)
                "-"%char Hr dash_not_digit) as [Ht Hdr].
    change ("-"%char :: chars "liam-" ++ c :: rev before)
      with (rev (chars "-mail-") ++ c :: rev before) in Ht, Hdr.
    repeat split.
    + apply stripPrefix_spec. rewrite E.
      rewrite rev_app_distr. simpl rev at 1. rewrite !rev_app_distr. simpl.
      rewrite <- !app_assoc. reflexivity.
    + rewrite Ht. intros Hn. apply Hd. destruct digits; [reflexivity|].
      simpl in Hn. destruct (rev digits); discriminate.
    + rewrite Hdr. apply stripPrefix_spec. reflexivity.
    + exact Hc.
  - intros (r1 & c & before & H1 & Hd & H2 & Hc).
    apply stripPrefix_spec in H1. apply stripPrefix_spec in H2.
    pose proof (takeWhile_dropWhile isDigit r1) as Hsplit. rewrite H2 in Hsplit.
    pose proof (takeWhile_Forall isDigit r1) as Hf.
    remember (takeWhile isDigit r1) as ds eqn:Eds. clear Eds.
    exists (rev before), c, (rev ds). repeat split.
    + rewrite <- (rev_involutive (chars name)), H1, <- Hsplit.
      rewrite !rev_app_distr. simpl. rewrite <- !app_assoc. reflexivity.
    + exact Hc.
    + intros Hn. apply Hd. destruct ds as [|d ds]; [reflexivity|].
      simpl in Hn. destruct (rev ds); discriminate.
    + apply List.Forall_forall. intros d Hd'. apply in_rev in Hd'.
      eapply List.Forall_forall in Hf; [exact Hf|exact Hd'].
Qed.

(** X11. The files [start] takes for mail documents are exactly those
    whose name ends with a character other than a line terminator,
    [-mail-], one or more digits and [.yaml]. *)
Theorem emailRegexTest_language (file : string) :
  emailRegexTest file = true <-> mailFileName (chars file).
Proof.
  rewrite mailFileName_reversed. unfold emailRegexTest. split.
  - destruct (stripPrefix (rev (chars ".yaml")) (rev (chars file))) as [r1|]; [|discriminate].
    destruct (takeWhile isDigit r1) as [|d ds] eqn:Et; [discriminate|].
    destruct (stripPrefix (rev (chars "-mail-")) (dropWhile isDigit r1))
      as [[|c before]|] eqn:E2; try discriminate.
    intros Hc. exists r1, c, before. rewrite Et.
    split; [reflexivity|]. split; [discriminate|]. split; [exact E2|].
    destruct (isLineTerminator c); [discriminate|reflexivity].
  - intros (r1 & c & before & -> & Hd & -> & Hc).
    destruct (takeWhile isDigit r1); [congruence|]. rewrite Hc. reflexivity.
Qed.

Lemma emailRegexCapture_test (name : string) :
  emailRegexTest name = true <-> exists email, emailRegexCapture name = Some email.
Proof.
  unfold emailRegexTest, emailRegexCapture.
  destruct (stripPrefix (rev (chars ".yaml")) (rev (chars name))) as [r1|];
    [|split; [discriminate|intros [? ?]; discriminate]].
  destruct (takeWhile isDigit r1) as [|d ds];
    [split; [discriminate|intros [? ?]; discriminate]|].
  destruct (stripPrefix (rev (chars "-mail-")) (dropWhile isDigit r1)) as [[|c before]|];
    try (split; [discriminate|intros [? ?]; discriminate]).
  destruct (isLineTerminator c); simpl; split; eauto; try discriminate.
  intros [? ?]; discriminate.
Qed.

Lemma Forall_rev_bool {A} (p : A -> bool) (b : bool) (l : list A) :
  Forall (fun x => p x = b) l -> Forall (fun x => p x = b) (rev l).
Proof.
  rewrite !List.Forall_forall. intros Hl x Hx. apply Hl, in_rev. exact Hx.
Qed.

Lemma chars_string_of_list (l : list ascii) : chars (string_of_list_ascii l) = l.
Proof. apply list_ascii_of_string_of_list_ascii. Qed.

Lemma rev_nil_inv {A} (l : list A) : rev l = [] -> l = [].
Proof. intros Hl. rewrite <- (rev_involutive l), Hl. reflexivity. Qed.

(** X12. The address [formMailData] takes from a file name is what
    stands before the final [-mail-], digits and [.yaml], back to the
    start of the name or to the last line terminator before it; there is
    one exactly when the name matches the pattern. *)
Theorem emailRegexCapture_stem (name email : string) :
  emailRegexCapture name = Some email <-> capturedFrom name email.
Proof.
  unfold capturedFrom, emailRegexCapture. split.
  - destruct (stripPrefix (rev (chars ".yaml")) (rev (chars name))) as [r1|] eqn:E1;
      [|discriminate].
    destruct (takeWhile isDigit r1) as [|d ds] eqn:Et; [discriminate|].
    destruct (stripPrefix (rev (chars "-mail-")) (dropWhile isDigit r1))
      as [[|c before]|] eqn:E2; try discriminate.
    destruct (isLineTerminator c) eqn:Ec; [discriminate|]. intros Hcap.
    apply stripPrefix_spec in E1. apply stripPrefix_spec in E2.
    pose proof (takeWhile_dropWhile isDigit r1) as Hsplit. rewrite Et, E2 in Hsplit.
    pose proof (takeWhile_Forall isDigit r1) as Hdig. rewrite Et in Hdig.
    set (notLT := fun c0 : ascii => negb (isLineTerminator c0)) in *.
    pose proof (takeWhile_dropWhile notLT (c :: before)) as Hb.
    pose proof (takeWhile_Forall notLT (c :: before)) as Hstem.
    assert (Hne : takeWhile notLT (c :: before) <> []).
    { simpl. unfold notLT at 1. rewrite Ec. discriminate. }
    assert (Hdrop : dropWhile notLT (c :: before) = []
                    \/ exists x r, dropWhile notLT (c :: before) = x :: r
                                    /\ isLineTerminator x = true).
    { destruct (dropWhile notLT (c :: before)) as [|x r] eqn:Ed; [left; reflexivity|right].
      apply dropWhile_head in Ed. exists x, r. split; [reflexivity|].
      unfold notLT in Ed. destruct (isLineTerminator x); [reflexivity|discriminate]. }
    assert (He : email = string_of_list_ascii (rev (takeWhile notLT (c :: before))))
      by (injection Hcap as <-; reflexivity).
    clear Hcap. revert Hb Hstem Hne Hdrop He.
    generalize (takeWhile notLT (c :: before)). generalize (dropWhile notLT (c :: before)).
    intros dropped taken Hb Hstem Hne Hdrop ->.
    exists (rev dropped), (rev (d :: ds)).
    rewrite chars_string_of_list. repeat split.
    + rewrite <- (rev_involutive (chars name)), E1, <- Hsplit, <- Hb.
      rewrite !rev_app_distr. simpl. rewrite <- !app_assoc. simpl. reflexivity.
    + intros Hs. apply Hne. apply rev_nil_inv.
      rewrite <- (chars_string_of_list (rev taken)), Hs. reflexivity.
    + apply Forall_rev_bool. eapply List.Forall_impl; [|exact Hstem].
      intros a Ha. unfold notLT in Ha. destruct (isLineTerminator a); [discriminate|reflexivity].
    + destruct Hdrop as [->|(x & r & -> & Hx)]; [left; reflexivity|right].
      exists (rev r), x. split; [reflexivity|exact Hx].
    + intros Hn. apply rev_nil_inv in Hn. discriminate.
    + apply Forall_rev_bool. exact Hdig.
  - intros (skipped & digits & E & Hne & Hstem & Hskip & Hd & Hds).
    assert (Hrev : rev (chars name)
                   = rev (chars ".yaml") ++ rev digits ++ rev (chars "-mail-")
                     ++ rev (chars email) ++ rev skipped).
    { rewrite E, !rev_app_distr, <- !app_assoc. reflexivity. }
    rewrite (proj2 (stripPrefix_spec _ _ _) Hrev).
    destruct (takeWhile_stop isDigit (rev digits)
                (chars "liam-" ++ rev (chars email) ++ rev skipped) "-"%char
                (Forall_rev_bool _ _ _ Hds) dash_not_digit) as [Ht Hdr].
    change ("-"%char :: chars "liam-" ++ rev (chars email) ++ rev skipped)
      with (rev (chars "-mail-") ++ rev (chars email) ++ rev skipped) in Ht, Hdr.
    rewrite Ht, Hdr.
    destruct (rev digits) as [|d ds] eqn:Erd; [apply rev_nil_inv in Erd; contradiction|].
    rewrite (proj2 (stripPrefix_spec _ _ _) eq_refl).
    assert (Hstem' : Forall (fun c => negb (isLineTerminator c) = true) (rev (chars email))).
    { apply (Forall_rev_bool (fun c => negb (isLineTerminator c)) true).
      eapply List.Forall_impl; [|exact Hstem]. intros a Ha. rewrite Ha. reflexivity. }
    destruct (rev (chars email)) as [|c before] eqn:Ere.
    { apply rev_nil_inv in Ere. exfalso. apply Hne.
      rewrite <- (string_of_list_ascii_of_string email). unfold chars in Ere. rewrite Ere.
      reflexivity. }
    cbn [app]. inversion Hstem' as [|? ? Hc Hrest]; subst.
    destruct (isLineTerminator c) eqn:Ec; [discriminate|].
    assert (Htw : takeWhile (fun c0 => negb (isLineTerminator c0)) ((c :: before) ++ rev skipped)
                  = c :: before).
    { destruct Hskip as [->|(front & x & -> & Hx)].
      - simpl rev. rewrite app_nil_r. apply (takeWhile_all _ _ Hstem').
      - rewrite rev_app_distr. simpl rev. cbn [app].
        apply (takeWhile_stop (fun c0 => negb (isLineTerminator c0)) (c :: before) (rev front) x
                 Hstem'). rewrite Hx. reflexivity. }
    cbn [app] in Htw. rewrite Htw, <- Ere, rev_involutive.
    unfold chars. rewrite string_of_list_ascii_of_string. reflexivity.
Qed.

(** ** Paths *)

Lemma includesDotDot_app (a b : list ascii) :
  includesDotDot (a ++ "."%char :: "."%char :: b) = true.
Proof.
  induction a as [|c a IH]; [reflexivity|].
  destruct a as [|d a]; simpl in *.
  - rewrite orb_true_r. reflexivity.
  - rewrite IH. apply orb_true_r.
Qed.

(** X13. [isSafePath] refuses every path with [..] anywhere in it, and
    the empty path, whatever the data directory is and however the host
    resolves paths. *)
Theorem isSafePath_rejects `{!Host} (this : MailHandler) :
  (forall a b : string, isSafePath this (a +:+ ".." +:+ b) = false)
  /\ isSafePath this "" = false.
Proof.
  split; [|reflexivity]. intros a b. unfold isSafePath.
  destruct (negb (ToBoolean (VString (a +:+ ".." +:+ b)))); [reflexivity|].
  rewrite !chars_append. change (chars "..") with ["."%char; "."%char]. simpl app.
  rewrite includesDotDot_app. reflexivity.
Qed.

(** * Delivery with any number of attempts *)

Section RetrySpec.
Context `{!Host}.
Variable relay : nat -> relayAnswer.
Variable this : MailHandler.

Lemma validPayload_dec (email mail name : value) :
  {validPayload this email mail name} + {~ validPayload this email mail name}.
Proof.
  unfold validPayload.
  destruct (isValidEmail email); [|right; intros (? & _); discriminate].
  destruct (isValidEmail (fromEmail this)); [|right; intros (_ & ? & _); discriminate].
  destruct (ToBoolean mail); [|right; intros (_ & _ & ? & _); discriminate].
  destruct (String.eqb_spec (typeof mail) "string");
    [|right; intros (_ & _ & _ & ? & _); contradiction].
  destruct (ToBoolean name); [|right; intros (_ & _ & _ & _ & ? & _); discriminate].
  destruct (String.eqb_spec (typeof name) "string");
    [|right; intros (_ & _ & _ & _ & _ & ?); contradiction].
  left. auto 10.
Qed.

(** A payload that fails the checks of [sendMail] reaches no relay. *)
Lemma sendMail_rejects (email mail name : value) :
  ~ validPayload this email mail name ->
  exists m, forall w, sendMail relay this email mail name w = (Throw (Error m), w).
Proof.
  intros Hn. unfold sendMail, validPayload in *.
  destruct (isValidEmail email); simpl; [|unfold throw; eauto].
  destruct (isValidEmail (fromEmail this)); simpl; [|unfold throw; eauto].
  destruct (ToBoolean mail); simpl; [|unfold throw; eauto].
  destruct (String.eqb_spec (typeof mail) "string"); simpl; [|unfold throw; eauto].
  destruct (ToBoolean name); simpl; [|unfold throw; eauto].
  destruct (String.eqb_spec (typeof name) "string"); simpl; [|unfold throw; eauto].
  exfalso. apply Hn. auto 10.
Qed.

(** One turn of the loop, for any payload. *)
Lemma retryLoop_turn (email mail name : value) (maxRetries remaining attempt : nat)
    (lastError : option exn) (w : World) :
  retryLoop relay this email mail name maxRetries (S remaining) attempt lastError w =
    match sendMail relay this email mail name w with
    | (Ok _, w1) => (Ok tt, w1)
    | (Throw e, w1) =>
        retryLoop relay this email mail name maxRetries remaining (S attempt) (Some e)
          (if Nat.ltb attempt maxRetries
           then afterWait (pow2 attempt * 1000)%float w1 else w1)
    end.
Proof.
  cbn [retryLoop]. unfold bind at 1, tryCatch, bind at 1.
  destruct (sendMail relay this email mail name w) as [[data|e] w1]; [reflexivity|].
  cbv beta iota. unfold ret at 1. cbv beta iota. unfold bind at 1.
  destruct (Nat.ltb attempt maxRetries); reflexivity.
Qed.

(** What one call of [sendMail] adds to the world. *)
Lemma sendMail_world (email mail name : value) (w : World) :
  exists r added,
    sendMail relay this email mail name w
    = (r, mkWorld (relayCalls w + sends added) (events w ++ added))
    /\ sends added <= 1 /\ waits added = 0.
Proof.
  destruct (validPayload_dec email mail name) as [Hv|Hn].
  - rewrite (sendMail_valid relay this email mail name w Hv). unfold afterSend.
    eexists _, [Sent (transporterOf this) (mkMailOptions email mail name)].
    split; [|split; [unfold sends; simpl; lia|reflexivity]].
    f_equal. f_equal. unfold sends. simpl. lia.
  - destruct (sendMail_rejects email mail name Hn) as [m Hm]. rewrite Hm.
    exists (Throw (Error m)), []. rewrite app_nil_r. simpl. rewrite Nat.add_0_r.
    destruct w. split; [reflexivity|]. split; [unfold sends; simpl; lia|reflexivity].
Qed.

Lemma sends_app (a b : list event) : sends (a ++ b) = sends a + sends b.
Proof. unfold sends. rewrite List.filter_app, length_app. reflexivity. Qed.

Lemma waits_app (a b : list event) : waits (a ++ b) = waits a + waits b.
Proof. unfold waits. rewrite List.filter_app, length_app. reflexivity. Qed.

Lemma retryLoop_bounds (email mail name : value) (maxRetries : nat) :
  forall remaining attempt lastError w,
  exists r added,
    retryLoop relay this email mail name maxRetries remaining attempt lastError w
    = (r, mkWorld (relayCalls w + sends added) (events w ++ added))
    /\ sends added <= remaining
    /\ waits added <= maxRetries - attempt.
Proof.
  induction remaining as [|remaining IH]; intros attempt lastError w.
  - exists (fst (retryLoop relay this email mail name maxRetries 0 attempt lastError w)), [].
    rewrite app_nil_r. change (sends []) with 0. change (waits []) with 0.
    rewrite Nat.add_0_r. split; [|split; lia].
    destruct lastError as [e|]; destruct w; reflexivity.
  - rewrite retryLoop_turn.
    destruct (sendMail_world email mail name w) as (r1 & a1 & -> & Hs1 & Hw1).
    destruct r1 as [data|e].
    + exists (Ok tt), a1. split; [reflexivity|]. split; lia.
    + destruct (Nat.ltb_spec attempt maxRetries) as [Hlt|Hge].
      * destruct (IH (S attempt) (Some e)
                    (afterWait (pow2 attempt * 1000)
                       (mkWorld (relayCalls w + sends a1) (events w ++ a1))))
          as (r & a2 & -> & Hs2 & Hw2).
        exists r, (a1 ++ [Waited (pow2 attempt * 1000)%float] ++ a2).
        cbn [afterWait relayCalls events].
        rewrite !sends_app, !waits_app, <- !app_assoc.
        change (sends [Waited (pow2 attempt * 1000)%float]) with 0.
        change (waits [Waited (pow2 attempt * 1000)%float]) with 1.
        split; [f_equal; f_equal; lia|]. split; lia.
      * destruct (IH (S attempt) (Some e)
                    (mkWorld (relayCalls w + sends a1) (events w ++ a1)))
          as (r & a2 & -> & Hs2 & Hw2).
        exists r, (a1 ++ a2). cbn [relayCalls events].
        rewrite !sends_app, !waits_app, <- !app_assoc.
        split; [f_equal; f_equal; lia|]. split; lia.
Qed.

(** X4. Whatever the payload and the relay, [sendMailWithRetry] only adds
    to the record of events, hands at most [maxRetries] messages to the
    relay and waits at most [maxRetries - 1] times. With no attempt
    allowed it sends nothing, and what it throws is the [TypeError] of
    reading the message of an error that is not there. *)
Theorem sendMailWithRetry_bounds (email mail name : value) (w : World) :
  (forall maxRetries,
    exists r added,
      sendMailWithRetry relay this email mail name maxRetries w
      = (r, mkWorld (relayCalls w + sends added) (events w ++ added))
      /\ sends added <= maxRetries
      /\ waits added <= maxRetries - 1)
  /\ sendMailWithRetry relay this email mail name 0 w
     = (Throw (TypeError "Cannot read properties of undefined (reading 'message')"), w).
Proof. split; [intros maxRetries; apply retryLoop_bounds|reflexivity]. Qed.

(** The loop on a valid payload while the relay refuses. *)
Lemma retryLoop_refused (email mail name : value) (maxRetries : nat) (refusal : nat -> string) :
  validPayload this email mail name ->
  forall k attempt remaining lastError w,
    attempt + k <= maxRetries ->
    (forall j, j < k -> relay (relayCalls w + j) = Refused (refusal (attempt + j))) ->
    retryLoop relay this email mail name maxRetries (k + remaining) attempt lastError w
    = retryLoop relay this email mail name maxRetries remaining (attempt + k)
        (match k with
         | O => lastError
         | S k' => Some (Error ("SMTP error: " +:+ refusal (attempt + k')))
         end)
        (mkWorld (relayCalls w + k)
           (events w
            ++ backoff [Sent (transporterOf this) (mkMailOptions email mail name)] attempt k)).
Proof.
  intros Hv. induction k as [|k IH]; intros attempt remaining lastError w Hle Hr.
  - unfold backoff. simpl. rewrite app_nil_r, !Nat.add_0_r. destruct w. reflexivity.
  - cbn [Nat.add]. rewrite retryLoop_turn, (sendMail_valid relay this email mail name w Hv).
    pose proof (Hr 0 ltac:(lia)) as H0. rewrite !Nat.add_0_r in H0. rewrite H0.
    assert (Hlt : Nat.ltb attempt maxRetries = true) by (apply Nat.ltb_lt; lia).
    rewrite Hlt.
    rewrite (IH (S attempt) remaining _ _ ltac:(lia)).
    + unfold afterWait, afterSend, backoff. cbn [relayCalls events seq flat_map].
      rewrite <- !app_assoc. cbn [app].
      replace (S attempt + k) with (attempt + S k) by lia.
      replace (S (relayCalls w) + k) with (relayCalls w + S k) by lia.
      f_equal. destruct k as [|k'].
      * rewrite Nat.add_0_r. reflexivity.
      * replace (S attempt + k') with (attempt + S k') by lia. reflexivity.
    + intros j Hj. cbn [afterWait afterSend relayCalls].
      replace (S (relayCalls w) + j) with (relayCalls w + S j) by lia.
      replace (S attempt + j) with (attempt + S j) by lia. apply Hr. lia.
Qed.

(** X1. For a payload that passes the checks of [sendMail] and a relay
    that refuses every message, [sendMailWithRetry] with [n + 1]
    attempts hands the message to the relay [n + 1] times, waits
    [2^k] seconds after the [k]-th refusal for [k = 1..n], does not wait
    after the last one, and throws an error that names the number of
    attempts and carries the message of the last refusal. *)
Theorem sendMailWithRetry_exhausted (email mail name : value) (n : nat) (w : World)
    (refusal : nat -> string) :
  validPayload this email mail name ->
  (forall j, j <= n -> relay (relayCalls w + j) = Refused (refusal (1 + j))) ->
  let sent := Sent (transporterOf this) (mkMailOptions email mail name) in
  sendMailWithRetry relay this email mail name (S n) w
  = (Throw (Error ("Failed to send email after " +:+ showNat (S n) +:+
                   " attempts: SMTP error: " +:+ refusal (S n))),
     mkWorld (relayCalls w + S n) (events w ++ backoff [sent] 1 n ++ [sent])).
Proof.
  intros Hv Hr sent. unfold sendMailWithRetry.
  replace (S n) with (n + 1) at 2 by lia.
  rewrite (retryLoop_refused email mail name (S n) refusal Hv n 1 1 None w ltac:(lia))
    by (intros j Hj; apply Hr; lia).
  rewrite retryLoop_turn, (sendMail_valid relay this email mail name _ Hv).
  cbn [relayCalls]. rewrite (Hr n ltac:(lia)).
  assert (Hge : Nat.ltb (1 + n) (S n) = false) by (apply Nat.ltb_ge; lia).
  rewrite Hge. cbn [retryLoop message]. unfold throw, afterSend. cbn [relayCalls events].
  rewrite <- !app_assoc. f_equal. f_equal. lia.
Qed.

(** X2. For a payload that passes the checks and a relay that refuses
    the first [k] messages and accepts the next, [k] being less than
    [maxRetries], [sendMailWithRetry] returns after [k + 1] sends and
    the [k] waits between them; nothing is sent or waited for after the
    message is accepted. *)
Theorem sendMailWithRetry_accepted (email mail name : value) (maxRetries k : nat) (w : World)
    (refusal : nat -> string) (data : value) :
  validPayload this email mail name ->
  k < maxRetries ->
  (forall j, j < k -> relay (relayCalls w + j) = Refused (refusal (1 + j))) ->
  relay (relayCalls w + k) = Accepted data ->
  let sent := Sent (transporterOf this) (mkMailOptions email mail name) in
  sendMailWithRetry relay this email mail name maxRetries w
  = (Ok tt, mkWorld (relayCalls w + S k) (events w ++ backoff [sent] 1 k ++ [sent])).
Proof.
  intros Hv Hk Hr Ha sent. unfold sendMailWithRetry.
  replace maxRetries with (k + S (maxRetries - S k)) at 2 by lia.
  rewrite (retryLoop_refused email mail name maxRetries refusal Hv k 1 _ None w ltac:(lia) Hr).
  rewrite retryLoop_turn, (sendMail_valid relay this email mail name _ Hv).
  cbn [relayCalls]. rewrite Ha. unfold afterSend. cbn [relayCalls events].
  rewrite <- !app_assoc. f_equal. f_equal. lia.
Qed.

Lemma retryLoop_rejected (email mail name : value) (maxRetries : nat) (m : string) :
  (forall w, sendMail relay this email mail name w = (Throw (Error m), w)) ->
  forall k attempt remaining lastError w,
    attempt + k <= maxRetries ->
    retryLoop relay this email mail name maxRetries (k + remaining) attempt lastError w
    = retryLoop relay this email mail name maxRetries remaining (attempt + k)
        (match k with O => lastError | S _ => Some (Error m) end)
        (mkWorld (relayCalls w) (events w ++ backoff [] attempt k)).
Proof.
  intros Hs. induction k as [|k IH]; intros attempt remaining lastError w Hle.
  - unfold backoff. simpl. rewrite app_nil_r, !Nat.add_0_r. destruct w. reflexivity.
  - cbn [Nat.add]. rewrite retryLoop_turn, Hs.
    assert (Hlt : Nat.ltb attempt maxRetries = true) by (apply Nat.ltb_lt; lia).
    rewrite Hlt, (IH (S attempt) remaining _ _ ltac:(lia)).
    unfold afterWait, backoff. cbn [relayCalls events seq flat_map].
    rewrite <- !app_assoc. cbn [app].
    replace (S attempt + k) with (attempt + S k) by lia.
    destruct k; reflexivity.
Qed.

(** X3. A payload that fails the checks of [sendMail] is never handed to
    the relay; [sendMailWithRetry] still goes through all its attempts
    and waits, and then throws an error that carries the message of the
    failed check. *)
Theorem sendMailWithRetry_rejected (email mail name : value) :
  ~ validPayload this email mail name ->
  exists m,
    (forall w, sendMail relay this email mail name w = (Throw (Error m), w))
    /\ forall n w,
        sendMailWithRetry relay this email mail name (S n) w
        = (Throw (Error ("Failed to send email after " +:+ showNat (S n) +:+
                         " attempts: " +:+ m)),
           mkWorld (relayCalls w) (events w ++ backoff [] 1 n)).
Proof.
  intros Hn. destruct (sendMail_rejects email mail name Hn) as [m Hm].
  exists m. split; [exact Hm|]. intros n w. unfold sendMailWithRetry.
  replace (S n) with (n + 1) at 2 by lia.
  rewrite (retryLoop_rejected email mail name (S n) m Hm n 1 1 None w ltac:(lia)).
  rewrite retryLoop_turn, Hm.
  assert (Hge : Nat.ltb (1 + n) (S n) = false) by (apply Nat.ltb_ge; lia).
  rewrite Hge. cbn [retryLoop message]. unfold throw. cbn [relayCalls events]. reflexivity.
Qed.

End RetrySpec.

(** * The batch runner on a whole directory *)

Section BatchAccounts.
Context `{!Host}.
Variable relay : nat -> relayAnswer.
Variable this : MailHandler.
Variable constructMailData : string -> Eff World MailData.
Variable readdirSync : value -> result (list string).
Variable mkdirSync : value -> result unit.

(** What one candidate does to the counters. *)
Lemma attemptFile_counts (file : string) (acc acc' : BatchResult) (w w' : World) :
  attemptFile relay this constructMailData file acc w = (Ok acc', w') ->
  success acc' + failed acc' = S (success acc + failed acc)
  /\ length (errors acc') + failed acc = length (errors acc) + failed acc'.
Proof.
  unfold attemptFile, bind.
  destruct (constructMailData _ w) as [[data|e] w0]; [|discriminate].
  destruct (isValidEmail (data_email data)); simpl.
  - destruct (sendMailWithRetry _ _ _ _ _ _ w0) as [[[]|e] w1]; [|discriminate].
    unfold ret. intros [= <- _]. simpl. lia.
  - unfold ret. intros [= <- _]. simpl. rewrite length_app. simpl. lia.
Qed.

Lemma processFile_counts (file : string) (acc acc' : BatchResult) (w w' : World) :
  processFile relay this constructMailData file acc w = (Ok acc', w') ->
  success acc' + failed acc'
  = success acc + failed acc + length (candidates this [file])
  /\ length (errors acc') + failed acc
     = length (errors acc) + failed acc' + length (unsafeFiles this [file]).
Proof.
  unfold processFile, candidates, unsafeFiles. cbn [List.filter].
  destruct (emailRegexTest file); simpl.
  - destruct (isSafePath this file); simpl.
    + unfold tryCatch.
      destruct (attemptFile relay this constructMailData file acc w) as [[acc1|e] w1] eqn:Ea.
      * intros [= <- _]. apply attemptFile_counts in Ea. lia.
      * unfold ret. intros [= <- _]. simpl. rewrite length_app. simpl. lia.
    + unfold ret. intros [= <- _]. simpl. rewrite length_app. simpl. lia.
  - unfold ret. intros [= <- _]. lia.
Qed.

Lemma candidates_cons (file : string) (files : list string) :
  length (candidates this (file :: files))
  = length (candidates this [file]) + length (candidates this files).
Proof.
  unfold candidates. cbn [List.filter].
  destruct (emailRegexTest file && isSafePath this file); reflexivity.
Qed.

Lemma unsafeFiles_cons (file : string) (files : list string) :
  length (unsafeFiles this (file :: files))
  = length (unsafeFiles this [file]) + length (unsafeFiles this files).
Proof.
  unfold unsafeFiles. cbn [List.filter].
  destruct (emailRegexTest file && negb (isSafePath this file)); reflexivity.
Qed.

Lemma processFiles_counts (files : list string) :
  forall acc w,
  exists res w',
    processFiles relay this constructMailData files acc w = (Ok res, w')
    /\ success res + failed res
       = success acc + failed acc + length (candidates this files)
    /\ length (errors res) + failed acc
       = length (errors acc) + failed res + length (unsafeFiles this files).
Proof.
  induction files as [|file files IH]; intros acc w.
  - exists acc, w. split; [reflexivity|]. simpl. lia.
  - cbn [processFiles]. unfold bind at 1.
    destruct (processFile_returns relay this constructMailData file acc w)
      as (acc1 & w1 & E1).
    rewrite E1. apply processFile_counts in E1.
    destruct (IH acc1 w1) as (res & w' & -> & Hs & He).
    exists res, w'. split; [reflexivity|].
    rewrite candidates_cons, unsafeFiles_cons. lia.
Qed.

(** X5. When the data directory can be listed, [start] returns, and
    its counters account for every file of the listing: each file that
    matches the name pattern and is a safe path is counted once, as a
    success or as a failure; the error list holds one message for each
    failure and one for each matching file with an unsafe path; a file
    that does not match the pattern leaves no trace. *)
Theorem start_accounts (files : list string) (w : World) :
  readdirSync (dataDir this) = Ok files ->
  exists res w',
    start relay this constructMailData readdirSync mkdirSync w = (Ok res, w')
    /\ success res + failed res = length (candidates this files)
    /\ length (errors res) = failed res + length (unsafeFiles this files).
Proof.
  intros Hf. unfold start, bind at 1. rewrite Hf. unfold ret at 1.
  destruct (processFiles_counts files (mkBatchResult 0 0 []) w) as (res & w' & -> & Hs & He).
  exists res, w'. simpl in *. split; [reflexivity|]. lia.
Qed.

(** X6. When the data directory cannot be listed, whatever the reason,
    [start] creates it and returns the empty result without looking at
    any file; it throws only if the directory cannot be created, and
    then it throws the error of [mkdirSync]. *)
Theorem start_without_directory (e0 : exn) (w : World) :
  readdirSync (dataDir this) = Throw e0 ->
  (mkdirSync (dataDir this) = Ok tt ->
   start relay this constructMailData readdirSync mkdirSync w
   = (Ok (mkBatchResult 0 0 []),
      mkWorld (relayCalls w) (events w ++ [MadeDirectory (dataDir this)])))
  /\ (forall e, mkdirSync (dataDir this) = Throw e ->
      start relay this constructMailData readdirSync mkdirSync w = (Throw e, w)).
Proof.
  intros Hr. unfold start, bind at 1. rewrite Hr. split.
  - intros Hm. rewrite Hm. reflexivity.
  - intros e Hm. rewrite Hm. reflexivity.
Qed.

End BatchAccounts.

(** * The composer and the batch runner *)

Section ComposerSpec.
Context `{!Host}.
Variable relay : nat -> relayAnswer.
Variable this : MailHandler.
Variable basename : string -> string.
Variable Data : Type.
Variable buildData : string -> Eff World Data.
Variable renderMail : Data -> Eff World value.
Variable nameOf : Data -> value.
Variable readdirSync : value -> result (list string).
Variable mkdirSync : value -> result unit.

(** What [formMailData] returns, it took from the file name and found
    to be an address. *)
Lemma formMailData_returns (file : value) (w w' : World) (data : Data) (email : string) :
  formMailData basename Data buildData file w = (Ok (data, email), w') ->
  exists path,
    file = VString path
    /\ emailRegexCapture (basename path) = Some email
    /\ isValidEmail (VString email) = true
    /\ buildData path w = (Ok data, w').
Proof.
  unfold formMailData.
  destruct file as [| |b|n|path|l|f];
    try (cbn [typeof String.eqb Ascii.eqb Bool.eqb negb]; rewrite orb_true_r; discriminate).
  destruct (negb (ToBoolean (VString path)) || negb (String.eqb (typeof (VString path)) "string"));
    [discriminate|].
  cbn [ToString].
  destruct (emailRegexCapture (basename path)) as [e|] eqn:Ec; [|discriminate].
  destruct (isValidEmail (VString e)) eqn:Ev; [|discriminate]. simpl.
  unfold bind. destruct (buildData path w) as [[d|x] w1] eqn:Eb; [|discriminate].
  unfold ret. intros [= <- <- <-]. exists path. auto.
Qed.

Lemma constructMailData_email (file : string) (w w' : World) (data : MailData) :
  constructMailData basename Data buildData renderMail nameOf file w = (Ok data, w') ->
  isValidEmail (data_email data) = true.
Proof.
  unfold constructMailData, bind.
  destruct (formMailData basename Data buildData (VString file) w) as [[[d email]|e] w1] eqn:Ef;
    [|discriminate].
  apply formMailData_returns in Ef as (path & _ & _ & Hv & _).
  cbn [fst snd]. destruct (renderMail d w1) as [[mail|e] w2]; [|discriminate].
  unfold ret. intros [= <- _]. exact Hv.
Qed.

Lemma processFile_composed (file : string) (acc acc' : BatchResult) (w w' : World) :
  processFile relay this (constructMailData basename Data buildData renderMail nameOf)
    file acc w = (Ok acc', w') ->
  exists added, errors acc' = errors acc ++ added /\ Forall (skippedOrFailed file) added.
Proof.
  unfold processFile.
  destruct (emailRegexTest file); simpl; [|unfold ret; intros [= <- _]; exists [];
                                           rewrite app_nil_r; auto].
  destruct (isSafePath this file); simpl.
  - unfold tryCatch, attemptFile, bind.
    destruct (constructMailData _ _ _ _ _ _ w) as [[data|e] w0] eqn:Ec.
    + rewrite (constructMailData_email _ _ _ _ Ec). simpl.
      destruct (sendMailWithRetry _ _ _ _ _ _ w0) as [[[]|e] w1].
      * unfold ret. intros [= <- _]. exists []. rewrite app_nil_r. auto.
      * unfold ret. intros [= <- _]. eexists. split; [reflexivity|].
        constructor; [right; eauto|constructor].
    + unfold ret. intros [= <- _]. eexists. split; [reflexivity|].
      constructor; [right; eauto|constructor].
  - unfold ret. intros [= <- _]. eexists. split; [reflexivity|].
    constructor; [left; reflexivity|constructor].
Qed.

Lemma processFiles_composed (files : list string) :
  forall acc res w w',
    processFiles relay this (constructMailData basename Data buildData renderMail nameOf)
      files acc w = (Ok res, w') ->
    exists added,
      errors res = errors acc ++ added
      /\ Forall (fun msg => exists file, In file files /\ skippedOrFailed file msg) added.
Proof.
  induction files as [|file files IH]; intros acc res w w'.
  - intros [= <- _]. exists []. rewrite app_nil_r. auto.
  - cbn [processFiles]. unfold bind at 1.
    destruct (processFile_returns relay this
                (constructMailData basename Data buildData renderMail nameOf) file acc w)
      as (acc1 & w1 & E1).
    rewrite E1. intros Hrest.
    apply processFile_composed in E1 as (a1 & Ha1 & Hf1).
    apply IH in Hrest as (a2 & Ha2 & Hf2).
    exists (a1 ++ a2). rewrite Ha2, Ha1, app_assoc. split; [reflexivity|].
    apply List.Forall_app. split.
    + eapply List.Forall_impl; [|exact Hf1]. intros msg Hm. exists file. split; [left; reflexivity|exact Hm].
    + eapply List.Forall_impl; [|exact Hf2]. intros msg (f & Hin & Hm).
      exists f. split; [right; exact Hin|exact Hm].
Qed.

(** X7. With the composer of the class, the second address check of
    [start] never fails, [formMailData] having made it on the same
    address: every message of the result either reports an unsafe path
    or starts with [Failed to process], for a file of the listing; none
    reports an invalid address in a file. *)
Theorem start_composed_errors (w w' : World) (res : BatchResult) (files : list string) :
  readdirSync (dataDir this) = Ok files ->
  start relay this (constructMailData basename Data buildData renderMail nameOf)
    readdirSync mkdirSync w = (Ok res, w') ->
  Forall (fun msg => exists file, In file files /\ skippedOrFailed file msg) (errors res).
Proof.
  intros Hf. unfold start, bind at 1. rewrite Hf. unfold ret at 1. intros Hrun.
  apply processFiles_composed in Hrun as (added & -> & Ha). exact Ha.
Qed.

(** X8. A file that matches the name pattern but whose name does not
    carry an address before [-mail-] is counted as failed with the
    message of [formMailData]; the document is not read, and nothing
    else happens. *)
Theorem processFile_not_an_address (file stem : string) (acc : BatchResult) (w : World) :
  candidate this file ->
  basename (ToString (dataDir this) +:+ "/" +:+ file) = file ->
  emailRegexCapture file = Some stem ->
  isValidEmail (VString stem) = false ->
  processFile relay this (constructMailData basename Data buildData renderMail nameOf)
    file acc w
  = (Ok (recordFailure file acc
           (Error ("Invalid email address extracted from filename: " +:+ stem))), w).
Proof.
  intros [Hr Hs] Hb Hc Hv. unfold processFile. rewrite Hr, Hs. simpl.
  unfold tryCatch, attemptFile, bind, constructMailData, bind, formMailData.
  cbn [ToString typeof ToBoolean].
  destruct (String.eqb_spec (ToString (dataDir this) +:+ "/" +:+ file) "") as [E|_].
  - exfalso. destruct (ToString (dataDir this)); discriminate.
  - simpl. rewrite Hb, Hc, Hv. reflexivity.
Qed.

End ComposerSpec.

(** * Configuration *)

Lemma getenv_union (fileVars env : Env) (name : string) :
  getenv (env ∪ fileVars) name = setting fileVars env name.
Proof.
  unfold setting, getenv. rewrite lookup_union.
  destruct (env !! name), (fileVars !! name); reflexivity.
Qed.

Lemma getenv_insert (env : Env) (name k s : string) :
  getenv (<[name := s]> env) k = if String.eqb name k then VString s else getenv env k.
Proof.
  unfold getenv. destruct (String.eqb_spec name k) as [->|Hn].
  - rewrite lookup_insert_eq. reflexivity.
  - rewrite lookup_insert_ne by exact Hn. reflexivity.
Qed.

Lemma getenv_orDefault (env : Env) (name fallback k : string) :
  getenv (orDefault name fallback env) k
  = if String.eqb name k
    then (if ToBoolean (getenv env name) then getenv env name else VString fallback)
    else getenv env k.
Proof.
  unfold orDefault. destruct (ToBoolean (getenv env name)) eqn:Et.
  - destruct (String.eqb_spec name k) as [->|Hn]; reflexivity.
  - apply getenv_insert.
Qed.

Lemma getenv_loadConfig (fileVars env : Env) (assets k : string) :
  getenv (loadConfig fileVars assets env) k
  = if String.eqb "ASSETS_URL" k then VString assets
    else if String.eqb "MAIL_DATA_DIR" k then settingOr fileVars env "MAIL_DATA_DIR" "./mail-data"
    else if String.eqb "VIEWS_DIR" k then settingOr fileVars env "VIEWS_DIR" "./email-templates"
    else if String.eqb "SCRAPPER_SCHEMA_FILE" k
         then settingOr fileVars env "SCRAPPER_SCHEMA_FILE" "scrapper-schema.yaml"
    else setting fileVars env k.
Proof.
  unfold loadConfig, settingOr. rewrite getenv_insert.
  destruct (String.eqb "ASSETS_URL" k); [reflexivity|].
  rewrite getenv_orDefault.
  destruct (String.eqb_spec "MAIL_DATA_DIR" k) as [<-|_].
  { rewrite !getenv_orDefault. simpl String.eqb. cbv iota. rewrite getenv_union. reflexivity. }
  rewrite getenv_orDefault.
  destruct (String.eqb_spec "VIEWS_DIR" k) as [<-|_].
  { rewrite !getenv_orDefault. simpl String.eqb. cbv iota. rewrite getenv_union. reflexivity. }
  rewrite getenv_orDefault.
  destruct (String.eqb_spec "SCRAPPER_SCHEMA_FILE" k) as [<-|_].
  { rewrite getenv_union. reflexivity. }
  apply getenv_union.
Qed.

Lemma settingOr_truthy (fileVars env : Env) (name fallback : string) :
  fallback <> "" -> ToBoolean (settingOr fileVars env name fallback) = true.
Proof.
  intros Hf. unfold settingOr.
  destruct (ToBoolean (setting fileVars env name)) eqn:E; [exact E|].
  simpl. destruct (String.eqb_spec fallback ""); [contradiction|reflexivity].
Qed.

(** X15. After [loadConfig], [ASSETS_URL] is the templates path whatever
    it was set to; the schema file, the views directory and the data
    directory are the setting found, or their default when the setting
    is absent or empty; every other variable is the setting found, a
    variable of the process environment, even an empty one, taking
    precedence over the environment file. *)
Theorem loadConfig_settings (fileVars env : Env) (assets : string) :
  getenv (loadConfig fileVars assets env) "ASSETS_URL" = VString assets
  /\ getenv (loadConfig fileVars assets env) "SCRAPPER_SCHEMA_FILE"
     = settingOr fileVars env "SCRAPPER_SCHEMA_FILE" "scrapper-schema.yaml"
  /\ getenv (loadConfig fileVars assets env) "VIEWS_DIR"
     = settingOr fileVars env "VIEWS_DIR" "./email-templates"
  /\ getenv (loadConfig fileVars assets env) "MAIL_DATA_DIR"
     = settingOr fileVars env "MAIL_DATA_DIR" "./mail-data"
  /\ (forall name,
        ~ In name ["ASSETS_URL"; "SCRAPPER_SCHEMA_FILE"; "VIEWS_DIR"; "MAIL_DATA_DIR"] ->
        getenv (loadConfig fileVars assets env) name = setting fileVars env name)
  /\ (forall name s, env !! name = Some s -> setting fileVars env name = VString s)
  /\ (forall name, env !! name = None -> setting fileVars env name = getenv fileVars name).
Proof.
  repeat split; try (rewrite getenv_loadConfig; reflexivity).
  - intros name Hn. rewrite getenv_loadConfig.
    repeat match goal with
           | |- context [String.eqb ?a name] =>
               destruct (String.eqb_spec a name) as [<-|_];
               [exfalso; apply Hn; simpl; tauto|]
           end.
    reflexivity.
  - intros name s Hs. unfold setting. rewrite Hs. reflexivity.
  - intros name Hs. unfold setting. rewrite Hs. reflexivity.
Qed.

(** X14. [init] throws exactly when one of the login, the password, the
    host, the port and the sender address is absent or empty, and its
    error names the first of them in that order; it never throws for
    the data or the views directory, which have defaults. Otherwise it
    returns the handler whose fields are the settings found. *)
Theorem init_outcome (fileVars env : Env) (assets : string) :
  init fileVars assets env
  = match firstMissing fileVars env with
    | Some option => Throw (Error (option +:+ " not provided"))
    | None =>
        Ok (mkMailHandler
              (setting fileVars env "PORT") (setting fileVars env "LOGIN")
              (setting fileVars env "PASSWORD") (setting fileVars env "HOST")
              (setting fileVars env "FROM_EMAIL")
              (settingOr fileVars env "MAIL_DATA_DIR" "./mail-data")
              (settingOr fileVars env "VIEWS_DIR" "./email-templates"))
    end.
Proof.
  unfold init, newMailHandler, firstMissing, required. rewrite !getenv_loadConfig.
  simpl String.eqb. cbv iota. cbn [find snd fst option_map].
  rewrite !settingOr_truthy by discriminate.
  destruct (ToBoolean (setting fileVars env "LOGIN")); [|reflexivity].
  destruct (ToBoolean (setting fileVars env "PASSWORD")); [|reflexivity].
  destruct (ToBoolean (setting fileVars env "HOST")); [|reflexivity].
  destruct (ToBoolean (setting fileVars env "PORT")); [|reflexivity].
  destruct (ToBoolean (setting fileVars env "FROM_EMAIL")); reflexivity.
Qed.

Lemma getenv_ext (env1 env2 : Env) :
  (forall k, getenv env1 k = getenv env2 k) -> env1 = env2.
Proof.
  intros Hk. apply map_eq. intros k. specialize (Hk k). unfold getenv in Hk.
  destruct (env1 !! k), (env2 !! k); congruence.
Qed.

Lemma setting_loadConfig (fileVars env : Env) (assets k : string) :
  setting fileVars (loadConfig fileVars assets env) k
  = getenv (loadConfig fileVars assets env) k.
Proof.
  unfold setting.
  destruct (loadConfig fileVars assets env !! k) as [s|] eqn:E.
  - unfold getenv. rewrite E. reflexivity.
  - pose proof (getenv_loadConfig fileVars env assets k) as Hg.
    unfold getenv at 1 in Hg. rewrite E in Hg.
    destruct (String.eqb "ASSETS_URL" k); [discriminate|].
    destruct (String.eqb "MAIL_DATA_DIR" k).
    { pose proof (settingOr_truthy fileVars env "MAIL_DATA_DIR" "./mail-data") as Ht.
      rewrite <- Hg in Ht. discriminate Ht. discriminate. }
    destruct (String.eqb "VIEWS_DIR" k).
    { pose proof (settingOr_truthy fileVars env "VIEWS_DIR" "./email-templates") as Ht.
      rewrite <- Hg in Ht. discriminate Ht. discriminate. }
    destruct (String.eqb "SCRAPPER_SCHEMA_FILE" k).
    { pose proof (settingOr_truthy fileVars env "SCRAPPER_SCHEMA_FILE" "scrapper-schema.yaml")
        as Ht.
      rewrite <- Hg in Ht. discriminate Ht. discriminate. }
    unfold setting in Hg. unfold getenv. rewrite E.
    destruct (env !! k); [discriminate|]. unfold getenv in Hg. 
    destruct (fileVars !! k); [discriminate|reflexivity].
Qed.

(** X16. Loading the configuration again changes nothing. *)
Theorem loadConfig_idempotent (fileVars env : Env) (assets : string) :
  loadConfig fileVars assets (loadConfig fileVars assets env)
  = loadConfig fileVars assets env.
Proof.
  assert (Hor : forall name fallback,
             fallback <> "" ->
             getenv (loadConfig fileVars assets env) name
             = settingOr fileVars env name fallback ->
             settingOr fileVars (loadConfig fileVars assets env) name fallback
             = settingOr fileVars env name fallback).
  { intros name fallback Hf Hg. unfold settingOr at 1.
    rewrite !setting_loadConfig, Hg, settingOr_truthy by exact Hf. reflexivity. }
  apply getenv_ext. intros k.
  rewrite (getenv_loadConfig fileVars (loadConfig fileVars assets env)).
  rewrite !Hor by (discriminate || (rewrite getenv_loadConfig; reflexivity)).
  rewrite setting_loadConfig, !getenv_loadConfig.
  destruct (String.eqb "ASSETS_URL" k); [reflexivity|].
  destruct (String.eqb "MAIL_DATA_DIR" k); [reflexivity|].
  destruct (String.eqb "VIEWS_DIR" k); [reflexivity|].
  destruct (String.eqb "SCRAPPER_SCHEMA_FILE" k); reflexivity.
Qed.

(** * The logger *)

(** X17. The [level] option of [createLogger] has no effect: the level
    is [warn] when [quiet] is truthy, else [LOG_LEVEL] when that is set
    and not empty, else [debug] in development and [info] otherwise. *)
Theorem createLogger_level (quiet level : value) (env : Env) :
  createLogger quiet level env = createLogger quiet VUndefined env
  /\ (ToBoolean quiet = true ->
      logger_level (createLogger quiet level env) = VString "warn")
  /\ (ToBoolean quiet = false -> forall s,
      env !! "LOG_LEVEL" = Some s -> s <> "" ->
      logger_level (createLogger quiet level env) = VString s).
Proof.
  split; [reflexivity|]. split.
  - intros Hq. unfold createLogger. cbn [logger_level].
    destruct quiet; try discriminate; rewrite ?Hq; try reflexivity.
  - intros Hq s Hs Hn. unfold createLogger. cbn [logger_level].
    assert (Hq' : ToBoolean match quiet with VUndefined => VBool false | _ => quiet end = false)
      by (destruct quiet; try discriminate; try exact Hq; reflexivity).
    rewrite Hq'. unfold getenv. rewrite Hs. simpl.
    destruct (String.eqb_spec s ""); [contradiction|reflexivity].
Qed.

(** * More on the shaper *)

Section SortFacts.
Context {A : Type}.

Lemma sortBy_of_ordered (after : A -> A -> bool) (l : list A) :
  ordered after l -> sortBy after l = l.
Proof.
  intros Hl. induction Hl as [|x|x y l Hxy Hl IH]; [reflexivity|reflexivity|].
  cbn [sortBy] in *. rewrite IH. simpl. rewrite Hxy. reflexivity.
Qed.

Lemma filter_all (f : A -> bool) (l : list A) :
  (forall x, In x l -> f x = true) -> List.filter f l = l.
Proof.
  induction l as [|x l IH]; intros Hf; [reflexivity|]. simpl.
  rewrite (Hf x (or_introl eq_refl)). f_equal. apply IH. intros y Hy. apply Hf. right. exact Hy.
Qed.

Lemma In_take (n : nat) (l : list A) (x : A) : In x (take n l) -> In x l.
Proof.
  revert n. induction l as [|y l IH]; intros [|n]; simpl; try tauto.
  intros [->|Hx]; [left; reflexivity|right; eapply IH; exact Hx].
Qed.

Lemma filter_partition (f : A -> bool) (l : list A) :
  Permutation (List.filter f l ++ List.filter (fun x => negb (f x)) l) l.
Proof.
  induction l as [|x l IH]; [reflexivity|]. simpl. destruct (f x); simpl.
  - constructor. exact IH.
  - rewrite <- Permutation_middle. constructor. exact IH.
Qed.

(** Inserting keeps the elements of one class in their order, when an
    element is never put after one of its own class. *)
Lemma insertBy_filter (after : A -> A -> bool) (same : A -> bool) (x : A) (l : list A) :
  (forall y, In y l -> same x = true -> same y = true -> after x y = false) ->
  List.filter same (insertBy after x l) = List.filter same (x :: l).
Proof.
  induction l as [|y l IH]; intros Hs; [reflexivity|].
  cbn [insertBy]. destruct (after x y) eqn:E; [|reflexivity].
  cbn [List.filter]. rewrite IH by (intros z Hz; apply Hs; right; exact Hz).
  cbn [List.filter].
  destruct (same x) eqn:Ex, (same y) eqn:Ey; try reflexivity.
  rewrite (Hs y (or_introl eq_refl) eq_refl Ey) in E. discriminate.
Qed.

Lemma sortBy_filter (after : A -> A -> bool) (same : A -> bool) (l : list A) :
  (forall x y, In x l -> In y l -> same x = true -> same y = true -> after x y = false) ->
  List.filter same (sortBy after l) = List.filter same l.
Proof.
  induction l as [|x l IH]; intros Hs; [reflexivity|].
  cbn [sortBy]. rewrite insertBy_filter.
  - cbn [List.filter]. rewrite IH by (intros; apply Hs; simpl; auto). reflexivity.
  - intros y Hy. apply Hs; [left; reflexivity|right].
    eapply Permutation_in; [apply sortBy_perm|exact Hy].
Qed.

Lemma filter_take_prefix (f : A -> bool) (n : nat) (l : list A) :
  exists m, List.filter f (take n l) = take m (List.filter f l).
Proof.
  revert n. induction l as [|x l IH]; intros n.
  - exists 0. destruct n; reflexivity.
  - destruct n as [|n]; [exists 0; reflexivity|].
    destruct (IH n) as [m Hm]. cbn [take List.filter]. destruct (f x).
    + exists (S m). simpl. rewrite Hm. reflexivity.
    + exists m. exact Hm.
Qed.

End SortFacts.

Lemma ltb_not_eqb (a b : float) : (a <? b)%float = true -> (a =? b)%float = false.
Proof.
  rewrite ltb_spec, FloatAxioms.eqb_spec. unfold SFltb, SFeqb.
  destruct (SFcompare (Prim2SF a) (Prim2SF b)) as [[]|]; congruence.
Qed.

Lemma eqb_sym (a b : float) : (a =? b)%float = (b =? a)%float.
Proof.
  rewrite !FloatAxioms.eqb_spec. unfold SFeqb.
  rewrite (SFcompare_antisym (Prim2SF a) (Prim2SF b)) by apply Prim2SF_valid.
  destruct (SFcompare (Prim2SF a) (Prim2SF b)) as [[]|]; reflexivity.
Qed.

Lemma SFcompare_Eq_trans (x y k : spec_float) :
  SFcompare x k = Some Eq -> SFcompare y k = Some Eq -> SFcompare x y = Some Eq.
Proof.
  destruct x as [sx|sx| |sx mx ex], k as [sk|sk| |sk mk ek]; try discriminate;
    destruct y as [sy|sy| |sy my ey]; try discriminate; try reflexivity;
    repeat match goal with s : bool |- _ => destruct s end; try discriminate; try reflexivity.
  all: cbn [SFcompare];
    change (PosDef.Pos.compare_cont Eq) with Pos.compare;
    destruct (Z.compare_spec ex ek) as [->|?|?]; try discriminate;
    destruct (Z.compare_spec ey ek) as [->|?|?]; try discriminate;
    rewrite Z.compare_refl;
    destruct (Pos.compare_spec mx mk) as [->|?|?]; try discriminate;
    destruct (Pos.compare_spec my mk) as [->|?|?]; try discriminate;
    rewrite Pos.compare_refl; reflexivity.
Qed.

(** Two numbers equal to a third are not one less than the other. *)
Lemma eqb_trans_l (a b k : float) :
  (a =? k)%float = true -> (b =? k)%float = true -> (a <? b)%float = false.
Proof.
  rewrite !FloatAxioms.eqb_spec, ltb_spec. unfold SFeqb, SFltb. intros Ha Hb.
  rewrite (SFcompare_Eq_trans (Prim2SF a) (Prim2SF b) (Prim2SF k)); [reflexivity| |].
  - destruct (SFcompare (Prim2SF a) (Prim2SF k)) as [[]|]; congruence.
  - destruct (SFcompare (Prim2SF b) (Prim2SF k)) as [[]|]; congruence.
Qed.

Section ShaperMore.
Context `{!Host}.

Lemma filteredPosts_spec (config : SortConfig) (elems filtered : list PostRecord) :
  filteredPosts config elems = Ok filtered ->
  (hasFilter config = false /\ filtered = elems)
  \/ (hasFilter config = true
      /\ exists test, RegExpCreate (ToString (config_value config)) = Some test
                      /\ filtered = List.filter (passes config test) elems).
Proof.
  unfold filteredPosts. destruct (hasFilter config); [|intros [= <-]; auto].
  destruct (RegExpCreate _) as [test|]; [|discriminate].
  intros [= <-]. right. split; [reflexivity|]. exists test. auto.
Qed.

(** What a run that returns leaves in [posts.posts]. *)
Lemma sortAndSlicePost_result (h h' : Heap) (posts r arr : loc) (config : SortConfig)
    (elems out : list PostRecord) :
  h !! posts = Some (OCollection arr config) ->
  h !! arr = Some (OPosts elems) ->
  sortAndSlicePost posts h = (Ok r, h') ->
  postsOf h' r = Some out ->
  exists filtered sorted,
    filteredPosts config elems = Ok filtered
    /\ arraySort (comparator (effectiveSort config) (config_ascending config)) filtered
       = Ok sorted
    /\ out = arraySlice0 sorted (effectiveCount config)
    /\ r = posts
    /\ h' = heapAfterSort h posts arr config filtered sorted.
Proof.
  intros Hp Ha Hrun Ho.
  destruct (sortAndSlicePost_returns h h' posts r Hrun)
    as (arr' & config' & elems' & filtered & sorted & Hp' & Ha' & Hf & Hs & -> & ->).
  rewrite Hp in Hp'. injection Hp' as <- <-. rewrite Ha in Ha'. injection Ha' as <-.
  rewrite (postsOf_heapAfterSort h posts arr config elems filtered sorted Hp Ha) in Ho.
  injection Ho as <-. exists filtered, sorted. auto.
Qed.

Lemma arraySlice0_is_take {A} (l : list A) (stop : value) :
  exists n, arraySlice0 l stop = take n l.
Proof. unfold arraySlice0. eauto. Qed.

(** X20. The posts [sortAndSlicePost] leaves in a collection are posts
    the collection had, none more often than before; with a filter, each
    of them passes it. *)
Theorem sortAndSlicePost_selects (h h' : Heap) (posts r arr : loc) (config : SortConfig)
    (elems out : list PostRecord) :
  h !! posts = Some (OCollection arr config) ->
  h !! arr = Some (OPosts elems) ->
  sortAndSlicePost posts h = (Ok r, h') ->
  postsOf h' r = Some out ->
  (exists dropped, Permutation (out ++ dropped) elems)
  /\ (hasFilter config = true ->
      exists test,
        RegExpCreate (ToString (config_value config)) = Some test
        /\ forall post, In post out -> passes config test post = true).
Proof.
  intros Hp Ha Hrun Ho.
  destruct (sortAndSlicePost_result h h' posts r arr config elems out Hp Ha Hrun Ho)
    as (filtered & sorted & Hf & Hs & -> & _ & _).
  pose proof (arraySort_perm _ _ _ Hs) as Hperm.
  destruct (arraySlice0_is_take sorted (effectiveCount config)) as [n ->].
  destruct (filteredPosts_spec config elems filtered Hf)
    as [[Hnf ->]|(Hhf & test & Ht & ->)].
  - split; [|congruence]. exists (drop n sorted).
    rewrite take_drop. exact Hperm.
  - split.
    + exists (drop n sorted ++ List.filter (fun p => negb (passes config test p)) elems).
      rewrite app_assoc, take_drop, Hperm. apply filter_partition.
    + intros _. exists test. split; [exact Ht|]. intros post Hin.
      apply In_take in Hin. eapply Permutation_in in Hin; [|exact Hperm].
      apply filter_In in Hin. apply Hin.
Qed.

Lemma ordered_short {A} (after : A -> A -> bool) (l : list A) :
  length l <= 1 -> ordered after l.
Proof. destruct l as [|x [|y l]]; simpl; intros; try lia; constructor. Qed.

(** The sorted list of a run is in order, adjacent elements compared. *)
Lemma arraySort_ordered (config : SortConfig) (filtered sorted : list PostRecord) :
  arraySort (comparator (effectiveSort config) (config_ascending config)) filtered = Ok sorted ->
  ordered (comesAfter (effectiveSort config) (config_ascending config)) sorted
  /\ (sortIsValid (effectiveSort config) = false -> length sorted <= 1).
Proof.
  intros Hs. destruct (sortIsValid (effectiveSort config)) eqn:Hv.
  - rewrite arraySort_valid in Hs by exact Hv. injection Hs as <-.
    split; [|discriminate]. apply sortBy_ordered. intros a b. apply comesAfter_asym.
  - destruct (comparator_invalid _ (config_ascending config) Hv) as (fo & op & so & _ & Hc).
    rewrite (arraySort_throws _ _ filtered Hc) in Hs.
    assert (Hl : length sorted <= 1).
    { destruct filtered as [|x [|y f]]; try discriminate; injection Hs as <-; simpl; lia. }
    split; [apply ordered_short, Hl|intros _; exact Hl].
Qed.

Lemma arraySort_again (config : SortConfig) (l : list PostRecord) :
  ordered (comesAfter (effectiveSort config) (config_ascending config)) l ->
  (sortIsValid (effectiveSort config) = false -> length l <= 1) ->
  arraySort (comparator (effectiveSort config) (config_ascending config)) l = Ok l.
Proof.
  intros Ho Hl. destruct (sortIsValid (effectiveSort config)) eqn:Hv.
  - rewrite arraySort_valid by exact Hv. rewrite sortBy_of_ordered by exact Ho. reflexivity.
  - destruct (comparator_invalid _ (config_ascending config) Hv) as (fo & op & so & _ & Hc).
    rewrite (arraySort_throws _ _ l Hc). specialize (Hl eq_refl).
    destruct l as [|x [|y l]]; simpl in Hl; try lia; reflexivity.
Qed.

(** X21. Shaping a collection that [sortAndSlicePost] has shaped, under
    the same config with a count that is a positive integer or absent,
    returns again and leaves the same posts in the same order, for a
    collection in which no post that passes the filter has the key
    [NaN]. *)
Theorem sortAndSlicePost_again (h h' : Heap) (posts r arr : loc) (config : SortConfig)
    (elems filtered : list PostRecord) (n : nat) :
  h !! posts = Some (OCollection arr config) ->
  h !! arr = Some (OPosts elems) ->
  filteredPosts config elems = Ok filtered ->
  (forall p k, In p filtered -> sortKey (effectiveSort config) p = Ok k -> is_nan k = false) ->
  countIs config n ->
  sortAndSlicePost posts h = (Ok r, h') ->
  exists h'',
    sortAndSlicePost posts h' = (Ok posts, h'')
    /\ postsOf h'' posts = postsOf h' posts.
Proof.
  intros Hp Ha0 Hf0 _ Hc Hrun.
  destruct (sortAndSlicePost_returns h h' posts r Hrun)
    as (arr' & config' & elems' & filtered' & sorted & Hp' & Ha & Hf & Hs & -> & ->).
  rewrite Hp in Hp'. injection Hp' as <- <-.
  rewrite Ha0 in Ha. injection Ha as <-. pose proof Ha0 as Ha.
  rewrite Hf0 in Hf. injection Hf as <-. pose proof Hf0 as Hf.
  destruct (heapAfterSort_facts h posts arr config elems filtered sorted Hp Ha)
    as (s & _ & _ & _ & Hps & Hss & _).
  rewrite (countIs_slice config n sorted Hc) in Hss.
  set (h' := heapAfterSort h posts arr config filtered sorted) in *.
  set (out := take n sorted) in *.
  destruct (arraySort_ordered config filtered sorted Hs) as [Hord Hshort].
  assert (Hf' : filteredPosts config out = Ok out).
  { destruct (filteredPosts_spec config elems filtered Hf)
      as [[Hnf ->]|(Hhf & test & Ht & ->)]; unfold filteredPosts.
    - rewrite Hnf. reflexivity.
    - rewrite Hhf, Ht. f_equal. apply filter_all. intros post Hin.
      apply In_take in Hin. eapply Permutation_in in Hin; [|apply (arraySort_perm _ _ _ Hs)].
      apply filter_In in Hin. apply Hin. }
  assert (Hs' : arraySort (comparator (effectiveSort config) (config_ascending config)) out
                = Ok out).
  { apply arraySort_again; [apply ordered_take, Hord|].
    intros Hv. specialize (Hshort Hv). unfold out. rewrite length_take. lia. }
  exists (heapAfterSort h' posts s config out out).
  rewrite (sortAndSlicePost_run h' posts s config out Hps Hss), Hf', Hs'.
  split; [reflexivity|].
  rewrite (postsOf_heapAfterSort h' posts s config out out out Hps Hss).
  rewrite (countIs_slice config n out Hc).
  unfold postsOf. rewrite Hps, Hss. f_equal. unfold out. rewrite take_take.
  f_equal. lia.
Qed.

(** X22. The sort is stable. When the sort option is valid and no post
    has the key [NaN], the posts of the result that have one and the
    same key stand in the order they had in the collection (after the
    filter): they are the first of the posts with that key. *)
Theorem sortAndSlicePost_stable (h h' : Heap) (posts r arr : loc) (config : SortConfig)
    (elems filtered out : list PostRecord) :
  h !! posts = Some (OCollection arr config) ->
  h !! arr = Some (OPosts elems) ->
  filteredPosts config elems = Ok filtered ->
  sortIsValid (effectiveSort config) = true ->
  (forall p, In p filtered -> is_nan (keyOf (effectiveSort config) p) = false) ->
  sortAndSlicePost posts h = (Ok r, h') ->
  postsOf h' r = Some out ->
  forall k : float,
  exists m,
    List.filter (fun p => (keyOf (effectiveSort config) p =? k)%float) out
    = take m (List.filter (fun p => (keyOf (effectiveSort config) p =? k)%float) filtered).
Proof.
  intros Hp Ha Hf Hv _ Hrun Ho k.
  destruct (sortAndSlicePost_result h h' posts r arr config elems out Hp Ha Hrun Ho)
    as (filtered' & sorted & Hf' & Hs & -> & _ & _).
  rewrite Hf in Hf'. injection Hf' as <-.
  rewrite arraySort_valid in Hs by exact Hv. injection Hs as <-.
  destruct (arraySlice0_is_take
              (sortBy (comesAfter (effectiveSort config) (config_ascending config)) filtered)
              (effectiveCount config)) as [n ->].
  destruct (filter_take_prefix
              (fun p => (keyOf (effectiveSort config) p =? k)%float) n
              (sortBy (comesAfter (effectiveSort config) (config_ascending config)) filtered))
    as [m Hm].
  exists m. rewrite Hm. f_equal. apply sortBy_filter.
  intros x y _ _ Hx Hy. unfold comesAfter.
  destruct (ToBoolean (config_ascending config)); eapply eqb_trans_l; eassumption.
Qed.

Lemma arraySort_length (config : SortConfig) (filtered sorted : list PostRecord) :
  arraySort (comparator (effectiveSort config) (config_ascending config)) filtered = Ok sorted ->
  length sorted = length filtered.
Proof. intros Hs. apply Permutation_length, (arraySort_perm _ _ _ Hs). Qed.



Lemma sortKey_plain (sort : value) (a : PostRecord) :
  (forall fo op so, sort <> VArray [fo; op; so]) ->
  sortIsValid sort = true /\ keyOf sort a = fetchProp a sort.
Proof.
  intros H3. unfold keyOf.
  destruct sort as [| | | | |l|]; try (split; reflexivity).
  destruct l as [|fo [|op [|so [|]]]]; try (split; reflexivity).
  destruct (H3 fo op so). reflexivity.
Qed.

(** X24. When the sort option is not a 3-tuple (it is a property name,
    or absent) and the filter pattern, if any, is a regular expression,
    [sortAndSlicePost] returns, and the posts it leaves are in order for
    every pair of neighbours, whatever the values of the property are. *)
Theorem sortAndSlicePost_plain_sort (h : Heap) (posts arr : loc) (config : SortConfig)
    (elems filtered : list PostRecord) :
  h !! posts = Some (OCollection arr config) ->
  h !! arr = Some (OPosts elems) ->
  filteredPosts config elems = Ok filtered ->
  (forall fo op so, effectiveSort config <> VArray [fo; op; so]) ->
  exists h' out,
    sortAndSlicePost posts h = (Ok posts, h')
    /\ postsOf h' posts = Some out
    /\ forall i p q, out !! i = Some p -> out !! S i = Some q ->
         (if ToBoolean (config_ascending config)
          then (fetchProp p (effectiveSort config) <=? fetchProp q (effectiveSort config))%float
          else (fetchProp q (effectiveSort config) <=? fetchProp p (effectiveSort config))%float)
         = true.
Proof.
  intros Hp Ha Hf H3.
  set (sort := effectiveSort config) in *.
  assert (Hv : sortIsValid sort = true) by (apply (sortKey_plain sort []), H3).
  pose proof (arraySort_valid sort (config_ascending config) filtered Hv) as Hs.
  eexists _, _. rewrite (sortAndSlicePost_run h posts arr config elems Hp Ha), Hf.
  fold sort. rewrite Hs. split; [reflexivity|].
  rewrite (postsOf_heapAfterSort h posts arr config elems filtered _ Hp Ha).
  split; [reflexivity|]. intros i p q Hi Hj.
  assert (Hord : ordered (comesAfter sort (config_ascending config))
                   (arraySlice0 (sortBy (comesAfter sort (config_ascending config)) filtered)
                      (effectiveCount config))).
  { unfold arraySlice0. apply ordered_take, sortBy_ordered. intros a b. apply comesAfter_asym. }
  pose proof (ordered_lookup _ _ i p q Hord Hi Hj) as Hpq. unfold comesAfter in Hpq.
  rewrite !(proj2 (sortKey_plain sort _ H3)) in Hpq.
  destruct (ToBoolean (config_ascending config));
    apply not_ltb_leb; try apply fetchProp_not_nan; exact Hpq.
Qed.

End ShaperMore.

(** * What the shaper leaves alone, and when it returns *)

Section ShaperFrame.
Context `{!Host}.

Lemma kept_refl (h : Heap) : kept h h.
Proof. constructor; eauto. Qed.

Lemma kept_trans (h1 h2 h3 : Heap) : kept h1 h2 -> kept h2 h3 -> kept h1 h3.
Proof.
  intros [G1 P1 D1 A1 C1] [G2 P2 D2 A2 C2]. constructor.
  - lia.
  - intros a E Ha. destruct (P1 a E Ha) as (E1 & Ha1 & Hp1).
    destruct (P2 a E1 Ha1) as (E2 & Ha2 & Hp2). exists E2. split; [exact Ha2|].
    etransitivity; eassumption.
  - eauto.
  - eauto.
  - intros l a cfg Hl. destruct (C1 l a cfg Hl) as (a1 & Hl1 & Ha1).
    destruct (C2 l a1 cfg Hl1) as (a2 & Hl2 & Ha2). exists a2. split; [exact Hl2|].
    destruct Ha2 as [->|[Hge HE]]; [|right; split; [lia|exact HE]].
    destruct Ha1 as [->|[Hge [E HE]]]; [left; reflexivity|right].
    split; [exact Hge|]. destruct (P2 a1 E HE) as (E' & HE' & _). eauto.
Qed.

Lemma kept_app (h : Heap) (o : object) : kept h (h ++ [o]).
Proof.
  constructor.
  - rewrite length_app. lia.
  - intros a E Ha. exists E. split; [|reflexivity].
    rewrite lookup_app_l by (eapply lookup_lt_Some; exact Ha). exact Ha.
  - intros l m nm Hl. rewrite lookup_app_l by (eapply lookup_lt_Some; exact Hl). exact Hl.
  - intros l es Hl. rewrite lookup_app_l by (eapply lookup_lt_Some; exact Hl). exact Hl.
  - intros l a cfg Hl. exists a. split; [|left; reflexivity].
    rewrite lookup_app_l by (eapply lookup_lt_Some; exact Hl). exact Hl.
Qed.

Lemma shapeStep_kept (h h' : Heap) (p : loc) : shapeStep h h' p -> kept h h'.
Proof.
  intros [(a & config & E & s & out & E1 & Hp & Ha & Hs1 & Hs2 & Hps & Hss & _ & Ha1 & Hperm
           & Hframe) _ Hgrow].
  assert (Hpa : p <> a) by (intros ->; congruence).
  constructor.
  - exact Hgrow.
  - intros a0 E0 Ha0. destruct (decide (a0 = a)) as [->|Hn].
    + rewrite Ha in Ha0. injection Ha0 as <-. eauto.
    + exists E0. split; [|reflexivity]. rewrite Hframe; [exact Ha0| | |exact Hn].
      * eapply lookup_lt_Some; exact Ha0.
      * intros ->. congruence.
  - intros l m nm Hl. rewrite Hframe; [exact Hl| | |].
    + eapply lookup_lt_Some; exact Hl.
    + intros ->. congruence.
    + intros ->. congruence.
  - intros l es Hl. rewrite Hframe; [exact Hl| | |].
    + eapply lookup_lt_Some; exact Hl.
    + intros ->. congruence.
    + intros ->. congruence.
  - intros l a0 cfg Hl. destruct (decide (l = p)) as [->|Hn].
    + rewrite Hp in Hl. injection Hl as <- <-. exists s. split; [exact Hps|].
      right. split; [exact Hs1|eauto].
    + exists a0. split; [|left; reflexivity]. rewrite Hframe; [exact Hl| |exact Hn|].
      * eapply lookup_lt_Some; exact Hl.
      * intros ->. congruence.
Qed.

Lemma shapeEntry_cases (c r : loc) (h h1 : Heap) :
  shapeEntry c h = (Ok r, h1) ->
  exists a cfg,
    h !! c = Some (OCollection a cfg)
    /\ ((~ sectioned cfg /\ sortAndSlicePost c h = (Ok r, h1))
        \/ (exists st u h2,
              config_structure cfg = Some st /\ st <> []
              /\ forEachM (shapeSection c (length h)) st (h ++ [OArray []]) = (Ok u, h2)
              /\ r = length h2 /\ h1 = h2 ++ [OSections (length h)])).
Proof.
  intros Hrun.
  destruct (h !! c) as [[| a cfg | | |]|] eqn:Hc;
    try (cbv beta iota zeta delta [shapeEntry bind loadCollection load notA throw] in Hrun;
         rewrite Hc in Hrun; discriminate).
  exists a, cfg. split; [reflexivity|].
  destruct (sectioned_dec cfg) as [Hsd|Hnsd].
  - right.
    assert (exists st, config_structure cfg = Some st /\ st <> []) as (st & Hst & Hne).
    { unfold sectioned in Hsd. destruct (config_structure cfg) as [[|e st]|]; try tauto.
      eexists; split; [reflexivity|discriminate]. }
    rewrite (shapeEntry_sectioned c a cfg h st Hc Hst Hne) in Hrun.
    destruct (forEachM _ st _) as [[u|e] h2] eqn:Hloop; [|discriminate].
    injection Hrun as <- <-. exists st, u, h2. auto.
  - left. rewrite (shapeEntry_flat c a cfg h Hc Hnsd) in Hrun. auto.
Qed.

(** The sections loop read the posts array of the collection. *)
Lemma sections_read_posts (c secArr a : loc) (cfg : SortConfig)
    (st : list (string * SortConfig)) (h0 h2 : Heap) (u : list unit) :
  st <> [] ->
  h0 !! c = Some (OCollection a cfg) ->
  forEachM (shapeSection c secArr) st h0 = (Ok u, h2) ->
  exists E, h0 !! a = Some (OPosts E).
Proof.
  intros Hne Hc0 Hloop. destruct st as [|entry st]; [contradiction|].
  assert (Hlc : c < length h0) by (eapply lookup_lt_Some; exact Hc0).
  destruct (forEachM_cons_returns _ _ _ _ _ _ Hloop) as (y & ys & hx & Hx & _ & _).
  rewrite (shapeSection_run c secArr entry h0 a cfg Hc0) in Hx.
  destruct (sortAndSlicePost _ _) as [[t|e] h3] eqn:Hsort; [|discriminate].
  destruct (sortAndSlicePost_step _ _ _ _ Hsort) as [_ [Hb _ _]].
  destruct Hb as (a' & cfg' & E & s & out & E1 & Hp & Ha' & _).
  rewrite list_lookup_insert_eq in Hp by (rewrite length_app; simpl; lia).
  injection Hp as <- <-.
  assert (Hla' : a < length h0).
  { pose proof (lookup_lt_Some _ _ _ Ha') as Hlt.
    rewrite length_insert, length_app in Hlt. simpl in Hlt.
    destruct (decide (a = length h0)) as [->|]; [|lia].
    rewrite list_lookup_insert_eq in Ha' by (rewrite length_app; simpl; lia). discriminate. }
  rewrite list_lookup_insert_ne in Ha' by lia.
  rewrite lookup_app_l in Ha' by lia. eauto.
Qed.

Lemma shapeEntry_kept (c r : loc) (h h1 : Heap) :
  shapeEntry c h = (Ok r, h1) -> kept h h1.
Proof.
  intros Hrun.
  destruct (shapeEntry_cases c r h h1 Hrun)
    as (a & cfg & Hc & [[_ Hs]|(st & u & h2 & Hst & Hne & Hloop & -> & ->)]).
  - destruct (sortAndSlicePost_step h h1 c r Hs) as [_ Hstep].
    eapply shapeStep_kept; exact Hstep.
  - assert (Hlc : c < length h) by (eapply lookup_lt_Some; exact Hc).
    set (h0 := h ++ [OArray []]) in *.
    assert (Hl0 : length h0 = S (length h)) by (subst h0; rewrite length_app; simpl; lia).
    assert (Hc0 : h0 !! c = Some (OCollection a cfg)).
    { subst h0. rewrite lookup_app_l by lia. exact Hc. }
    assert (Hs0 : h0 !! length h = Some (OArray [])).
    { subst h0. rewrite lookup_app_r by lia. rewrite Nat.sub_diag. reflexivity. }
    destruct (sections_read_posts c (length h) a cfg st h0 h2 u Hne Hc0 Hloop) as [E Ha0].
    assert (Hla : a < length h).
    { pose proof (lookup_lt_Some _ _ _ Ha0) as Hlt.
      destruct (decide (a = length h)) as [->|]; [congruence|lia]. }
    destruct (sections_facts c (length h) a cfg st h0 [] E u h2 Hloop Hc0 Ha0 Hs0)
      as (tss & E' & _ & Ha2 & Hperm & _ & _ & Hframe & Hgrow).
    assert (Hold : forall l o, h !! l = Some o -> l <> a -> h2 !! l = Some o).
    { intros l o Hl Hn. assert (l < length h) by (eapply lookup_lt_Some; exact Hl).
      rewrite Hframe by lia. subst h0. rewrite lookup_app_l by lia. exact Hl. }
    eapply kept_trans; [|apply kept_app].
    constructor.
    + lia.
    + intros a0 E0 Hl. destruct (decide (a0 = a)) as [->|Hn].
      * subst h0. rewrite lookup_app_l in Ha0 by lia. rewrite Ha0 in Hl. injection Hl as <-.
        eauto.
      * exists E0. split; [|reflexivity]. apply Hold; assumption.
    + intros l m nm Hl. apply Hold; [exact Hl|]. intros ->.
      subst h0. rewrite lookup_app_l in Ha0 by lia. congruence.
    + intros l es Hl. apply Hold; [exact Hl|]. intros ->.
      subst h0. rewrite lookup_app_l in Ha0 by lia. congruence.
    + intros l a0 cfg0 Hl. exists a0. split; [|left; reflexivity].
      apply Hold; [exact Hl|]. intros ->.
      subst h0. rewrite lookup_app_l in Ha0 by lia. congruence.
Qed.

Lemma entries_kept (entries : list loc) :
  forall h shaped h', forEachM shapeEntry entries h = (Ok shaped, h') -> kept h h'.
Proof.
  induction entries as [|c entries IH]; intros h shaped h' Hrun.
  - cbn [forEachM] in Hrun. unfold ret in Hrun. injection Hrun as _ <-. apply kept_refl.
  - destruct (forEachM_cons_returns _ _ _ _ _ _ Hrun) as (r & rs & h1 & Hx & Hrest & _).
    eapply kept_trans; [eapply shapeEntry_kept; exact Hx|eapply IH; exact Hrest].
Qed.

Lemma transformPosts_cases (data r : loc) (h h' : Heap) :
  transformPosts data h = (Ok r, h') ->
  exists mails name entries shaped h1,
    h !! data = Some (ODocument mails name)
    /\ h !! mails = Some (OArray entries)
    /\ forEachM shapeEntry entries h = (Ok shaped, h1)
    /\ r = data
    /\ h' = <[data := ODocument (length h1) name]> (h1 ++ [OArray shaped]).
Proof.
  intros Hrun.
  destruct (h !! data) as [[| | | | mails name]|] eqn:Hd;
    try (cbv beta iota zeta delta [transformPosts bind load notA throw] in Hrun;
         rewrite Hd in Hrun; discriminate).
  revert Hrun.
  cbv beta iota zeta delta [transformPosts bind loadArray load alloc store ret notA throw].
  rewrite Hd. cbv beta iota.
  destruct (h !! mails) as [[| | | entries |]|] eqn:Hm; try discriminate.
  cbv beta iota.
  destruct (forEachM shapeEntry entries h) as [[shaped|e] h1] eqn:Hloop; [|discriminate].
  pose proof (entries_kept entries h shaped h1 Hloop) as Hk.
  pose proof (kept_document h h1 Hk data mails name Hd) as Hd1.
  assert (Hld : data < length h1) by (eapply lookup_lt_Some; exact Hd1).
  rewrite lookup_app_l by lia. rewrite Hd1. cbv beta iota.
  intros [= <- <-]. exists mails, name, entries, shaped, h1. auto.
Qed.

(** X19. [transformPosts] takes no post away from an array the caller
    holds: an array of posts of the store holds after the call the posts
    it held, possibly in another order (the filtered and sliced lists
    are new arrays); and no array of collections is changed, the one
    that [data.mails] referred to included. *)
Theorem transformPosts_frame (data r : loc) (h h' : Heap) :
  transformPosts data h = (Ok r, h') ->
  (forall a E, h !! a = Some (OPosts E) ->
     exists E', h' !! a = Some (OPosts E') /\ Permutation E' E)
  /\ (forall l es, h !! l = Some (OArray es) -> h' !! l = Some (OArray es)).
Proof.
  intros Hrun.
  destruct (transformPosts_cases data r h h' Hrun)
    as (mails & name & entries & shaped & h1 & Hd & Hm & Hloop & -> & ->).
  pose proof (entries_kept entries h shaped h1 Hloop) as Hk.
  pose proof (kept_document h h1 Hk data mails name Hd) as Hd1.
  split.
  - intros a E Ha. destruct (kept_posts h h1 Hk a E Ha) as (E' & Ha1 & Hp).
    exists E'. split; [|exact Hp].
    rewrite list_lookup_insert_ne by (intros ->; congruence).
    rewrite lookup_app_l by (eapply lookup_lt_Some; exact Ha1). exact Ha1.
  - intros l es Hl. pose proof (kept_array h h1 Hk l es Hl) as Hl1.
    rewrite list_lookup_insert_ne by (intros ->; congruence).
    rewrite lookup_app_l by (eapply lookup_lt_Some; exact Hl1). exact Hl1.
Qed.

Lemma collectionAt_kept (h h1 : Heap) (c : loc) :
  kept h h1 -> collectionAt h c -> collectionAt h1 c.
Proof.
  intros Hk (a & config & E & Hc & Ha & Hv).
  destruct (kept_collection h h1 Hk c a config Hc) as (a' & Hc1 & [->|[_ [E' HE']]]).
  - destruct (kept_posts h h1 Hk a E Ha) as (E' & Ha1 & _). exists a, config, E'. auto.
  - exists a', config, E'. auto.
Qed.

Lemma shapeEntry_runs (h : Heap) (c : loc) :
  collectionAt h c -> exists r h1, shapeEntry c h = (Ok r, h1).
Proof.
  intros (a & config & E & Hc & Ha & Hv).
  assert (Hlc : c < length h) by (eapply lookup_lt_Some; exact Hc).
  assert (Hla : a < length h) by (eapply lookup_lt_Some; exact Ha).
  unfold shapeable in Hv.
  destruct (config_structure config) as [[|e st]|] eqn:Hst.
  - rewrite (shapeEntry_flat c a config h Hc) by (unfold sectioned; rewrite Hst; tauto).
    destruct (sectionIsValid_runs config E Hv) as (filtered & sorted & Hf & Hs).
    rewrite (sortAndSlicePost_run h c a config E Hc Ha), Hf, Hs. eauto.
  - rewrite (shapeEntry_sectioned c a config h (e :: st) Hc Hst) by discriminate.
    destruct (sections_total c (length h) a config (e :: st) (h ++ [OArray []]) [] E Hv)
      as (u & h2 & ->).
    + rewrite lookup_app_l by lia. exact Hc.
    + rewrite lookup_app_l by lia. exact Ha.
    + rewrite lookup_app_r by lia. rewrite Nat.sub_diag. reflexivity.
    + eauto.
  - rewrite (shapeEntry_flat c a config h Hc) by (unfold sectioned; rewrite Hst; tauto).
    destruct (sectionIsValid_runs config E Hv) as (filtered & sorted & Hf & Hs).
    rewrite (sortAndSlicePost_run h c a config E Hc Ha), Hf, Hs. eauto.
Qed.

Lemma entries_run (entries : list loc) :
  forall h, Forall (collectionAt h) entries ->
  exists shaped h', forEachM shapeEntry entries h = (Ok shaped, h').
Proof.
  induction entries as [|c entries IH]; intros h Hall.
  - cbn [forEachM]. unfold ret. eauto.
  - inversion Hall as [|? ? Hc Hrest]; subst.
    destruct (shapeEntry_runs h c Hc) as (r & h1 & Hx).
    pose proof (shapeEntry_kept c r h h1 Hx) as Hk.
    destruct (IH h1) as (shaped & h' & Hl).
    { eapply List.Forall_impl; [|exact Hrest]. intros c'. apply collectionAt_kept, Hk. }
    exists (r :: shaped), h'. eapply forEachM_cons_total; eassumption.
Qed.

(** X18. [transformPosts] returns, with the document it was given, for
    every document whose entries are collections with a posts array and
    with configs that can be carried out: each filter pattern is a
    regular expression and each sort operator is an allowed one. *)
Theorem transformPosts_total (data mails : loc) (name : value) (entries : list loc)
    (h : Heap) :
  h !! data = Some (ODocument mails name) ->
  h !! mails = Some (OArray entries) ->
  Forall (collectionAt h) entries ->
  exists h', transformPosts data h = (Ok data, h').
Proof.
  intros Hd Hm Hall.
  destruct (entries_run entries h Hall) as (shaped & h1 & Hloop).
  pose proof (entries_kept entries h shaped h1 Hloop) as Hk.
  pose proof (kept_document h h1 Hk data mails name Hd) as Hd1.
  assert (Hld : data < length h1) by (eapply lookup_lt_Some; exact Hd1).
  cbv beta iota zeta delta [transformPosts bind loadArray load alloc store ret notA throw].
  rewrite Hd. cbv beta iota. rewrite Hm. cbv beta iota. rewrite Hloop.
  rewrite lookup_app_l by lia. rewrite Hd1. cbv beta iota. eauto.
Qed.

End ShaperFrame.

(** * From the parsed file to the document *)

Section ConvertSpec.
Context {A : Type}.

Lemma convertMailDataToArray_mails (mail : list (string * A)) :
  fst (convertMailDataToArray mail) = take (length mail - 2) (map snd mail).
Proof.
  unfold convertMailDataToArray, sliceTo. cbn [fst]. rewrite length_map. f_equal.
  destruct (Z.ltb_spec (Z.of_nat (length mail) - 2) 0); lia.
Qed.

Lemma property_app_absent (front rest : list (string * A)) (key : string) :
  ~ In key (map fst front) -> property (front ++ rest) key = property rest key.
Proof.
  induction front as [|[k v] front IH]; intros Hn; [reflexivity|]. simpl.
  destruct (String.eqb_spec k key) as [->|_]; [exfalso; apply Hn; left; reflexivity|].
  apply IH. intros Hin. apply Hn. right. exact Hin.
Qed.

(** X27. [convertMailDataToArray] lists the values of all properties of
    the parsed file but the last two, in order, whatever the keys of
    those two are, and takes the name from the property [name]. For a
    file whose properties are the collections, then [name], then one
    more, the mails are the collections; a file with at most two
    properties gives no mails; and a [name] that is not among the last
    two properties is listed among the mails as well. *)
Theorem convertMailDataToArray_drops_two :
  (forall (front : list (string * A)) k1 v1 k2 v2,
      fst (convertMailDataToArray (front ++ [(k1, v1); (k2, v2)])) = map snd front)
  /\ (forall mail : list (string * A),
      length mail <= 2 -> fst (convertMailDataToArray mail) = [])
  /\ (forall (collections : list (string * A)) name k v,
      ~ In "name" (map fst collections) ->
      convertMailDataToArray (collections ++ [("name", name); (k, v)])
      = (map snd collections, Some name))
  /\ (forall (rest : list (string * A)) name k1 v1 k2 v2,
      convertMailDataToArray (("name", name) :: rest ++ [(k1, v1); (k2, v2)])
      = (name :: map snd rest, Some name)).
Proof.
  assert (Hfront : forall (front : list (string * A)) k1 v1 k2 v2,
             fst (convertMailDataToArray (front ++ [(k1, v1); (k2, v2)])) = map snd front).
  { intros front k1 v1 k2 v2. rewrite convertMailDataToArray_mails.
    rewrite length_app, map_app. simpl length.
    replace (length front + 2 - 2) with (length (map snd front)) by (rewrite length_map; lia).
    apply take_app_length. }
  split; [exact Hfront|]. split; [|split].
  - intros mail Hl. rewrite convertMailDataToArray_mails.
    replace (length mail - 2) with 0 by lia. reflexivity.
  - intros collections name k v Hn.
    rewrite (surjective_pairing (convertMailDataToArray _)), Hfront. f_equal.
    unfold convertMailDataToArray. cbn [snd].
    rewrite property_app_absent by exact Hn. reflexivity.
  - intros rest name k1 v1 k2 v2.
    change (("name", name) :: rest ++ [(k1, v1); (k2, v2)])
      with ((("name", name) :: rest) ++ [(k1, v1); (k2, v2)]).
    rewrite (surjective_pairing (convertMailDataToArray _)), Hfront. reflexivity.
Qed.

End ConvertSpec.

(** * Keys that are numbers *)

(** ** Arithmetic on finite numbers does not give [NaN] *)

Local Open Scope Z_scope.

Lemma shr_1_nonneg (mrs : shr_record) : 0 <= shr_m mrs -> 0 <= shr_m (shr_1 mrs).
Proof. destruct mrs as [m r s]. destruct m as [|[p|p|]|p]; simpl; lia. Qed.

Lemma iter_pos_invariant {T : Type} (P : T -> Prop) (f : T -> T) :
  (forall x, P x -> P (f x)) -> forall p x, P x -> P (SpecFloat.iter_pos f p x).
Proof.
  intros Hf. induction p as [p IH|p IH|]; intros x Hx; simpl; auto.
Qed.

Lemma shr_nonneg (mrs : shr_record) (e n : Z) :
  0 <= shr_m mrs -> 0 <= shr_m (fst (shr mrs e n)).
Proof.
  intros Hm. unfold shr. destruct n as [|p|p]; simpl; try exact Hm.
  apply (iter_pos_invariant (fun r => 0 <= shr_m r)); [apply shr_1_nonneg|exact Hm].
Qed.

Lemma shr_fexp_nonneg (m e : Z) (l : location) :
  0 <= m -> 0 <= shr_m (fst (shr_fexp prec emax m e l)).
Proof.
  intros Hm. unfold shr_fexp. apply shr_nonneg.
  destruct l as [|[]]; exact Hm.
Qed.

Lemma round_nearest_even_nonneg (m : Z) (l : location) :
  0 <= m -> 0 <= round_nearest_even m l.
Proof.
  intros Hm. unfold round_nearest_even. destruct l as [|[]]; try lia.
  destruct (Z.even m); lia.
Qed.

Lemma binary_round_aux_not_nan (s : bool) (m e : Z) (l : location) :
  0 <= m -> binary_round_aux prec emax s m e l <> S754_nan.
Proof.
  intros Hm. unfold binary_round_aux.
  pose proof (shr_fexp_nonneg m e l Hm) as H1.
  destruct (shr_fexp prec emax m e l) as [mrs' e']. simpl in H1.
  pose proof (shr_fexp_nonneg _ e' loc_Exact
                (round_nearest_even_nonneg _ (loc_of_shr_record mrs') H1)) as H2.
  destruct (shr_fexp prec emax _ e' loc_Exact) as [mrs'' e'']. simpl in H2.
  destruct (shr_m mrs'') as [|p|p]; [discriminate| |lia].
  destruct (e'' <=? emax - prec); discriminate.
Qed.

Lemma binary_normalize_not_nan (m e : Z) (szero : bool) :
  binary_normalize prec emax m e szero <> S754_nan.
Proof.
  unfold binary_normalize, binary_round. destruct m as [|p|p]; [discriminate| |].
  - destruct (shl_align p e _) as [mz ez]. apply binary_round_aux_not_nan. lia.
  - destruct (shl_align p e _) as [mz ez]. apply binary_round_aux_not_nan. lia.
Qed.

Lemma SFadd_not_nan (x y : spec_float) :
  SFfinite x -> SFfinite y -> SF64add x y <> S754_nan.
Proof.
  destruct x as [sx|sx| |sx mx ex], y as [sy|sy| |sy my ey]; simpl; try tauto; intros _ _;
    try discriminate.
  - destruct sx, sy; discriminate.
  - apply binary_normalize_not_nan.
Qed.

Lemma SFsub_not_nan (x y : spec_float) :
  SFfinite x -> SFfinite y -> SF64sub x y <> S754_nan.
Proof.
  destruct x as [sx|sx| |sx mx ex], y as [sy|sy| |sy my ey]; simpl; try tauto; intros _ _;
    try discriminate.
  - destruct sx, sy; discriminate.
  - apply binary_normalize_not_nan.
Qed.

Lemma SFmul_not_nan (x y : spec_float) :
  SFfinite x -> SFfinite y -> SF64mul x y <> S754_nan.
Proof.
  destruct x as [sx|sx| |sx mx ex], y as [sy|sy| |sy my ey]; simpl; try tauto; intros _ _;
    try discriminate.
  apply binary_round_aux_not_nan. lia.
Qed.

Lemma SFdiv_not_nan (x : spec_float) (sy : bool) (my : positive) (ey : Z) :
  SFfinite x -> SF64div x (S754_finite sy my ey) <> S754_nan.
Proof.
  destruct x as [sx|sx| |sx mx ex]; simpl; try tauto; intros _; try discriminate.
  unfold SFdiv_core_binary.
  set (e' := Z.min _ _). set (m' := match _ with 0 => _ | Z.pos _ => _ | Z.neg _ => _ end).
  assert (Hm' : 0 <= m').
  { subst m'. destruct (ex - ey - e') as [|p|p]; try lia.
    change (IntDef.Z.shiftl (Z.pos mx) (Z.pos p)) with (Z.shiftl (Z.pos mx) (Z.pos p)).
    rewrite Z.shiftl_mul_pow2 by lia. apply Z.mul_nonneg_nonneg; [lia|].
    apply Z.pow_nonneg. lia. }
  change (IntDef.Z.div_eucl m' (Z.pos my)) with (Z.div_eucl m' (Z.pos my)).
  pose proof (Z.div_pos m' (Z.pos my) Hm' ltac:(lia)) as Hq.
  unfold Z.div in Hq. destruct (Z.div_eucl m' (Z.pos my)) as [q r].
  apply binary_round_aux_not_nan. exact Hq.
Qed.

Local Close Scope Z_scope.

Lemma Prim2SF_infinity : Prim2SF infinity = S754_infinity false.
Proof. reflexivity. Qed.

Lemma is_infinity_false (x : float) :
  is_infinity x = false -> is_nan x = false -> SFfinite (Prim2SF x).
Proof.
  unfold is_infinity. rewrite FloatAxioms.eqb_spec, abs_spec, Prim2SF_infinity, is_nan_false.
  destruct (Prim2SF x) as [s|s| |s m e]; simpl; try tauto; try discriminate.
Qed.

Lemma is_zero_false (x : float) (s : bool) : is_zero x = false -> Prim2SF x <> S754_zero s.
Proof.
  intros Hz Hs. assert (is_zero x = true) by (apply is_zero_spec; eauto). congruence.
Qed.

Lemma add_not_nan (x y : float) :
  SFfinite (Prim2SF x) -> SFfinite (Prim2SF y) -> is_nan (x + y) = false.
Proof. intros Hx Hy. rewrite is_nan_false, add_spec. apply SFadd_not_nan; assumption. Qed.

Lemma sub_not_nan (x y : float) :
  SFfinite (Prim2SF x) -> SFfinite (Prim2SF y) -> is_nan (x - y) = false.
Proof. intros Hx Hy. rewrite is_nan_false, sub_spec. apply SFsub_not_nan; assumption. Qed.

Lemma mul_not_nan (x y : float) :
  SFfinite (Prim2SF x) -> SFfinite (Prim2SF y) -> is_nan (x * y) = false.
Proof. intros Hx Hy. rewrite is_nan_false, mul_spec. apply SFmul_not_nan; assumption. Qed.

Lemma div_not_nan (x y : float) :
  SFfinite (Prim2SF x) -> SFfinite (Prim2SF y) -> is_zero y = false ->
  is_nan (x / y) = false.
Proof.
  intros Hx Hy Hz. rewrite is_nan_false, div_spec.
  destruct (Prim2SF y) as [s|s| |s m e] eqn:E; simpl in Hy; try tauto.
  - exfalso. eapply is_zero_false; eassumption.
  - apply SFdiv_not_nan. exact Hx.
Qed.

Lemma orZero_finite (x : float) : is_infinity x = false -> SFfinite (Prim2SF (orZero x)).
Proof.
  intros Hi. unfold orZero. cbn [ToBoolean].
  destruct (is_zero x) eqn:Ez; [exact I|].
  destruct (is_nan x) eqn:En; [exact I|]. simpl. apply is_infinity_false; assumption.
Qed.

Section FiniteKeys.
Context `{!Host}.

(** What [safeEvaluate] returns, in terms of its coerced operands. *)
Lemma safeEvaluate_returns (operand1 operator operand2 : value) (r : float) :
  safeEvaluate operand1 operator operand2 = Ok r ->
  let x := orZero (ToNumber operand1) in
  let y := orZero (ToNumber operand2) in
  r = (x + y)%float \/ r = (x - y)%float \/ r = (x * y)%float
  \/ (r = (x / y)%float /\ is_zero y = false) \/ r = 0%float.
Proof.
  unfold safeEvaluate.
  destruct (negb (includes allowedOperators operator)); [discriminate|].
  destruct (StrictEquals operator (VString "+")); [intros [= <-]; auto|].
  destruct (StrictEquals operator (VString "-")); [intros [= <-]; auto|].
  destruct (StrictEquals operator (VString "*")); [intros [= <-]; auto 6|].
  destruct (StrictEquals operator (VString "/")); [|intros [= <-]; auto 6].
  intros [= <-].
  change (orZero (ToNumber operand2) =? 0)%float with (is_zero (orZero (ToNumber operand2))).
  destruct (is_zero (orZero (ToNumber operand2))) eqn:Ez; simpl; auto 8.
Qed.

(** X26. The evaluator does not return [NaN] unless an operand is
    infinite: for operands that coerce to a finite number or to [NaN],
    whatever it returns is a number. *)
Theorem safeEvaluate_not_nan (operand1 operator operand2 : value) :
  is_infinity (ToNumber operand1) = false ->
  is_infinity (ToNumber operand2) = false ->
  forall r, safeEvaluate operand1 operator operand2 = Ok r -> is_nan r = false.
Proof.
  intros H1 H2 r Hr.
  pose proof (orZero_finite _ H1) as F1. pose proof (orZero_finite _ H2) as F2.
  destruct (safeEvaluate_returns _ _ _ _ Hr) as [-> | [-> | [-> | [[-> Hz] | ->]]]].
  - apply add_not_nan; assumption.
  - apply sub_not_nan; assumption.
  - apply mul_not_nan; assumption.
  - apply div_not_nan; assumption.
  - reflexivity.
Qed.

(** The key of a post under a 3-tuple sort is a number when neither
    property is infinite. *)
Lemma sortKey_tuple_finite (fo op so : value) (p : PostRecord) (k : float) :
  is_infinity (fetchProp p fo) = false ->
  is_infinity (fetchProp p so) = false ->
  sortKey (VArray [fo; op; so]) p = Ok k ->
  is_nan k = false.
Proof.
  intros H1 H2 Hk. cbn [sortKey] in Hk.
  pose proof (orZero_finite (fetchProp p fo) H1) as F1.
  pose proof (orZero_finite (fetchProp p so) H2) as F2.
  destruct (safeEvaluate_returns _ _ _ _ Hk) as [-> | [-> | [-> | [[-> Hz] | ->]]]];
    cbn [ToNumber] in *;
    [apply add_not_nan|apply sub_not_nan|apply mul_not_nan|apply div_not_nan|reflexivity];
    assumption.
Qed.

(** X25. With a 3-tuple sort, the posts [sortAndSlicePost] leaves are in
    order for every pair of neighbours as soon as neither property of
    the tuple is infinite on any post that passes the filter. *)
Theorem sortAndSlicePost_finite_keys (h h' : Heap) (posts r arr : loc) (config : SortConfig)
    (fo op so : value) (elems filtered out : list PostRecord) :
  h !! posts = Some (OCollection arr config) ->
  h !! arr = Some (OPosts elems) ->
  filteredPosts config elems = Ok filtered ->
  effectiveSort config = VArray [fo; op; so] ->
  (forall p, In p filtered ->
     is_infinity (fetchProp p fo) = false /\ is_infinity (fetchProp p so) = false) ->
  sortAndSlicePost posts h = (Ok r, h') ->
  postsOf h' r = Some out ->
  forall i p q, out !! i = Some p -> out !! S i = Some q ->
    exists kp kq,
      sortKey (effectiveSort config) p = Ok kp
      /\ sortKey (effectiveSort config) q = Ok kq
      /\ (if ToBoolean (config_ascending config)
          then (kp <=? kq)%float else (kq <=? kp)%float) = true.
Proof.
  intros Hp Ha0 Hf0 Hsort Hfin Hrun Ho i p q Hi Hj.
  destruct (sortAndSlicePost_returns h h' posts r Hrun)
    as (arr' & config' & elems' & filtered' & sorted & Hp' & Ha & Hf & Hs & -> & ->).
  rewrite Hp in Hp'. injection Hp' as <- <-.
  rewrite Ha0 in Ha. injection Ha as <-. rewrite Hf0 in Hf. injection Hf as <-.
  rewrite (postsOf_heapAfterSort h posts arr config elems filtered sorted Hp Ha0) in Ho.
  injection Ho as <-.
  destruct (arraySort_ordered config filtered sorted Hs) as [Hord Hshort].
  assert (Hv : sortIsValid (effectiveSort config) = true).
  { destruct (sortIsValid (effectiveSort config)) eqn:Hv; [reflexivity|exfalso].
    specialize (Hshort eq_refl). apply lookup_lt_Some in Hj.
    unfold arraySlice0 in Hj. rewrite length_take in Hj. lia. }
  assert (Hord' : ordered (comesAfter (effectiveSort config) (config_ascending config))
                    (arraySlice0 sorted (effectiveCount config))).
  { unfold arraySlice0. apply ordered_take, Hord. }
  pose proof (ordered_lookup _ _ i p q Hord' Hi Hj) as Hpq.
  assert (Hnan : forall x, In x (arraySlice0 sorted (effectiveCount config)) ->
                           is_nan (keyOf (effectiveSort config) x) = false).
  { intros x Hx. unfold arraySlice0 in Hx. apply In_take in Hx.
    eapply Permutation_in in Hx; [|apply (arraySort_perm _ _ _ Hs)].
    destruct (Hfin x Hx) as [H1 H2].
    pose proof (sortKey_valid (effectiveSort config) x Hv) as Hk.
    rewrite Hsort in Hk at 1.
    eapply sortKey_tuple_finite; [| |exact Hk]; assumption. }
  exists (keyOf (effectiveSort config) p), (keyOf (effectiveSort config) q).
  rewrite !sortKey_valid by exact Hv. repeat split.
  assert (Hip : In p (arraySlice0 sorted (effectiveCount config)))
    by (apply list_elem_of_In; eapply list_elem_of_lookup_2; exact Hi).
  assert (Hiq : In q (arraySlice0 sorted (effectiveCount config)))
    by (apply list_elem_of_In; eapply list_elem_of_lookup_2; exact Hj).
  unfold comesAfter in Hpq.
  destruct (ToBoolean (config_ascending config)); apply not_ltb_leb; auto.
Qed.

End FiniteKeys.

(** * The further theorems on concrete inputs *)

(** An address with white space around it. *)
Lemma isValidEmail_padding_witness :
  (blank (chars " ") /\ blank (chars "  "))
  /\ isValidEmail (VString (" " +:+ "jane@mail.com" +:+ "  "))
     = isValidEmail (VString "jane@mail.com").
Proof.
  assert (H1 : blank (chars " ")) by (repeat constructor).
  assert (H2 : blank (chars "  ")) by (repeat constructor).
  split; [split; assumption|].
  apply (isValidEmail_padding " " "jane@mail.com" "  " H1 H2).
Defined.

(** Four attempts against a relay that is down. *)
Lemma sendMailWithRetry_exhausted_witness :
  (forall H : Host,
      validPayload janeHandler (VString "jonedoe@mail.com") (VString "<p>Hello</p>")
        (VString "Daily Digest"))
  /\ (forall H : Host,
      let sent := Sent (transporterOf janeHandler)
                    (mkMailOptions (VString "jonedoe@mail.com") (VString "<p>Hello</p>")
                       (VString "Daily Digest")) in
      sendMailWithRetry relayDown janeHandler (VString "jonedoe@mail.com")
        (VString "<p>Hello</p>") (VString "Daily Digest") 4 freshWorld
      = (Throw (Error "Failed to send email after 4 attempts: SMTP error: connection refused"),
         mkWorld 4 [sent; Waited 2000%float; sent; Waited 4000%float; sent;
                    Waited 8000%float; sent])).
Proof.
  assert (Hv : forall H : Host,
             validPayload janeHandler (VString "jonedoe@mail.com") (VString "<p>Hello</p>")
               (VString "Daily Digest")).
  { intros H. repeat split. }
  split; [exact Hv|]. intros H sent.
  exact (sendMailWithRetry_exhausted relayDown janeHandler _ _ _ 3 freshWorld
           (fun _ => "connection refused") (Hv H) (fun j _ => eq_refl)).
Defined.

(** Five attempts allowed, the third message accepted. *)
Lemma sendMailWithRetry_accepted_witness :
  (forall H : Host,
      validPayload janeHandler (VString "jonedoe@mail.com") (VString "<p>Hello</p>")
        (VString "Daily Digest"))
  /\ (forall H : Host,
      let sent := Sent (transporterOf janeHandler)
                    (mkMailOptions (VString "jonedoe@mail.com") (VString "<p>Hello</p>")
                       (VString "Daily Digest")) in
      sendMailWithRetry relayUpAtThird janeHandler (VString "jonedoe@mail.com")
        (VString "<p>Hello</p>") (VString "Daily Digest") 5 freshWorld
      = (Ok tt, mkWorld 3 [sent; Waited 2000%float; sent; Waited 4000%float; sent])).
Proof.
  assert (Hv : forall H : Host,
             validPayload janeHandler (VString "jonedoe@mail.com") (VString "<p>Hello</p>")
               (VString "Daily Digest")).
  { intros H. repeat split. }
  split; [exact Hv|]. intros H sent.
  apply (sendMailWithRetry_accepted relayUpAtThird janeHandler _ _ _ 5 2 freshWorld
           (fun _ => "connection refused") (VString "Ok") (Hv H)); [lia| |reflexivity].
  intros [|[|j]] Hj; [reflexivity|reflexivity|lia].
Defined.

(** A recipient that is not an address, three attempts. *)
Lemma sendMailWithRetry_rejected_witness :
  (forall H : Host,
      ~ validPayload janeHandler (VString "nobody") (VString "<p>Hello</p>")
          (VString "Daily Digest"))
  /\ (forall H : Host,
      exists m,
        (forall w, sendMail relayUp janeHandler (VString "nobody") (VString "<p>Hello</p>")
                     (VString "Daily Digest") w = (Throw (Error m), w))
        /\ forall n w,
            sendMailWithRetry relayUp janeHandler (VString "nobody") (VString "<p>Hello</p>")
              (VString "Daily Digest") (S n) w
            = (Throw (Error ("Failed to send email after " +:+ showNat (S n) +:+
                             " attempts: " +:+ m)),
               mkWorld (relayCalls w) (events w ++ backoff [] 1 n))).
Proof.
  assert (Hn : forall H : Host,
             ~ validPayload janeHandler (VString "nobody") (VString "<p>Hello</p>")
                 (VString "Daily Digest")).
  { intros H (He & _). discriminate He. }
  split; [exact Hn|]. intros H.
  apply (sendMailWithRetry_rejected relayUp janeHandler _ _ _ (Hn H)).
Defined.

(** A listing of three files, of which two are candidates. *)
Lemma start_accounts_witness :
  exampleReaddir (dataDir janeHandler) = Ok exampleFiles
  /\ exists res w',
      start (H := exampleHost) relayUp janeHandler exampleComposer exampleReaddir exampleMkdir
        freshWorld = (Ok res, w')
      /\ success res + failed res = length (candidates (H := exampleHost) janeHandler exampleFiles)
      /\ length (errors res)
         = failed res + length (unsafeFiles (H := exampleHost) janeHandler exampleFiles).
Proof.
  split; [reflexivity|].
  apply (start_accounts (H := exampleHost) relayUp janeHandler exampleComposer exampleReaddir
           exampleMkdir exampleFiles freshWorld).
  reflexivity.
Defined.

(** The data directory is not there; it can be created. *)
Lemma start_without_directory_witness :
  exampleNoDirectory (dataDir janeHandler)
  = Throw (Error "ENOENT: no such file or directory, scandir './mail-data'")
  /\ (exampleMkdir (dataDir janeHandler) = Ok tt ->
      start (H := exampleHost) relayUp janeHandler exampleComposer exampleNoDirectory
        exampleMkdir freshWorld
      = (Ok (mkBatchResult 0 0 []),
         mkWorld (relayCalls freshWorld)
           (events freshWorld ++ [MadeDirectory (dataDir janeHandler)])))
  /\ (forall e, exampleMkdir (dataDir janeHandler) = Throw e ->
      start (H := exampleHost) relayUp janeHandler exampleComposer exampleNoDirectory
        exampleMkdir freshWorld = (Throw e, freshWorld)).
Proof.
  split; [reflexivity|].
  apply (start_without_directory (H := exampleHost) relayUp janeHandler exampleComposer
           exampleNoDirectory exampleMkdir
           (Error "ENOENT: no such file or directory, scandir './mail-data'") freshWorld).
  reflexivity.
Defined.

(** Two documents, the second named after no address, with the composer
    of the class. *)
Lemma start_composed_errors_witness :
  (mailReaddir (dataDir janeHandler) = Ok mailFiles
   /\ start (H := exampleHost) relayUp janeHandler
        (constructMailData (H := exampleHost) exampleBasename value exampleBuild exampleRender
           (fun d => d))
        mailReaddir exampleMkdir freshWorld
      = (Ok (mkBatchResult 1 1
               ["Failed to process notes-mail-2.yaml: " +:+
                "Invalid email address extracted from filename: notes"]),
         mkWorld 1
           [Sent (transporterOf janeHandler)
              (mkMailOptions (VString "jane@mail.com") (VString "<p>Hello</p>")
                 (VString "Daily Digest"))]))
  /\ Forall (fun msg => exists file, In file mailFiles /\ skippedOrFailed file msg)
       ["Failed to process notes-mail-2.yaml: " +:+
        "Invalid email address extracted from filename: notes"].
Proof.
  assert (Hrun :
    start (H := exampleHost) relayUp janeHandler
      (constructMailData (H := exampleHost) exampleBasename value exampleBuild exampleRender
           (fun d => d))
      mailReaddir exampleMkdir freshWorld
    = (Ok (mkBatchResult 1 1
             ["Failed to process notes-mail-2.yaml: " +:+
              "Invalid email address extracted from filename: notes"]),
       mkWorld 1
         [Sent (transporterOf janeHandler)
            (mkMailOptions (VString "jane@mail.com") (VString "<p>Hello</p>")
               (VString "Daily Digest"))])) by reflexivity.
  split; [split; [reflexivity|exact Hrun]|].
  apply (start_composed_errors (H := exampleHost) relayUp janeHandler exampleBasename value
           exampleBuild exampleRender (fun d => d) mailReaddir exampleMkdir
           freshWorld _ _ mailFiles eq_refl Hrun).
Defined.

(** The document named after no address. *)
Lemma processFile_not_an_address_witness :
  (candidate (H := exampleHost) janeHandler "notes-mail-2.yaml"
   /\ exampleBasename (ToString (H := exampleHost) (dataDir janeHandler) +:+ "/" +:+
                       "notes-mail-2.yaml") = "notes-mail-2.yaml"
   /\ emailRegexCapture "notes-mail-2.yaml" = Some "notes"
   /\ isValidEmail (VString "notes") = false)
  /\ processFile (H := exampleHost) relayUp janeHandler
       (constructMailData (H := exampleHost) exampleBasename value exampleBuild exampleRender
           (fun d => d))
       "notes-mail-2.yaml" (mkBatchResult 0 0 []) freshWorld
     = (Ok (recordFailure "notes-mail-2.yaml" (mkBatchResult 0 0 [])
              (Error ("Invalid email address extracted from filename: " +:+ "notes"))),
        freshWorld).
Proof.
  assert (Hc : candidate (H := exampleHost) janeHandler "notes-mail-2.yaml")
    by (split; reflexivity).
  split; [repeat split; try reflexivity; apply Hc|].
  apply (processFile_not_an_address (H := exampleHost) relayUp janeHandler exampleBasename
           value exampleBuild exampleRender (fun d => d) "notes-mail-2.yaml" "notes"
           (mkBatchResult 0 0 []) freshWorld Hc); reflexivity.
Defined.

(** Three posts, those of a domain with [github] kept. *)
Lemma sortAndSlicePost_selects_witness :
  hasFilter domainConfig = true
  /\ postsOf (snd (sortAndSlicePost (H := wordHost) 0 domainHeap)) 0
     = Some [domainPost "gist.github.com" 20; domainPost "github.com" 10]
  /\ (exists dropped,
         Permutation ([domainPost "gist.github.com" 20; domainPost "github.com" 10] ++ dropped)
           [domainPost "github.com" 10; domainPost "example.org" 30;
            domainPost "gist.github.com" 20])
  /\ (exists test,
        RegExpCreate (Host := wordHost) (ToString (H := wordHost) (config_value domainConfig))
        = Some test
        /\ test "example.org" = false
        /\ forall post,
             In post [domainPost "gist.github.com" 20; domainPost "github.com" 10] ->
             passes (H := wordHost) domainConfig test post = true).
Proof.
  split; [reflexivity|]. split; [reflexivity|].
  destruct (sortAndSlicePost_selects (H := wordHost) domainHeap
              (snd (sortAndSlicePost (H := wordHost) 0 domainHeap)) 0 0 1 domainConfig
              [domainPost "github.com" 10; domainPost "example.org" 30;
               domainPost "gist.github.com" 20]
              [domainPost "gist.github.com" 20; domainPost "github.com" 10]
              eq_refl eq_refl eq_refl eq_refl) as [Hsub Hpass].
  split; [exact Hsub|].
  destruct (Hpass eq_refl) as (test & Ht & Hall).
  exists test. split; [exact Ht|]. split; [|exact Hall].
  injection Ht as <-. reflexivity.
Defined.

(** A member that the posts inherit is read along the prototype chain:
    the text of [constructor] is that of the function [Object], in
    which [undef] does not occur, and no post is kept. *)
Lemma sortAndSlicePost_inherited_member :
  memberText (H := wordHost) (domainPost "github.com" 10) "constructor"
  = "function Object() { [native code] }"
  /\ memberText (H := wordHost) (domainPost "github.com" 10) "rank" = "undefined"
  /\ postsOf (snd (sortAndSlicePost (H := wordHost) 0 inheritedHeap)) 0 = Some [].
Proof. repeat split. Qed.

(** The three kept posts, shaped again. *)
Lemma sortAndSlicePost_again_witness :
  countIs topThreeConfig 3
  /\ (forall H : Host,
      forall p k, In p (List.map pointsPost [10; 20; 30; 40; 50; 60]%float) ->
        sortKey (effectiveSort topThreeConfig) p = Ok k -> is_nan k = false)
  /\ forall H : Host,
      exists h'',
        sortAndSlicePost 0 (snd (sortAndSlicePost 0 topThreeHeap)) = (Ok 0, h'')
        /\ postsOf h'' 0 = postsOf (snd (sortAndSlicePost 0 topThreeHeap)) 0.
Proof.
  assert (Hc : countIs topThreeConfig 3).
  { left. exists 3%float. repeat split; try reflexivity. lia. }
  assert (Hk : forall H : Host,
             forall p k, In p (List.map pointsPost [10; 20; 30; 40; 50; 60]%float) ->
               sortKey (effectiveSort topThreeConfig) p = Ok k -> is_nan k = false).
  { intros H p k Hin Hp.
    repeat (destruct Hin as [<-|Hin]; [injection Hp as <-; reflexivity|]).
    destruct Hin. }
  split; [exact Hc|]. split; [exact Hk|]. intros H.
  apply (sortAndSlicePost_again topThreeHeap (snd (sortAndSlicePost 0 topThreeHeap)) 0 0 1
           topThreeConfig (List.map pointsPost [10; 20; 30; 40; 50; 60]%float)
           (List.map pointsPost [10; 20; 30; 40; 50; 60]%float) 3
           eq_refl eq_refl eq_refl (Hk H) Hc eq_refl).
Defined.

(** Two posts of rank 7: they stay in the order of the input. *)
Lemma sortAndSlicePost_stable_witness :
  (forall H : Host,
      postsOf (snd (sortAndSlicePost 0 tiedRankHeap)) 0 = Some tiedPosts)
  /\ (forall H : Host,
      exists m,
        List.filter (fun p => (keyOf (VString "rank") p =? 7)%float) tiedPosts
        = take m (List.filter (fun p => (keyOf (VString "rank") p =? 7)%float) tiedPosts)).
Proof.
  split; [intros H; reflexivity|]. intros H.
  apply (sortAndSlicePost_stable tiedRankHeap (snd (sortAndSlicePost 0 tiedRankHeap)) 0 0 1
           (plainConfig (VString "rank") (VBool false) VUndefined) tiedPosts tiedPosts tiedPosts);
    try reflexivity.
  intros p [<-|[<-|[]]]; reflexivity.
Defined.


(** Six posts sorted by their points. *)
Lemma sortAndSlicePost_plain_sort_witness :
  (forall fo op so, effectiveSort topThreeConfig <> VArray [fo; op; so])
  /\ forall H : Host,
      exists h' out,
        sortAndSlicePost 0 topThreeHeap = (Ok 0, h')
        /\ postsOf h' 0 = Some out
        /\ forall i p q, out !! i = Some p -> out !! S i = Some q ->
             (if ToBoolean (config_ascending topThreeConfig)
              then (fetchProp p (effectiveSort topThreeConfig)
                    <=? fetchProp q (effectiveSort topThreeConfig))%float
              else (fetchProp q (effectiveSort topThreeConfig)
                    <=? fetchProp p (effectiveSort topThreeConfig))%float) = true.
Proof.
  assert (H3 : forall fo op so, effectiveSort topThreeConfig <> VArray [fo; op; so])
    by (intros fo op so; discriminate).
  split; [exact H3|]. intros H.
  apply (sortAndSlicePost_plain_sort topThreeHeap 0 1 topThreeConfig
           (List.map pointsPost [10; 20; 30; 40; 50; 60]%float)
           (List.map pointsPost [10; 20; 30; 40; 50; 60]%float));
    try reflexivity. exact H3.
Defined.

(** The digest: the caller's arrays after the call. *)
Lemma transformPosts_frame_witness :
  (forall H : Host, fst (transformPosts 0 digestHeap) = Ok 0)
  /\ (forall H : Host,
      (forall a E, digestHeap !! a = Some (OPosts E) ->
         exists E', snd (transformPosts 0 digestHeap) !! a = Some (OPosts E')
                    /\ Permutation E' E)
      /\ (forall l es, digestHeap !! l = Some (OArray es) ->
            snd (transformPosts 0 digestHeap) !! l = Some (OArray es))).
Proof.
  split; [intros H; reflexivity|]. intros H.
  apply (transformPosts_frame 0 0 digestHeap (snd (transformPosts 0 digestHeap))).
  reflexivity.
Defined.

(** The digest can be shaped. *)
Lemma transformPosts_total_witness :
  (forall H : Host, Forall (collectionAt digestHeap) [2; 4])
  /\ (forall H : Host, exists h', transformPosts 0 digestHeap = (Ok 0, h')).
Proof.
  assert (Hall : forall H : Host, Forall (collectionAt digestHeap) [2; 4]).
  { intros H. repeat constructor.
    - exists 3, topThreeConfig, (List.map pointsPost [10; 20; 30; 40; 50; 60]%float).
      repeat split; try reflexivity. discriminate.
    - exists 5, chartConfig, [chartPost 5 2; chartPost 1 4].
      repeat split; try reflexivity.
      repeat constructor; discriminate. }
  split; [exact Hall|]. intros H.
  apply (transformPosts_total 0 1 (VString "Daily Digest") [2; 4] digestHeap);
    [reflexivity|reflexivity|apply Hall].
Defined.

(** Six divided by three. *)
Lemma safeEvaluate_not_nan_witness :
  (is_infinity 6 = false /\ is_infinity 3 = false)
  /\ forall (H : Host) r,
      safeEvaluate (VNumber 6) (VString "/") (VNumber 3) = Ok r -> is_nan r = false.
Proof.
  split; [split; reflexivity|]. intros H.
  apply (safeEvaluate_not_nan (VNumber 6) (VString "/") (VNumber 3)); reflexivity.
Defined.

(** Two charted posts by [last-week - rank]. *)
Lemma sortAndSlicePost_finite_keys_witness :
  (forall H : Host,
      forall p, In p [chartPost 5 2; chartPost 1 4] ->
        is_infinity (fetchProp p (VString "last-week")) = false
        /\ is_infinity (fetchProp p (VString "rank")) = false)
  /\ (forall H : Host,
      postsOf (snd (sortAndSlicePost 0 gainsHeap)) 0 = Some [chartPost 1 4; chartPost 5 2])
  /\ (forall H : Host,
      exists kp kq,
        sortKey (effectiveSort gainsConfig) (chartPost 1 4) = Ok kp
        /\ sortKey (effectiveSort gainsConfig) (chartPost 5 2) = Ok kq
        /\ (if ToBoolean (config_ascending gainsConfig)
            then (kp <=? kq)%float else (kq <=? kp)%float) = true).
Proof.
  assert (Hf : forall H : Host,
             forall p, In p [chartPost 5 2; chartPost 1 4] ->
               is_infinity (fetchProp p (VString "last-week")) = false
               /\ is_infinity (fetchProp p (VString "rank")) = false).
  { intros H p [<-|[<-|[]]]; split; reflexivity. }
  split; [exact Hf|]. split; [intros H; reflexivity|]. intros H.
  apply (sortAndSlicePost_finite_keys gainsHeap (snd (sortAndSlicePost 0 gainsHeap)) 0 0 1
           gainsConfig (VString "last-week") (VString "-") (VString "rank")
           [chartPost 5 2; chartPost 1 4] [chartPost 5 2; chartPost 1 4]
           [chartPost 1 4; chartPost 5 2]
           eq_refl eq_refl eq_refl eq_refl (Hf H) eq_refl eq_refl 0);
    reflexivity.
Defined.
